(** * watcher-ts: chain client adapter, state comparison utilities, fill-state
      and code generation registries

    A shallow embedding of the TypeScript sources

      - [packages/rpc-eth-client/src/eth-client.ts]   (class [EthClient])
      - the state comparison utilities ([checkIPLDMetaData], [combineIPLDState])
      - [packages/eden-watcher/src/fill-state.ts]     ([fillState])
      - [packages/codegen/src/database.ts] and the codegen client
        ([Database.addQuery], [Client.addQuery])

    followed by the properties of the design document that concern them.

    Conventions.  JavaScript values are the trees of [JS.value]; exceptions
    are the constructors of [JS.exn] and a computation that may throw has
    type [JS.result].  Objects that the sources mutate in place are threaded
    explicitly.  Libraries of the JavaScript ecosystem (ethers, lodash,
    json-diff, the level-db cache) are modelled by their documented
    behaviour on the values the sources hand them; where a behaviour is left
    to the engine or falls outside the JSON fragment the model throws
    [JS.Unspecified]. *)

From Stdlib Require Import ZArith String Ascii OrderedTypeEx.
From stdpp Require Import base option strings list gmap sorting pretty.

#[local] Set Warnings "-register-all".
Local Open Scope string_scope.
Local Open Scope Z_scope.
Local Open Scope list_scope.

(* ===================================================================== *)
(** * Part I: the embedding                                               *)
(* ===================================================================== *)

(** ** JavaScript values and exceptions *)

Module JS.

(** The values that [JSON.parse] produces, plus [undefined], which
    property access yields for a missing key.  Numbers are restricted to
    integers.  An object is the list of its properties in the order of
    enumeration, without duplicate keys; that JavaScript enumerates
    integer-like keys first is not modelled. *)
Inductive value : Type :=
| VUndefined
| VNull
| VBool (b : bool)
| VNum (n : Z)
| VStr (s : string)
| VArr (elems : list value)
| VObj (props : list (string * value)).

(** What a JavaScript computation can throw. *)
Inductive exn : Type :=
| TypeError
| AssertionError
(** an error made by the ethers library: [err.code] and, when
    [err.error] (the response of the server) is present and has a
    message, [err.error.message] *)
| EthersError (code : string) (error_message : option string)
(** behaviour left to the engine, or outside the modelled fragment *)
| Unspecified.

Inductive result (A : Type) : Type :=
| Ok (a : A)
| Throw (e : exn).
Arguments Ok {A} a.
Arguments Throw {A} e.

#[export] Instance result_ret : MRet result := @Ok.
#[export] Instance result_bind : MBind result := λ A B f r,
  match r with Ok a => f a | Throw e => Throw e end.
#[export] Instance result_fmap : FMap result := λ A B f r,
  match r with Ok a => Ok (f a) | Throw e => Throw e end.

(** [assert(c)] *)
Definition assert (c : bool) : result unit :=
  if c then Ok tt else Throw AssertionError.

(** ToBoolean. *)
Definition truthy (v : value) : bool :=
  match v with
  | VUndefined | VNull => false
  | VBool b => b
  | VNum n => negb (n =? 0)
  | VStr s => negb (s =? "")%string
  | VArr _ | VObj _ => true
  end.

(** First binding of a key in a property list. *)
Fixpoint assoc (key : string) (props : list (string * value)) : option value :=
  match props with
  | [] => None
  | (k, v) :: rest => if (k =? key)%string then Some v else assoc key rest
  end.

(** [props[key] = v]: replace the binding in place, or append a new one. *)
Fixpoint assoc_set (key : string) (v : value) (props : list (string * value))
  : list (string * value) :=
  match props with
  | [] => [(key, v)]
  | (k, w) :: rest =>
      if (k =? key)%string then (k, v) :: rest else (k, w) :: assoc_set key v rest
  end.

(** [v.key] / [v[key]] for a key that is not an array index or a built-in
    member: a [TypeError] on [null] and [undefined], [undefined] on the
    other primitives and on arrays, the bound value on objects. *)
Definition get_prop (v : value) (key : string) : result value :=
  match v with
  | VUndefined | VNull => Throw TypeError
  | VObj props => Ok (default VUndefined (assoc key props))
  | _ => Ok VUndefined
  end.

(** [a === b] where [b] is a string. *)
Definition strict_eq_str (a : value) (b : string) : bool :=
  match a with VStr s => (s =? b)%string | _ => false end.

(** [Object.values(v)]. *)
Definition Object_values (v : value) : result (list value) :=
  match v with
  | VUndefined | VNull => Throw TypeError
  | VBool _ | VNum _ => Ok []
  | VStr s => Ok ((λ c, VStr (String c EmptyString)) <$> list_ascii_of_string s)
  | VArr elems => Ok elems
  | VObj props => Ok (props.*2)
  end.

(** [Object.values(v).forEach(f)] where [f] may mutate the value it is
    handed in place: the values that [f] leaves behind are stored where
    the originals were.  (The values come from [JSON.parse], a tree
    without sharing, so in-place mutation is the same as rebuilding.)
    The characters of a string are fresh values: what [f] does to them is
    not observable, only whether it throws. *)
Definition forEach_value (f : value → result value) (v : value) : result value :=
  match v with
  | VUndefined | VNull => Throw TypeError
  | VBool _ | VNum _ => Ok v
  | VStr s =>
      _ ← mapM f ((λ c, VStr (String c EmptyString)) <$> list_ascii_of_string s);
      Ok v
  | VArr elems => VArr <$> mapM f elems
  | VObj props => VObj <$> mapM (λ kv, pair kv.1 <$> f kv.2) props
  end.

(** Deep equality of two values, insensitive to the order of the keys of
    an object.  This is when json-diff's [diff] finds nothing to report. *)
Fixpoint deep_equal (a b : value) {struct a} : bool :=
  match a, b with
  | VUndefined, VUndefined => true
  | VNull, VNull => true
  | VBool x, VBool y => bool_decide (x = y)
  | VNum x, VNum y => x =? y
  | VStr x, VStr y => (x =? y)%string
  | VArr xs, VArr ys =>
      (fix go (xs ys : list value) {struct xs} : bool :=
         match xs, ys with
         | [], [] => true
         | x :: xs', y :: ys' => deep_equal x y && go xs' ys'
         | _, _ => false
         end) xs ys
  | VObj ps, VObj qs =>
      forallb (λ kv, match assoc kv.1 qs with
                     | Some w => deep_equal kv.2 w
                     | None => false
                     end) ps
      && forallb (λ kv, bool_decide (is_Some (assoc kv.1 ps))) qs
  | _, _ => false
  end.

(** A value that [JSON.parse] can return: no [undefined], and no key
    twice in an object. *)
Fixpoint is_json (v : value) : Prop :=
  match v with
  | VUndefined => False
  | VNull | VBool _ | VNum _ | VStr _ => True
  | VArr elems =>
      (fix all (l : list value) : Prop :=
         match l with
         | [] => True
         | x :: l' => is_json x ∧ all l'
         end) elems
  | VObj props =>
      NoDup (props.*1)
      ∧ (fix all (l : list (string * value)) : Prop :=
           match l with
           | [] => True
           | kv :: l' => is_json kv.2 ∧ all l'
           end) props
  end.

(** No object of the value has a member named [__proto__]. *)
Fixpoint no_proto_key (v : value) : Prop :=
  match v with
  | VArr elems =>
      (fix all (l : list value) : Prop :=
         match l with
         | [] => True
         | x :: l' => no_proto_key x ∧ all l'
         end) elems
  | VObj props =>
      ("__proto__" ∉ props.*1)
      ∧ (fix all (l : list (string * value)) : Prop :=
           match l with
           | [] => True
           | kv :: l' => no_proto_key kv.2 ∧ all l'
           end) props
  | _ => True
  end.

(** *** Strings.  Strings are sequences of bytes; case mapping is the
    ASCII one. *)

Definition lower_ascii (c : ascii) : ascii :=
  let n := nat_of_ascii c in
  if bool_decide (65 ≤ n ≤ 90)%nat then ascii_of_nat (n + 32) else c.

Definition upper_ascii (c : ascii) : ascii :=
  let n := nat_of_ascii c in
  if bool_decide (97 ≤ n ≤ 122)%nat then ascii_of_nat (n - 32) else c.

Fixpoint map_string (f : ascii → ascii) (s : string) : string :=
  match s with
  | EmptyString => EmptyString
  | String c s' => String (f c) (map_string f s')
  end.

(** [s.toLowerCase()], [s.toUpperCase()] *)
Definition toLowerCase : string → string := map_string lower_ascii.
Definition toUpperCase : string → string := map_string upper_ascii.

(** [s.charAt(i)]: the empty string out of range. *)
Definition charAt (i : nat) (s : string) : string := String.substring i 1 s.

(** [s.slice(i)] for a non-negative [i]. *)
Definition slice (i : nat) (s : string) : string :=
  String.substring i (String.length s - i) s.

Definition digit_value (c : ascii) : option Z :=
  let n := Z.of_nat (nat_of_ascii c) in
  if bool_decide (48 ≤ n ≤ 57) then Some (n - 48)
  else if bool_decide (97 ≤ n ≤ 102) then Some (n - 87)
  else if bool_decide (65 ≤ n ≤ 70) then Some (n - 55)
  else None.

(** The number that a non-empty run of digits of base [base] denotes. *)
Fixpoint parse_digits (base : Z) (acc : Z) (s : string) : option Z :=
  match s with
  | EmptyString => Some acc
  | String c s' =>
      match digit_value c with
      | Some d => if d <? base then parse_digits base (base * acc + d) s' else None
      | None => None
      end
  end.

(** Numeric strings: the empty string, decimal digits, or [0x] followed
    by hexadecimal digits.  Other literals (signs, blanks, fractions,
    exponents) are not modelled. *)
Definition parse_numeric (s : string) : option Z :=
  match s with
  | EmptyString => Some 0
  | String "0" (String x (String c rest)) =>
      if bool_decide (x = "x"%char ∨ x = "X"%char)
      then parse_digits 16 0 (String c rest)
      else parse_digits 10 0 s
  | _ => parse_digits 10 0 s
  end.

(** [BigInt(v)] *)
Definition BigInt (v : value) : result Z :=
  match v with
  | VUndefined | VNull => Throw TypeError
  | VBool b => Ok (if b then 1 else 0)
  | VNum n => Ok n
  | VStr s => match parse_numeric s with Some n => Ok n | None => Throw Unspecified end
  | VArr _ | VObj _ => Throw Unspecified
  end.

(** *** [Number]: the conversion of strings to numbers *)

(** The white space and line terminators below U+0080. *)
Definition is_space (c : ascii) : bool :=
  let n := nat_of_ascii c in
  bool_decide (9 ≤ n ≤ 13)%nat || bool_decide (n = 32)%nat.

Definition is_decimal_digit (c : ascii) : bool :=
  let n := nat_of_ascii c in bool_decide (48 ≤ n ≤ 57)%nat.

Fixpoint drop_spaces (s : string) : string :=
  match s with
  | String c s' => if is_space c then drop_spaces s' else s
  | EmptyString => s
  end.

Fixpoint string_rev_onto (s acc : string) : string :=
  match s with
  | EmptyString => acc
  | String c s' => string_rev_onto s' (String c acc)
  end.

(** [StrWhiteSpace] stripped from both ends. *)
Definition trim (s : string) : string :=
  string_rev_onto (drop_spaces (string_rev_onto (drop_spaces s) "")) "".

(** The longest prefix of decimal digits, and what follows it. *)
Fixpoint span_digits (s : string) : string * string :=
  match s with
  | String c s' =>
      if is_decimal_digit c then let '(ds, rest) := span_digits s' in (String c ds, rest)
      else ("", s)
  | EmptyString => ("", "")
  end.

(** [ExponentPart], as what is left of a literal, or nothing. *)
Definition is_exponent_opt (s : string) : bool :=
  match s with
  | EmptyString => true
  | String e s' =>
      bool_decide (e = "e"%char ∨ e = "E"%char)
      && (let digits := match s' with
                        | String sign s'' =>
                            if bool_decide (sign = "+"%char ∨ sign = "-"%char) then s'' else s'
                        | EmptyString => s'
                        end in
          let '(ds, rest) := span_digits digits in
          negb (ds =? "")%string && (rest =? "")%string)
  end.

(** What a string denotes as a [StringNumericLiteral]. *)
Inductive numeric_literal :=
| IntegerLiteral (negative : bool) (magnitude : Z)
(** [Infinity], or a literal with a fraction or an exponent *)
| OtherLiteral
| NotNumeric.

(** [StrUnsignedDecimalLiteral] *)
Definition classify_unsigned (negative : bool) (s : string) : numeric_literal :=
  if (s =? "Infinity")%string then OtherLiteral
  else
    let '(int, rest) := span_digits s in
    match rest with
    | EmptyString =>
        match parse_digits 10 0 int with
        | Some n => if (int =? "")%string then NotNumeric else IntegerLiteral negative n
        | None => NotNumeric
        end
    | String c rest' =>
        if bool_decide (c = "."%char) then
          let '(frac, rest'') := span_digits rest' in
          if negb ((int =? "")%string && (frac =? "")%string) && is_exponent_opt rest''
          then OtherLiteral else NotNumeric
        else if negb (int =? "")%string && is_exponent_opt rest then OtherLiteral
        else NotNumeric
    end.

(** The digits of a [NonDecimalIntegerLiteral] of the given base. *)
Definition classify_digits (base : Z) (digits : string) : numeric_literal :=
  match digits, parse_digits base 0 digits with
  | String _ _, Some n => IntegerLiteral false n
  | _, _ => NotNumeric
  end.

(** [StringNumericLiteral], after the white space is stripped. *)
Definition classify_numeric (s : string) : numeric_literal :=
  match s with
  | EmptyString => IntegerLiteral false 0
  | String "0" (String x digits) =>
      if bool_decide (x = "x"%char ∨ x = "X"%char) then classify_digits 16 digits
      else if bool_decide (x = "o"%char ∨ x = "O"%char) then classify_digits 8 digits
      else if bool_decide (x = "b"%char ∨ x = "B"%char) then classify_digits 2 digits
      else classify_unsigned false s
  | String "+" s' => classify_unsigned false s'
  | String "-" s' => classify_unsigned true s'
  | _ => classify_unsigned false s
  end.

(** The double nearest to a non-negative integer, ties to even; [None]
    when it is [Infinity].  (Node rounds to the nearest double also the
    literals of more than twenty significant digits, for which the
    language allows other roundings.) *)
Definition round_to_double (m : Z) : option Z :=
  if m <? 2 ^ 53 then Some m
  else
    let e := Z.log2 m - 52 in
    let q := Z.shiftr m e in
    let r := m - Z.shiftl q e in
    let half := Z.shiftl 1 (e - 1) in
    let q' := if (half <? r) || ((r =? half) && Z.odd q) then q + 1 else q in
    let rounded := Z.shiftl q' e in
    if rounded <? 2 ^ 1024 then Some rounded else None.

(** [Number(s)] for a string of characters below U+0080: the integer
    literal it holds, as a double; [NaN] when it holds no numeric literal.
    [Infinity], literals with a fraction or an exponent, results beyond
    the doubles and [-0] are outside the numbers modelled. *)
Definition string_to_number (s : string) : result (option Z) :=
  if forallb (λ c, bool_decide (nat_of_ascii c < 128)%nat) (list_ascii_of_string s) then
    match classify_numeric (trim s) with
    | IntegerLiteral negative m =>
        match round_to_double m with
        | Some n =>
            if negative then (if n =? 0 then Throw Unspecified else Ok (Some (- n)))
            else Ok (Some n)
        | None => Throw Unspecified
        end
    | OtherLiteral => Throw Unspecified
    | NotNumeric => Ok None
    end
  else Throw Unspecified.

(** [Number(v)]; [None] is [NaN].  An object is converted through
    [Object.prototype.toString], unless a member of its own shadows it
    (with a value that cannot be called). *)
Definition Number (v : value) : result (option Z) :=
  match v with
  | VUndefined => Ok None
  | VNull => Ok (Some 0)
  | VBool b => Ok (Some (if b then 1 else 0))
  | VNum n => Ok (Some n)
  | VStr s => string_to_number s
  | VArr _ => Throw Unspecified
  | VObj props =>
      match assoc "toString" props with
      | Some _ => Throw TypeError
      | None => Ok None
      end
  end.

Definition hex_char (d : Z) : ascii :=
  if d <? 10 then ascii_of_nat (Z.to_nat (48 + d)) else ascii_of_nat (Z.to_nat (87 + d)).

(** The hexadecimal digits of a non-negative number, most significant
    first, in lower case and without leading zeros ([0] for zero).  A
    number [n] has at most [log2 n + 1] digits, which bounds the
    recursion. *)
Fixpoint hex_of (fuel : nat) (n : Z) (acc : string) : string :=
  match fuel with
  | O => acc
  | S fuel' =>
      if n <? 16 then String (hex_char n) acc
      else hex_of fuel' (n / 16) (String (hex_char (n mod 16)) acc)
  end.

Definition to_hex (n : Z) : string :=
  hex_of (S (Z.to_nat (Z.log2 n))) n "".

End JS.
Import JS.

(** ** State comparison utilities: [checkIPLDMetaData], [combineIPLDState] *)

Module CompareUtils.

(** The [block] member of a [getState] result. *)
Record BlockRef := {
  b_cid : string;
  b_number : Z;
  b_hash : string
}.

(** One result of the [getState] query.  [data] is the value that
    [JSON.parse(contractIPLD.data)] returns. *)
Record StateIPLD := {
  block : BlockRef;
  contractAddress : string;
  cid : string;
  kind : string;
  data : value
}.

(** The entries of [contractLatestStateCIDMap]. *)
Record ParentCIDs := {
  diff : string;
  checkpoint : string
}.

(** What [checkIPLDMetaData] returns: [undefined], or the string of
    [compareObjects], of which only emptiness is modelled. *)
Inductive verdict :=
| Skipped
| Compared (difference : bool).

(** [compareObjects(obj1, obj2, rawJson)] is a non-empty string: with
    [rawJson], json-diff's [diff] returned an object; without, its
    [diffString] is not empty. *)
Definition compareObjects (obj1 obj2 : value) (rawJson : bool) : bool :=
  if rawJson then negb (deep_equal obj1 obj2)
  else negb (deep_equal obj1 obj2).

(** The parent CID that the verifier expects, from the tracked CIDs and
    the parent CID the record itself claims. *)
Definition expectedParentCID (parentCIDs : ParentCIDs) (actualParentCID : value)
  : value :=
  if (diff parentCIDs =? "")%string then actualParentCID
  else if negb (checkpoint parentCIDs =? "")%string
          && strict_eq_str actualParentCID (checkpoint parentCIDs)
       then VStr (checkpoint parentCIDs)
       else VStr (diff parentCIDs).

(** The shape of the [meta] member of a state payload. *)
Definition metaData (id kind : string) (parent : value) (blockCid : string) (num : Z)
  : value :=
  VObj [ ("id", VStr id);
         ("kind", VStr kind);
         ("parent", VObj [ ("/", parent) ]);
         ("ethBlock", VObj [ ("cid", VObj [ ("/", VStr blockCid) ]);
                             ("num", VNum num) ]) ].

(** Expected meta data *)
Definition expectedMetaData (contractIPLD : StateIPLD) (parentCID : value) : value :=
  metaData (contractAddress contractIPLD) (kind contractIPLD) parentCID
           (b_cid (block contractIPLD)) (b_number (block contractIPLD)).

(** The map is returned on every path: it is updated before the payload
    is looked at. *)
Definition checkIPLDMetaData (contractIPLD : option StateIPLD)
    (contractLatestStateCIDMap : gmap string ParentCIDs) (rawJson : bool)
  : result verdict * gmap string ParentCIDs :=
  match contractIPLD with
  | None => (Ok Skipped, contractLatestStateCIDMap)
  | Some ipld =>
      match contractLatestStateCIDMap !! contractAddress ipld with
      | None => (Throw AssertionError, contractLatestStateCIDMap)
      | Some parentCIDs =>
          if (cid ipld =? diff parentCIDs)%string
             || (cid ipld =? checkpoint parentCIDs)%string
          then (Ok Skipped, contractLatestStateCIDMap)
          else
            let nextParentCIDs :=
              if (kind ipld =? "checkpoint")%string
              then {| diff := diff parentCIDs; checkpoint := cid ipld |}
              else {| diff := cid ipld; checkpoint := "" |} in
            let map' := <[contractAddress ipld := nextParentCIDs]> contractLatestStateCIDMap in
            (meta ← get_prop (data ipld) "meta";
             parent ← get_prop meta "parent";
             actualParentCID ← get_prop parent "/";
             let parentCID := expectedParentCID parentCIDs actualParentCID in
             Ok (Compared (compareObjects (expectedMetaData ipld parentCID) meta rawJson)),
             map')
      end
  end.

Section Combine.

(** [DEFAULT_LIMIT] is imported from the database module. *)
Variable DEFAULT_LIMIT : nat.
(** [String.prototype.localeCompare], as the sign of its result. *)
Variable localeCompare : string → string → comparison.

(** The [id] of an array element when it is a string. *)
Definition entity_id (v : value) : option string :=
  match v with
  | VObj props =>
      match assoc "id" props with Some (VStr s) => Some s | _ => None end
  | _ => None
  end.

(** Insertion before the first element that is not smaller. *)
Fixpoint insert_by_id (x : string * value) (l : list (string * value))
  : list (string * value) :=
  match l with
  | [] => [x]
  | y :: l' =>
      match localeCompare x.1 y.1 with
      | Gt => y :: insert_by_id x l'
      | _ => x :: l
      end
  end.

(** A stable sort.  [Array.prototype.sort] is stable, and every stable
    sort yields the same array for a consistent comparator. *)
Definition stable_sort (l : list (string * value)) : list (string * value) :=
  foldr insert_by_id [] l.

(** [fieldValue.sort((a, b) => a.id.localeCompare(b.id))].  An array
    of at most one element is left alone without a call of the
    comparator.  Otherwise, when some element has no string [id], the
    outcome (a [TypeError] in general) depends on the comparisons the
    engine chooses to make. *)
Definition sort_by_id (elems : list value) : result (list value) :=
  match mapM (λ v, (λ s, (s, v)) <$> entity_id v) elems with
  | Some keyed => Ok ((stable_sort keyed).*2)
  | None => if bool_decide (length elems ≤ 1)%nat then Ok elems else Throw Unspecified
  end.

(** The body of the innermost [forEach]: default limit and sort by id
    on array type relation fields. *)
Definition sortAndLimit (fieldValue : value) : result value :=
  match fieldValue with
  | VArr [] => Ok fieldValue
  | VArr ((first :: _) as elems) =>
      id0 ← get_prop first "id";
      if truthy id0 then
        sorted ← sort_by_id elems;
        Ok (VArr (take DEFAULT_LIMIT sorted))
      else Ok fieldValue
  | _ => Ok fieldValue
  end.

(** The members of a source that [_.merge] of lodash 4.17.21 leaves out:
    an object or an array under the key [__proto__] is merged through
    [safeGet], which reads [undefined] for that key, and [undefined] is
    not assigned to a key that is [in] the destination, as [__proto__]
    always is.  (A string, number, boolean or [null] under this key is
    assigned like any other.) *)
Definition not_merged (key : string) (srcValue : value) : bool :=
  (key =? "__proto__")%string
  && match srcValue with
     | VObj _ | VArr _ | VUndefined => true
     | _ => false
     end.

(** [_.merge] of lodash 4.17.21: the value stored under a key of the
    destination whose current value is [objValue] ([undefined] when
    absent) for the source value [srcValue].  Arrays merge index by index,
    plain objects key by key, everything else overwrites. *)
Fixpoint mergeValue (srcValue objValue : value) {struct srcValue} : result value :=
  match srcValue with
  | VArr selems =>
      target ← match objValue with
               | VArr oelems => Ok oelems
               | VObj props =>
                   match assoc "length" props with
                   | Some (VNum _) => Throw Unspecified
                   | _ => Ok []
                   end
               | _ => Ok []
               end;
      VArr <$>
        (fix go (ss os : list value) {struct ss} : result (list value) :=
           match ss with
           | [] => Ok os
           | s :: ss' =>
               v ← mergeValue s (default VUndefined (head os));
               rest ← go ss' (tail os);
               Ok (v :: rest)
           end) selems target
  | VObj sprops =>
      target ← match objValue with
               | VObj oprops => Ok oprops
               | VArr _ => Throw Unspecified
               | _ => Ok []
               end;
      VObj <$>
        (fix go (ss : list (string * value)) (os : list (string * value))
             {struct ss} : result (list (string * value)) :=
           match ss with
           | [] => Ok os
           | (key, s) :: ss' =>
               if not_merged key s then go ss' os
               else
                 v ← mergeValue s (default VUndefined (assoc key os));
                 go ss' (assoc_set key v os)
           end) sprops target
  | VUndefined => Ok objValue
  | _ => Ok srcValue
  end.

(** The two loops of [mergeValue], on their own: over the elements of a
    source array and over the properties of a source object. *)
Fixpoint merge_elems (ss os : list value) {struct ss} : result (list value) :=
  match ss with
  | [] => Ok os
  | s :: ss' =>
      v ← mergeValue s (default VUndefined (head os));
      rest ← merge_elems ss' (tail os);
      Ok (v :: rest)
  end.

Fixpoint merge_props (ss os : list (string * value)) {struct ss}
  : result (list (string * value)) :=
  match ss with
  | [] => Ok os
  | (key, s) :: ss' =>
      if not_merged key s then merge_props ss' os
      else
        v ← mergeValue s (default VUndefined (assoc key os));
        merge_props ss' (assoc_set key v os)
  end.

(** [_.merge(object, source)] on two objects or two arrays. *)
Definition merge (object source : value) : result value :=
  match object, source with
  | VObj _, VObj _ | VArr _, VArr _ => mergeValue source object
  | _, _ => Throw Unspecified
  end.

(** The callback of [contractIPLDs.map]. *)
Definition contractIPLDState (contractIPLD : option StateIPLD) : result value :=
  match contractIPLD with
  | None => Ok (VObj [])
  | Some ipld =>
      state ← get_prop (data ipld) "state";
      forEach_value (forEach_value (forEach_value sortAndLimit)) state
  end.

(** [reduce] without an initial value. *)
Definition reduce_merge (states : list value) : result value :=
  match states with
  | [] => Throw TypeError
  | first :: rest => foldl (λ acc state, a ← acc; merge a state) (Ok first) rest
  end.

Definition combineIPLDState (contractIPLDs : list (option StateIPLD)) : result value :=
  contractIPLDStates ← mapM contractIPLDState contractIPLDs;
  reduce_merge contractIPLDStates.

End Combine.

End CompareUtils.

(** ** The chain client adapter: class [EthClient] *)

Module EthClient.

(** A log as the provider returns it. *)
Record Log := {
  blockNumber : Z;
  address : string;
  transactionHash : string;
  topics : list string;
  data : string;
  logIndex : Z
}.

Record TransactionReceipt := {
  receipt_transactionHash : string;
  status : option Z
}.

(** The filter object handed to [provider.getLogs]; [None] for
    [fromBlock] or [toBlock] is [NaN]. *)
Record Filter := {
  fromBlock : option Z;
  toBlock : option Z;
  filter_address : option string
}.

(** The block that [formatter.block] returns, as far as it is used. *)
Record FormattedBlock := {
  fb_number : Z;
  fb_hash : string;
  fb_parentHash : string;
  fb_timestamp : Z
}.

(** [this._provider]: the JSON-RPC provider of ethers and its formatter.
    Every request may be rejected. *)
Record Provider := {
  provider_send : string → string → result value;
  provider_getStorageAt : string → string → string → result string;
  provider_getLogs : Filter → result (list Log);
  provider_getTransactionReceipt : string → result (option TransactionReceipt);
  formatter_block : value → result FormattedBlock;
  formatter_hash : value → result string;
  formatter_hex : value → result string;
  formatter_number : value → result Z;
  formatter_bigNumber : value → result Z
}.

(** The requests that reach the upstream provider. *)
Inductive Request :=
| ReqSend (method : string) (param : string)
| ReqGetStorageAt (contract slot blockHash : string)
| ReqGetLogs (filter : Filter)
| ReqGetTransactionReceipt (txHash : string).

(** The [vars] half of a cache key. *)
Record Vars := {
  v_blockHash : option string;
  v_blockNumber : option string;
  v_contract : option string;
  v_slot : option string;
  v_addresses : option (list string)
}.

#[export] Instance Vars_eq_dec : EqDecision Vars.
Proof. solve_decision. Defined.

#[export] Instance Vars_countable : Countable Vars.
Proof.
  refine (inj_countable'
    (λ v, (v_blockHash v, v_blockNumber v, v_contract v, v_slot v, v_addresses v))
    (λ t, let '(a, b, c, d, e) := t in
          {| v_blockHash := a; v_blockNumber := b; v_contract := c;
             v_slot := d; v_addresses := e |}) _).
  by intros [].
Defined.

(** [keyObj = { queryName, vars }] *)
Abbreviation Key := (string * Vars)%type.

(** What the cache holds: the result of a fetch. *)
Inductive Cached :=
| CachedString (s : string)
| CachedLogs (logs : list Log).

(** Modelled from the spec: the [Cache] class of the cache package is not
    among the sources.  Idempotent calls are keyed by their arguments; on
    a hit [get] returns the pair of the stored value and [true], on a
    miss [undefined]; [put] stores a value under a key. *)
Abbreviation Cache := (gmap Key Cached).

Definition Cache_get (cache : Cache) (keyObj : Key) : option (option Cached * bool) :=
  (λ v, (Some v, true)) <$> cache !! keyObj.

Definition Cache_put (cache : Cache) (keyObj : Key) (v : Cached) : Cache :=
  <[keyObj := v]> cache.

(** The mutable state of a client: the contents of [this._cache] when a
    cache is configured, and the requests sent upstream so far. *)
Record State := {
  _cache : option Cache;
  sent : list Request
}.

(** Asynchronous methods: state passing with exceptions. *)
Definition M (A : Type) : Type := State → result A * State.

#[export] Instance M_ret : MRet M := λ A a st, (Ok a, st).
#[export] Instance M_bind : MBind M := λ A B f m st,
  match m st with
  | (Ok a, st') => f a st'
  | (Throw e, st') => (Throw e, st')
  end.

(** A computation without effects. *)
Definition lift {A} (r : result A) : M A := λ st, (r, st).

(** One request to the provider and its answer. *)
Definition request {A} (req : Request) (answer : result A) : M A :=
  λ st, (answer, {| _cache := _cache st; sent := sent st ++ [req] |}).

(** [await Promise.all(xs.map(x => request))]: every request is sent; the
    result is the list of the answers, or the rejection that comes first
    in the list. *)
Definition request_all {A B} (req : A → Request) (answer : A → result B)
    (xs : list A) : M (list B) :=
  λ st, (mapM answer xs,
         {| _cache := _cache st; sent := sent st ++ (req <$> xs) |}).

(** [try { body } catch (err) { handler(err) }] *)
Definition try_catch {A} (body : M A) (handler : exn → M A) : M A :=
  λ st, match body st with
        | (Ok a, st') => (Ok a, st')
        | (Throw e, st') => handler e st'
        end.

Definition throw {A} (e : exn) : M A := lift (Throw e).

(** [errors.SERVER_ERROR] *)
Definition SERVER_ERROR : string := "SERVER_ERROR".

(** [utils.hexValue(n)] for a number: ethers rejects numbers that are
    negative or not safe integers. *)
Definition hexValue (n : Z) : result string :=
  if bool_decide (0 ≤ n < 2 ^ 53 - 1) then Ok ("0x" +:+ to_hex n)
  else Throw (EthersError "NUMERIC_FAULT" None).

(** The header handed to the RLP encoder: the members of the object
    literal in the order they are written. *)
Inductive HeaderValue :=
| HRaw (v : value)
| HBigInt (n : Z)
| HNumber (n : option Z).

Abbreviation Header := (list (string * HeaderValue)).

(** The entries of [allEthHeaderCids.nodes]. *)
Record BlockNode := {
  n_blockNumber : string;
  n_blockHash : string;
  n_parentHash : string;
  n_timestamp : string;
  n_stateRoot : string;
  n_td : string;
  n_txRoot : string;
  n_receiptRoot : string
}.

Record FullBlockNode := {
  f_blockNumber : string;
  f_blockHash : string;
  f_parentHash : string;
  f_timestamp : string;
  f_stateRoot : string;
  f_td : string;
  f_txRoot : string;
  f_receiptRoot : string;
  f_uncleRoot : string;
  f_bloom : string;
  f_blockByMhKey_data : string
}.

(** The entries of the [logs] that [getLogs] returns. *)
Record LogEntry := {
  account_address : string;
  transaction_hash : string;
  e_topics : list string;
  e_data : string;
  index : Z;
  e_status : option Z
}.

Record StorageResult := {
  value_ : Cached;
  proof_data : string
}.

#[export] Instance M_fmap : FMap M := λ A B f m st,
  match m st with
  | (Ok a, st') => (Ok (f a), st')
  | (Throw e, st') => (Throw e, st')
  end.

(** The error that the upstream client raises for a block that is not
    produced yet: [err.code === errors.SERVER_ERROR && err.error &&
    err.error.message === "requested a future epoch (beyond 'latest')"]. *)
Definition is_future_epoch (err : exn) : bool :=
  match err with
  | EthersError code (Some message) =>
      (code =? SERVER_ERROR)%string
      && (message =? "requested a future epoch (beyond 'latest')")%string
  | _ => false
  end.

(** [new Set] filled by [add] in list order, then [Array.from]: the first
    occurrence of every element, in order. *)
Definition set_from (xs : list string) : list string :=
  foldl (λ (acc : list string) x, if bool_decide (x ∈ acc) then acc else (acc ++ [x])%list)
        [] xs.

Section Methods.

(** [this._provider] *)
Variable provider : Provider.
(** [padKey] of the ipld-eth-client package. *)
Variable padKey : string → string.
(** [encodeHeader] and [escapeHexString] of the util package. *)
Variable encodeHeader : Header → string.
Variable escapeHexString : string → string.

Definition _getCachedOrFetch (queryName : string) (vars : Vars) (fetch : M Cached)
  : M Cached :=
  λ st,
    let keyObj := (queryName, vars) in
    (* Check if request cached in db, if cache is enabled. *)
    let hit :=
      match _cache st with
      | Some cache =>
          let '(value, found) := default (None, false) (Cache_get cache keyObj) in
          if found then value else None
      | None => None
      end in
    match hit with
    | Some value => (Ok value, st)
    | None =>
        (* Result not cached or cache disabled, need to perform fetch. *)
        match fetch st with
        | (Ok result, st') =>
            (* Cache the result and return it, if cache is enabled. *)
            (Ok result,
             {| _cache := (λ cache, Cache_put cache keyObj result) <$> _cache st';
                sent := sent st' |})
        | (Throw e, st') => (Throw e, st')
        end
    end.

Definition getStorageAt (blockHash contract slot : string) : M StorageResult :=
  let slot := "0x" +:+ padKey slot in
  value ← _getCachedOrFetch "getStorageAt"
             {| v_blockHash := Some blockHash; v_blockNumber := None;
                v_contract := Some contract; v_slot := Some slot;
                v_addresses := None |}
             (CachedString <$>
                request (ReqGetStorageAt contract slot blockHash)
                        (provider_getStorageAt provider contract slot blockHash));
  mret {| value_ := value; proof_data := "null" |}.

(** [blockHash ?? (blockNumber ? utils.hexValue(blockNumber) : undefined)] *)
Definition blockHashOrBlockNumber (blockNumber : option Z) (blockHash : option string)
  : result (option string) :=
  blockNumberHex ← match blockNumber with
                   | Some n => if n =? 0 then Ok None else Some <$> hexValue n
                   | None => Ok None
                   end;
  Ok (match blockHash with Some h => Some h | None => blockNumberHex end).

(** [blockHash ? 'eth_getBlockByHash' : 'eth_getBlockByNumber'] *)
Definition block_method (blockHash : option string) : string :=
  match blockHash with
  | Some h => if (h =? "")%string then "eth_getBlockByNumber" else "eth_getBlockByHash"
  | None => "eth_getBlockByNumber"
  end.

(** The prelude that [getBlocks] and [getFullBlocks] share: the parameter
    of the request, after [assert(blockHashOrBlockNumber)]. *)
Definition block_param (blockNumber : option Z) (blockHash : option string)
  : result string :=
  p ← blockHashOrBlockNumber blockNumber blockHash;
  match p with
  | Some param => _ ← assert (negb (param =? "")%string); Ok param
  | None => Throw AssertionError
  end.

Definition getBlocks (blockNumber : option Z) (blockHash : option string)
  : M (list BlockNode) :=
  param ← lift (block_param blockNumber blockHash);
  try_catch
    (rawBlock ← request (ReqSend (block_method blockHash) param)
                        (provider_send provider (block_method blockHash) param);
     if truthy rawBlock then
       lift (block ← formatter_block provider rawBlock;
             stateRoot ← get_prop rawBlock "stateRoot" ≫= formatter_hash provider;
             td ← get_prop rawBlock "totalDifficulty" ≫= formatter_bigNumber provider;
             txRoot ← get_prop rawBlock "transactionsRoot" ≫= formatter_hash provider;
             receiptRoot ← get_prop rawBlock "receiptsRoot" ≫= formatter_hash provider;
             Ok [ {| n_blockNumber := pretty (fb_number block);
                     n_blockHash := fb_hash block;
                     n_parentHash := fb_parentHash block;
                     n_timestamp := pretty (fb_timestamp block);
                     n_stateRoot := stateRoot;
                     n_td := pretty td;
                     n_txRoot := txRoot;
                     n_receiptRoot := receiptRoot |} ])
     else mret [])
    (λ err,
       (* Check and ignore future block error *)
       if is_future_epoch err then mret [] else throw err).

(** The object literal [header] of [getFullBlocks]. *)
Definition block_header (rawBlock : value) : result Header :=
  parentHash ← get_prop rawBlock "parentHash";
  sha3Uncles ← get_prop rawBlock "sha3Uncles";
  miner ← get_prop rawBlock "miner";
  stateRoot ← get_prop rawBlock "stateRoot";
  transactionsRoot ← get_prop rawBlock "transactionsRoot";
  receiptsRoot ← get_prop rawBlock "receiptsRoot";
  logsBloom ← get_prop rawBlock "logsBloom";
  difficulty ← get_prop rawBlock "difficulty" ≫= BigInt;
  number ← get_prop rawBlock "number" ≫= BigInt;
  gasLimit ← get_prop rawBlock "gasLimit" ≫= BigInt;
  gasUsed ← get_prop rawBlock "gasUsed" ≫= BigInt;
  timestamp ← get_prop rawBlock "timestamp" ≫= Number;
  extraData ← get_prop rawBlock "extraData";
  mixHash ← get_prop rawBlock "mixHash";
  nonce ← get_prop rawBlock "nonce" ≫= BigInt;
  baseFeePerGas ← get_prop rawBlock "baseFeePerGas" ≫= BigInt;
  Ok [ ("Parent", HRaw parentHash);
       ("UnclesDigest", HRaw sha3Uncles);
       ("Beneficiary", HRaw miner);
       ("StateRoot", HRaw stateRoot);
       ("TxRoot", HRaw transactionsRoot);
       ("RctRoot", HRaw receiptsRoot);
       ("Bloom", HRaw logsBloom);
       ("Difficulty", HBigInt difficulty);
       ("Number", HBigInt number);
       ("GasLimit", HBigInt gasLimit);
       ("GasUsed", HBigInt gasUsed);
       ("Time", HNumber timestamp);
       ("Extra", HRaw extraData);
       ("MixDigest", HRaw mixHash);
       ("Nonce", HBigInt nonce);
       ("BaseFee", HBigInt baseFeePerGas) ].

Definition getFullBlocks (blockNumber : option Z) (blockHash : option string)
  : M (list FullBlockNode) :=
  param ← lift (block_param blockNumber blockHash);
  rawBlock ← request (ReqSend (block_method blockHash) param)
                     (provider_send provider (block_method blockHash) param);
  (* Create block header *)
  header ← lift (block_header rawBlock);
  let rlpData := encodeHeader header in
  lift (blockNumber ← get_prop rawBlock "number" ≫= formatter_number provider;
        blockHash ← get_prop rawBlock "hash" ≫= formatter_hash provider;
        parentHash ← get_prop rawBlock "parentHash" ≫= formatter_hash provider;
        timestamp ← get_prop rawBlock "timestamp" ≫= formatter_number provider;
        stateRoot ← get_prop rawBlock "stateRoot" ≫= formatter_hash provider;
        td ← get_prop rawBlock "totalDifficulty" ≫= formatter_bigNumber provider;
        txRoot ← get_prop rawBlock "transactionsRoot" ≫= formatter_hash provider;
        receiptRoot ← get_prop rawBlock "receiptsRoot" ≫= formatter_hash provider;
        uncleRoot ← get_prop rawBlock "sha3Uncles" ≫= formatter_hash provider;
        bloom ← get_prop rawBlock "logsBloom" ≫= formatter_hex provider;
        Ok [ {| f_blockNumber := pretty blockNumber;
                f_blockHash := blockHash;
                f_parentHash := parentHash;
                f_timestamp := pretty timestamp;
                f_stateRoot := stateRoot;
                f_td := pretty td;
                f_txRoot := txRoot;
                f_receiptRoot := receiptRoot;
                f_uncleRoot := uncleRoot;
                f_bloom := escapeHexString bloom;
                f_blockByMhKey_data := escapeHexString rlpData |} ]).

(** The [fetch] callback of [getLogs]. *)
Definition fetchLogs (blockNumber : string) (addresses : list string) : M Cached :=
  n ← lift (Number (VStr blockNumber));
  let filter_for address :=
    {| fromBlock := n; toBlock := n; filter_address := Some address |} in
  logsByAddress ← request_all (λ address, ReqGetLogs (filter_for address))
                     (λ address, provider_getLogs provider (filter_for address))
                     addresses;
  let logs := concat logsByAddress in
  (* If no addresses provided to filter *)
  logs ← (if bool_decide (length logs = 0%nat) then
            let filter := {| fromBlock := n; toBlock := n; filter_address := None |} in
            request (ReqGetLogs filter) (provider_getLogs provider filter)
          else mret logs);
  mret (CachedLogs
          ((λ log, {| blockNumber := EthClient.blockNumber log;
                      address := toLowerCase (address log);
                      transactionHash := transactionHash log;
                      topics := topics log;
                      data := data log;
                      logIndex := logIndex log |}) <$> logs)).

Definition getLogs (blockHash blockNumber : string) (addresses : option (list string))
  : M (list LogEntry) :=
  let vars := {| v_blockHash := Some blockHash; v_blockNumber := Some blockNumber;
                 v_contract := None; v_slot := None; v_addresses := addresses |} in
  let addresses := default [] addresses in
  result ← _getCachedOrFetch "getLogs" vars (fetchLogs blockNumber addresses);
  match result with
  | CachedString _ => throw TypeError
  | CachedLogs result =>
      let txHashesSet := set_from (transactionHash <$> result) in
      txReceipts ← request_all ReqGetTransactionReceipt
                     (provider_getTransactionReceipt provider) txHashesSet;
      txReceiptMap ← lift (foldl (λ acc txReceipt,
                                    m ← acc;
                                    match txReceipt with
                                    | Some r => Ok (<[receipt_transactionHash r := r]> m)
                                    | None => Throw TypeError
                                    end)
                                 (Ok (∅ : gmap string TransactionReceipt)) txReceipts);
      mret ((λ log, {| account_address := address log;
                       transaction_hash := transactionHash log;
                       e_topics := topics log;
                       e_data := data log;
                       index := logIndex log;
                       e_status := txReceiptMap !! transactionHash log ≫= status |})
              <$> result)
  end.

End Methods.

End EthClient.

(** ** Filling state for a range of blocks: [fillState] *)

Module FillState.

(** A row of the state table (an IPLD block), as far as it matters here. *)
Record StateRecord := {
  blockNumber : Z;
  blockHash : string;
  contractAddress : string;
  kind : string;
  cid : string
}.

(** A row of the block progress table. *)
Record BlockProgress := {
  bp_blockHash : string;
  bp_blockNumber : Z
}.

(** An entry of [dataSources]: [source.address] and [mapping.entities]. *)
Record DataSource := {
  source_address : string;
  mapping_entities : list string
}.

(** How an asynchronous computation of the command ends: normally, by
    [process.exit(code)], or by a rejection. *)
Inductive completion (A : Type) : Type :=
| Normal (a : A)
| Exit (code : Z)
| Reject (e : exn).
Arguments Normal {A} a.
Arguments Exit {A} code.
Arguments Reject {A} e.

Section FillState.

(** Everything the indexer and the graph database hold: the tables of the
    database, the in-memory subgraph state, what was pushed to IPFS. *)
Variable Store : Type.
Variables Entity DiffData IPLDData : Type.

Definition P (A : Type) : Type := Store → completion A * Store.

#[export] Instance P_ret : MRet P := λ A a σ, (Normal a, σ).
#[export] Instance P_bind : MBind P := λ A B f m σ,
  match m σ with
  | (Normal a, σ') => f a σ'
  | (Exit code, σ') => (Exit code, σ')
  | (Reject e, σ') => (Reject e, σ')
  end.

(** [process.exit(code)] *)
Definition process_exit {A} (code : Z) : P A := λ σ, (Exit code, σ).

(** A query: the store is read, not written. *)
Definition query {A} (q : Store → result A) : P A :=
  λ σ, (match q σ with Ok a => Normal a | Throw e => Reject e end, σ).

(** A command on the store. *)
Definition command (c : Store → result unit * Store) : P unit :=
  λ σ, let '(r, σ') := c σ in
       (match r with Ok a => Normal a | Throw e => Reject e end, σ').

(** The [Indexer] class of the watcher and the graph database are not among
    the sources; these are their members that [fillState] uses. *)
Record Indexer := {
  (** the rows of the state table *)
  stateTable : Store → list StateRecord;
  getBlocksAtHeight : Z → bool → Store → result (list BlockProgress);
  createInit : string → Z → Store → result unit * Store;
  getEntitiesForBlock : string → string → Store → result (list Entity);
  prepareEntityState : Entity → string → DiffData;
  updateSubgraphState : string → DiffData → Store → Store;
  dumpSubgraphState : string → bool → Store → result unit * Store;
  updateIPLDStatusHooksBlock : Z → Store → result unit * Store;
  processCheckpoint : string → Store → result unit * Store;
  updateIPLDStatusCheckpointBlock : Z → Store → result unit * Store;
  isIPFSConfigured : bool;
  getIPLDBlocksByHash : string → Store → result (list StateRecord);
  getIPLDData : StateRecord → IPLDData;
  pushToIPFS : IPLDData → Store → result unit * Store;
  updateIPLDStatusIPFSBlock : Z → Store → result unit * Store
}.

Variable indexer : Indexer.

(** Modelled from the spec: [indexer.getIPLDBlocks] is not among the
    sources.  With [{ block: { blockNumber: Between(startBlock, endBlock) } }]
    it is the query of the state records in an inclusive block range. *)
Definition getIPLDBlocks_Between (startBlock endBlock : Z) : P (list StateRecord) :=
  query (λ σ, Ok (filter (λ r, startBlock ≤ blockNumber r ≤ endBlock)
                         (stateTable indexer σ))).

(** [map.set(key, v)] on a [Map] kept in insertion order. *)
Fixpoint Map_set (key : string) (v : list string) (m : list (string * list string))
  : list (string * list string) :=
  match m with
  | [] => [(key, v)]
  | (k, w) :: rest =>
      if (k =? key)%string then (k, v) :: rest else (k, w) :: Map_set key v rest
  end.

(** [for (const x of xs) { await body(x) }] *)
Fixpoint for_each {A} (body : A → P unit) (xs : list A) : P unit :=
  match xs with
  | [] => mret tt
  | x :: xs' => _ ← body x; for_each body xs'
  end.

(** The callbacks of [contractStatePromises] run up to their first
    [await] one after the other, so the queries for the updated entities
    of every contract are issued before any of their results is used. *)
Definition queryContract (blockHash : string) (entry : string * list string)
  : P (string * list (list Entity * string)) :=
  let '(contractAddress, entities) := entry in
  (* Get all the updated entities at this block *)
  updatedEntitiesList ←
    mapM (λ entity, query (getEntitiesForBlock indexer blockHash entity)) entities;
  mret (contractAddress, zip updatedEntitiesList entities).

(** The rest of a callback of [contractStatePromises]; the callbacks are
    taken to resume in the order of the map. *)
Definition fillContract (queried : string * list (list Entity * string)) : P unit :=
  let '(contractAddress, updatedEntitiesList) := queried in
  (* Populate state with all the updated entities of each entity type *)
  for_each (λ p : list Entity * string,
              let '(updatedEntities, entityName) := p in
              for_each (λ updatedEntity,
                          (* Prepare diff data for the entity update *)
                          let diffData := prepareEntityState indexer updatedEntity entityName in
                          (* Update the in-memory subgraph state *)
                          command (λ σ, (Ok tt, updateSubgraphState indexer contractAddress diffData σ)))
                       updatedEntities)
           updatedEntitiesList.

(** The body of the loop over the block range. *)
Definition fillBlock (contractEntitiesMap : list (string * list string))
    (blockNumber : Z) : P unit :=
  (* Get the canonical block hash at current height *)
  blocks ← query (getBlocksAtHeight indexer blockNumber false);
  match blocks with
  | [] => process_exit 1
  | _ :: _ :: _ => process_exit 1
  | [block] =>
      let blockHash := bp_blockHash block in
      (* Create initial state for contracts *)
      _ ← command (createInit indexer blockHash blockNumber);
      (* Fill state for each contract in contractEntitiesMap *)
      queried ← mapM (queryContract blockHash) contractEntitiesMap;
      _ ← for_each fillContract queried;
      (* Persist subgraph state to the DB *)
      _ ← command (dumpSubgraphState indexer blockHash true);
      _ ← command (updateIPLDStatusHooksBlock indexer blockNumber);
      (* Create checkpoints *)
      _ ← command (processCheckpoint indexer blockHash);
      _ ← command (updateIPLDStatusCheckpointBlock indexer blockNumber);
      if isIPFSConfigured indexer then
        ipldBlocks ← query (getIPLDBlocksByHash indexer blockHash);
        _ ← for_each (λ ipldBlock,
                        command (pushToIPFS indexer (getIPLDData indexer ipldBlock)))
                     ipldBlocks;
        command (updateIPLDStatusIPFSBlock indexer blockNumber)
      else mret tt
  end.

Definition fillState (dataSources : list DataSource) (startBlock endBlock : Z) : P unit :=
  if bool_decide (startBlock > endBlock) then process_exit 1
  else
    (* Check that there are no existing diffs in this range *)
    existingStates ← getIPLDBlocks_Between startBlock endBlock;
    if bool_decide (0 < length existingStates)%nat then process_exit 1
    else
      (* Populate contractEntitiesMap using data sources from subgraph *)
      let contractEntitiesMap :=
        foldl (λ m dataSource,
                 Map_set (source_address dataSource) (mapping_entities dataSource) m)
              [] dataSources in
      (* Fill state for blocks in the given range *)
      for_each (fillBlock contractEntitiesMap)
               (seqZ startBlock (endBlock - startBlock + 1)).

End FillState.

Arguments stateTable {Store Entity DiffData IPLDData} _ _.
Arguments fillState {Store Entity DiffData IPLDData} indexer dataSources startBlock endBlock _.

End FillState.

(** ** Code generation: the query registries of [Database] and [Client] *)

Module Codegen.

(** [Param] of the codegen types. *)
Record Param := {
  param_name : string;
  type : string
}.

(** The entity and query names derived from the name of a query.
    eth_call mode: capitalize the first letter; storage mode (a leading
    underscore): capitalize the second letter. *)
Definition capitalizedName (name : string) : string :=
  if (charAt 0 name =? "_")%string
  then toUpperCase (charAt 1 name) +:+ slice 2 name
  else toUpperCase (charAt 0 name) +:+ slice 1 name.

Definition prefixed (name : string) (prefix : string) : string :=
  if (charAt 0 name =? "_")%string
  then "_" +:+ prefix +:+ capitalizedName name
  else prefix +:+ capitalizedName name.

Section Codegen.

(** [VariableDeclaration] of the solidity parser. *)
Variable VariableDeclaration : Type.
(** The type mappings of the codegen utilities; [None] is [undefined]. *)
Variable getGqlForSol : string → option string.
Variable getTsForGql : string → option string.

(** The callback of [queryObject.params.map]: the clone of a parameter
    with its type mapped to TypeScript. *)
Definition mapParam (param : Param) : result Param :=
  match getGqlForSol (type param) with
  | Some gqlParamType =>
      _ ← assert (negb (gqlParamType =? "")%string);
      match getTsForGql gqlParamType with
      | Some tsParamType =>
          _ ← assert (negb (tsParamType =? "")%string);
          Ok {| param_name := param_name param; type := tsParamType |}
      | None => Throw AssertionError
      end
  | None => Throw AssertionError
  end.

Record DatabaseQuery := {
  name : string;
  entityName : string;
  getQueryName : string;
  saveQueryName : string;
  params : list Param;
  returnParameters : list VariableDeclaration
}.

Record Database := {
  _queries : list DatabaseQuery;
  _subgraphEntities : list string;
  _templateString : string
}.

(** [Database.addQuery]: the database after the call. *)
Definition Database_addQuery (name_ : string) (params_ : list Param)
    (returnParameters_ : list VariableDeclaration) (this : Database) : result Database :=
  (* Check if the query is already added. *)
  if existsb (λ query, (name query =? name_)%string) (_queries this) then Ok this
  else
    params' ← mapM mapParam params_;
    let queryObject :=
      {| name := name_;
         entityName := prefixed name_ "";
         getQueryName := prefixed name_ "get";
         saveQueryName := prefixed name_ "save";
         params := params';
         returnParameters := returnParameters_ |} in
    Ok {| _queries := _queries this ++ [queryObject];
          _subgraphEntities := _subgraphEntities this;
          _templateString := _templateString this |}.

Record ClientQuery := {
  c_name : string;
  c_getQueryName : string;
  c_params : list Param
}.

Record Client := {
  c_queries : list ClientQuery;
  c_templateString : string
}.

(** [Client.addQuery]: the client after the call. *)
Definition Client_addQuery (name_ : string) (params_ : list Param) (this : Client)
  : result Client :=
  (* Check if the query is already added. *)
  if existsb (λ query, (c_name query =? name_)%string) (c_queries this) then Ok this
  else
    params' ← mapM mapParam params_;
    let queryObject :=
      {| c_name := name_;
         c_getQueryName := prefixed name_ "get";
         c_params := params' |} in
    Ok {| c_queries := c_queries this ++ [queryObject];
          c_templateString := c_templateString this |}.

End Codegen.

Arguments name {VariableDeclaration} _.
Arguments _queries {VariableDeclaration} _.
Arguments Database_addQuery {VariableDeclaration} getGqlForSol getTsForGql
  name_ params_ returnParameters_ this.

End Codegen.

(** ** The properties of the design document, in its words *)

Module Spec.

Import CompareUtils.

(** "The CID of the immediately previous record": of the tracked diff and
    the tracked checkpoint, the newer one.  A checkpoint is tracked only
    while no diff has followed it, so a tracked checkpoint is the newer. *)
Definition previous_record_cid (tracked : ParentCIDs) : string :=
  if (checkpoint tracked =? "")%string then diff tracked else checkpoint tracked.

(** "The later record's [data.meta.parent] equals the CID of the
    immediately previous record." *)
Definition parenting_rule_holds (tracked : ParentCIDs) (r : StateIPLD) : Prop :=
  (meta ← get_prop (data r) "meta"; parent ← get_prop meta "parent"; get_prop parent "/")
  = Ok (VStr (previous_record_cid tracked)).

(** "The verifier reports a difference." *)
Definition reports_difference (r : StateIPLD) (m : gmap string ParentCIDs)
    (rawJson : bool) : Prop :=
  (checkIPLDMetaData (Some r) m rawJson).1 = Ok (Compared true).

(** The parent CID that a record claims: [data.meta.parent['/']]. *)
Definition claimed_parent (r : StateIPLD) : result value :=
  meta ← get_prop (data r) "meta";
  parent ← get_prop meta "parent";
  get_prop parent "/".

(** The map of tracked CIDs after the verifier has checked the records
    of a list one after the other. *)
Definition tracked_after (rawJson : bool) (m0 : gmap string ParentCIDs)
    (records : list StateIPLD) : gmap string ParentCIDs :=
  foldl (λ m r, (checkIPLDMetaData (Some r) m rawJson).2) m0 records.

(** The CID of the newest record that is not a checkpoint, among the
    records of a contract checked so far; before the first, the diff CID
    the contract was tracked with at the start. *)
Definition newest_diff (start : ParentCIDs) (previous : list StateIPLD) : string :=
  default (diff start) (cid <$> last (filter (λ r, kind r ≠ "checkpoint") previous)).

(** The checkpoint CID tracked after the records checked so far: the CID
    of the last record when it is a checkpoint, none after a record of
    another kind. *)
Definition newest_checkpoint (start : ParentCIDs) (previous : list StateIPLD)
  : string :=
  match last previous with
  | Some r => if decide (kind r = "checkpoint") then cid r else ""
  | None => checkpoint start
  end.

(** The verifier returned without a comparison. *)
Definition is_skipped (v : result verdict) : bool :=
  match v with
  | Ok Skipped => true
  | _ => false
  end.

(** One more call of the verifier in a run: the map it leaves, and the
    records that were not skipped so far. *)
Definition check_next (rawJson : bool)
    (st : gmap string ParentCIDs * list StateIPLD) (r : StateIPLD)
  : gmap string ParentCIDs * list StateIPLD :=
  let result := checkIPLDMetaData (Some r) st.1 rawJson in
  (result.2, if is_skipped result.1 then st.2 else st.2 ++ [r]).

(** The records of a run that the verifier does not skip, in the order of
    the run. *)
Definition checked (rawJson : bool) (m0 : gmap string ParentCIDs)
    (records : list StateIPLD) : list StateIPLD :=
  (foldl (check_next rawJson) (m0, []) records).2.

(** The parent CIDs of the record that follows [r1]: the CID of [r1], the
    immediately previous record; and when [r1] is a checkpoint, also the
    CID of the newest diff before it. *)
Definition accepted_parents (start : ParentCIDs) (earlier : list StateIPLD)
    (r1 : StateIPLD) : list string :=
  if decide (kind r1 = "checkpoint") then [cid r1; newest_diff start earlier]
  else [cid r1].

(** The meta data of a record are the expected ones, with the given
    parent. *)
Definition has_expected_meta (r : StateIPLD) (parent : value) : Prop :=
  ∃ meta, get_prop (data r) "meta" = Ok meta
          ∧ deep_equal (metaData (contractAddress r) (kind r) parent
                                 (b_cid (block r)) (b_number (block r)))
                       meta = true.

(** *** Canonical state payloads *)

(** An element "carries an id": it is an object whose [id] is a non-empty
    string. *)
Definition carries_id (v : value) : Prop :=
  ∃ s, entity_id v = Some s ∧ s ≠ "".

(** "An array-valued entity-relation field: a non-empty array whose
    elements carry an id." *)
Definition entity_array (elems : list value) : Prop :=
  elems ≠ [] ∧ Forall carries_id elems.

Definition values_of (v : value) : list value :=
  match Object_values v with Ok l => l | Throw _ => [] end.

(** The values [depth] levels below a value. *)
Fixpoint fields (depth : nat) (v : value) : list value :=
  match depth with
  | O => [v]
  | S d => x ← values_of v; fields d x
  end.

(** The fields of the entities of a state: state, entities by id, entity,
    field. *)
Definition relation_fields (state : value) : list value := fields 3 state.

(** The key of an element that carries an id. *)
Definition key_of (v : value) : string * value := (default "" (entity_id v), v).

Section Canonical.

Variable DEFAULT_LIMIT : nat.
Variable localeCompare : string → string → comparison.

(** [a] does not come after [b]. *)
Definition id_le (a b : string) : Prop := localeCompare a b ≠ Gt.

Definition elem_le (a b : value) : Prop :=
  ∃ s t, entity_id a = Some s ∧ entity_id b = Some t ∧ id_le s t.

(** "Sorted ascending by id." *)
Definition sorted_by_id (elems : list value) : Prop := StronglySorted elem_le elems.

(** "Sorted ascending by id and truncated to at most [DEFAULT_LIMIT]
    elements", for every entity-relation field of a state. *)
Definition canonical_state (state : value) : Prop :=
  ∀ elems, VArr elems ∈ relation_fields state → entity_array elems →
           sorted_by_id elems ∧ (length elems ≤ DEFAULT_LIMIT)%nat.

(** A field is canonical: if it is an entity-relation array, it is sorted
    and within the limit. *)
Definition canonical_field (f : value) : Prop :=
  ∀ elems, f = VArr elems → entity_array elems →
           sorted_by_id elems ∧ (length elems ≤ DEFAULT_LIMIT)%nat.

(** The order of the keyed elements that the sort works on. *)
Definition keyed_le (x y : string * value) : Prop := id_le x.1 y.1.

(** A step into a value: to a member of an object, or to an element of
    an array. *)
Inductive step :=
| Key (key : string)
| Index (i : nat).

Definition child (k : step) (v : value) : option value :=
  match k, v with
  | Key key, VObj props => assoc key props
  | Index i, VArr elems => elems !! i
  | _, _ => None
  end.

(** The value at the end of a path.  The fields of the entities of a
    state are at the paths of length 3. *)
Fixpoint at_path (path : list step) (v : value) : option value :=
  match path with
  | [] => Some v
  | k :: path' => child k v ≫= at_path path'
  end.

(** A payload whose state holds an array at a path. *)
Definition holds_array_at (path : list step) (contractIPLD : option StateIPLD) : Prop :=
  ∃ ipld state elems,
    contractIPLD = Some ipld
    ∧ get_prop (data ipld) "state" = Ok state
    ∧ at_path path state = Some (VArr elems).

(** No two payloads of a list hold an array under the same field. *)
Definition array_fields_apart (contractIPLDs : list (option StateIPLD)) : Prop :=
  ForallOrdPairs
    (λ p q, ∀ path, length path = 3%nat →
                    holds_array_at path p → holds_array_at path q → False)
    contractIPLDs.

(** The payload of a record is a value that [JSON.parse] returned. *)
Definition parsed_payload (contractIPLD : option StateIPLD) : Prop :=
  ∀ ipld, contractIPLD = Some ipld → is_json (data ipld).

(** C4 as stated: "every entity-relation field in the combined output is
    sorted ascending by id and truncated to at most [DEFAULT_LIMIT]
    elements". *)
Definition combined_output_canonical : Prop :=
  ∀ contractIPLDs out,
    combineIPLDState DEFAULT_LIMIT localeCompare contractIPLDs = Ok out →
    canonical_state out.

(** No two different elements of an array have ids that compare as equal. *)
Definition ids_distinguish (elems : list value) : Prop :=
  ∀ x y s t, x ∈ elems → y ∈ elems →
             entity_id x = Some s → entity_id y = Some t →
             id_le s t → id_le t s → x = y.

(** Two fields are equal up to the order of the elements of an
    entity-relation array that satisfies [ok]. *)
Inductive reordered_field (ok : list value → Prop) : value → value → Prop :=
| reordered_same v : reordered_field ok v v
| reordered_perm l1 l2 :
    entity_array l1 → ok l1 → l1 ≡ₚ l2 → reordered_field ok (VArr l1) (VArr l2).

(** Two values agree down to [depth] levels, where they are equal up to
    reordering. *)
Fixpoint reordered_at (ok : list value → Prop) (depth : nat) (v1 v2 : value) : Prop :=
  match depth with
  | O => reordered_field ok v1 v2
  | S d =>
      match v1, v2 with
      | VObj p1, VObj p2 =>
          Forall2 (λ kv1 kv2, kv1.1 = kv2.1 ∧ reordered_at ok d kv1.2 kv2.2) p1 p2
      | VArr l1, VArr l2 => Forall2 (reordered_at ok d) l1 l2
      | _, _ => v1 = v2
      end
  end.

(** Two payloads whose states are equal up to the order of the elements of
    their entity-relation fields. *)
Inductive reordered_payload (ok : list value → Prop)
  : option StateIPLD → option StateIPLD → Prop :=
| reordered_absent : reordered_payload ok None None
| reordered_present i1 i2 s1 s2 :
    get_prop (data i1) "state" = Ok s1 →
    get_prop (data i2) "state" = Ok s2 →
    reordered_at ok 3 s1 s2 →
    reordered_payload ok (Some i1) (Some i2).

(** C5 as stated: "for any two inputs equal up to reordering of such
    arrays, the outputs are identical". *)
Definition combined_output_order_invariant : Prop :=
  ∀ inputs1 inputs2,
    Forall2 (reordered_payload (λ _, True)) inputs1 inputs2 →
    combineIPLDState DEFAULT_LIMIT localeCompare inputs1
    = combineIPLDState DEFAULT_LIMIT localeCompare inputs2.

End Canonical.

(** *** The chain client adapter *)

Import EthClient.

(** How a member of the header is taken from the raw block. *)
Inductive conversion :=
| AsIs
| ToBigInt
| ToNumber.

(** "Parent, uncles digest, beneficiary, state/tx/receipt roots, bloom,
    difficulty, number, gasLimit, gasUsed, time, extra, mixDigest, nonce,
    baseFee": the members of the header in order, each with the member of
    the raw upstream block it is taken from. *)
Definition header_fields : list (string * string * conversion) :=
  [ ("Parent", "parentHash", AsIs);
    ("UnclesDigest", "sha3Uncles", AsIs);
    ("Beneficiary", "miner", AsIs);
    ("StateRoot", "stateRoot", AsIs);
    ("TxRoot", "transactionsRoot", AsIs);
    ("RctRoot", "receiptsRoot", AsIs);
    ("Bloom", "logsBloom", AsIs);
    ("Difficulty", "difficulty", ToBigInt);
    ("Number", "number", ToBigInt);
    ("GasLimit", "gasLimit", ToBigInt);
    ("GasUsed", "gasUsed", ToBigInt);
    ("Time", "timestamp", ToNumber);
    ("Extra", "extraData", AsIs);
    ("MixDigest", "mixHash", AsIs);
    ("Nonce", "nonce", ToBigInt);
    ("BaseFee", "baseFeePerGas", ToBigInt) ].

Definition convert (c : conversion) (v : value) : result HeaderValue :=
  match c with
  | AsIs => Ok (HRaw v)
  | ToBigInt => HBigInt <$> BigInt v
  | ToNumber => HNumber <$> Number v
  end.

(** The member of the header described by an entry of [header_fields]. *)
Definition header_member (rawBlock : value) (field : string * string * conversion)
  : result (string * HeaderValue) :=
  v ← get_prop rawBlock field.1.2;
  hv ← convert field.2 v;
  Ok (field.1.1, hv).

(** The key under which a call of [getBlocks] or [getFullBlocks] would be
    cached: its arguments. *)
Definition block_vars (blockNumber : option Z) (blockHash : option string) : Vars :=
  {| v_blockHash := blockHash; v_blockNumber := pretty <$> blockNumber;
     v_contract := None; v_slot := None; v_addresses := None |}.

(** The key of a call of [getStorageAt]. *)
Definition storage_vars (padKey : string → string) (blockHash contract slot : string)
  : Vars :=
  {| v_blockHash := Some blockHash; v_blockNumber := None;
     v_contract := Some contract; v_slot := Some ("0x" +:+ padKey slot);
     v_addresses := None |}.

(** The key of a call of [getLogs]. *)
Definition logs_vars (blockHash blockNumber : string) (addresses : option (list string))
  : Vars :=
  {| v_blockHash := Some blockHash; v_blockNumber := Some blockNumber;
     v_contract := None; v_slot := None; v_addresses := addresses |}.

(** "On a cache hit the cached value is returned and the upstream provider
    is not contacted": no request is sent when the cache holds an entry
    for the key of the call. *)
Definition served_from_cache {A} (queryName : string) (vars : Vars) (read : M A) : Prop :=
  ∀ st cache v,
    _cache st = Some cache → cache !! (queryName, vars) = Some v →
    sent (read st).2 = sent st.

(** The future epoch server error of the upstream client. *)
Definition FUTURE_EPOCH : exn :=
  EthersError SERVER_ERROR (Some "requested a future epoch (beyond 'latest')").

(** C7 as stated, for the four reads. *)
Definition reads_flow_through_cache (provider : Provider) (padKey : string → string)
    (encodeHeader : Header → string) (escapeHexString : string → string) : Prop :=
  (∀ blockNumber blockHash,
     served_from_cache "getBlocks" (block_vars blockNumber blockHash)
       (getBlocks provider blockNumber blockHash))
  ∧ (∀ blockNumber blockHash,
       served_from_cache "getFullBlocks" (block_vars blockNumber blockHash)
         (getFullBlocks provider encodeHeader escapeHexString blockNumber blockHash))
  ∧ (∀ blockHash contract slot,
       served_from_cache "getStorageAt" (storage_vars padKey blockHash contract slot)
         (getStorageAt provider padKey blockHash contract slot))
  ∧ (∀ blockHash blockNumber addresses,
       served_from_cache "getLogs" (logs_vars blockHash blockNumber addresses)
         (getLogs provider blockHash blockNumber addresses)).

End Spec.

(** ** Concrete records, payloads and providers *)

Module Examples.

Import CompareUtils.

(** A diff at block 7 of contract [0xc0], child of the diff [cidA]. *)
Definition record_B (claimedParent : string) (claimedNum : Z) : StateIPLD :=
  {| block := {| b_cid := "blockcid7"; b_number := 7; b_hash := "0xb7" |};
     contractAddress := "0xc0";
     cid := "cidB";
     kind := "diff";
     data := VObj [ ("meta", metaData "0xc0" "diff" (VStr claimedParent) "blockcid7" claimedNum);
                    ("state", VObj []) ] |}.

Definition tracking (d c : string) : gmap string ParentCIDs :=
  {[ "0xc0" := {| diff := d; checkpoint := c |} ]}.

(** The order of strings by code units, with which [localeCompare] agrees
    on the ids used below. *)
Definition codeUnitCompare : string → string → comparison := String.compare.

(** A reference to the entity [i], with a position [n]. *)
Definition entity_ref (i : string) (n : Z) : value :=
  VObj [("id", VStr i); ("n", VNum n)].

(** The state of one author and its relation field [blogs]. *)
Definition author_state (blogs : list value) : value :=
  VObj [("Author", VObj [("0x01", VObj [("id", VStr "0x01"); ("blogs", VArr blogs)])])].

Definition author_payload (kind_ : string) (blogs : list value) : option StateIPLD :=
  Some {| block := {| b_cid := "blockcid7"; b_number := 7; b_hash := "0xb7" |};
          contractAddress := "0xc0";
          cid := "cid" +:+ kind_;
          kind := kind_;
          data := VObj [ ("meta", VNull); ("state", author_state blogs) ] |}.

(** *** An upstream chain *)

Import EthClient.

(** Whether a log passes a filter: its block is in the range, and its
    address is the one asked for, if any (addresses are compared without
    regard to case). *)
Definition passes (filter : Filter) (log : Log) : bool :=
  match fromBlock filter, toBlock filter with
  | Some from, Some to => bool_decide (from ≤ EthClient.blockNumber log ≤ to)
  | _, _ => false
  end
  && match filter_address filter with
     | Some a => (toLowerCase (address log) =? toLowerCase a)%string
     | None => true
     end.

Definition INVALID_ARGUMENT : exn := EthersError "INVALID_ARGUMENT" None.

Definition format_hex (v : value) : result string :=
  match v with
  | VStr s => Ok (toLowerCase s)
  | _ => Throw INVALID_ARGUMENT
  end.

Definition format_number (v : value) : result Z :=
  match v with
  | VNum n => Ok n
  | VStr s => match parse_numeric s with Some n => Ok n | None => Throw INVALID_ARGUMENT end
  | _ => Throw INVALID_ARGUMENT
  end.

(** A provider in front of a chain with the given logs, which answers
    every request for a block with [block]. *)
Definition chain_provider (block : result value) (logs : list Log) : Provider :=
  {| provider_send := λ _ _, block;
     provider_getStorageAt := λ _ _ _, Ok "0x2a";
     provider_getLogs := λ filter, Ok (List.filter (passes filter) logs);
     provider_getTransactionReceipt := λ txHash,
       Ok (Some {| receipt_transactionHash := txHash; status := Some 1 |});
     formatter_block := λ raw,
       number ← get_prop raw "number" ≫= format_number;
       hash ← get_prop raw "hash" ≫= format_hex;
       parentHash ← get_prop raw "parentHash" ≫= format_hex;
       timestamp ← get_prop raw "timestamp" ≫= format_number;
       Ok {| fb_number := number; fb_hash := hash;
             fb_parentHash := parentHash; fb_timestamp := timestamp |};
     formatter_hash := format_hex;
     formatter_hex := format_hex;
     formatter_number := format_number;
     formatter_bigNumber := format_number |}.

(** Block 7 as the upstream client returns it. *)
Definition raw_block_7 : value :=
  VObj [ ("number", VStr "0x7"); ("hash", VStr "0xb7"); ("parentHash", VStr "0xb6");
         ("sha3Uncles", VStr "0x1d"); ("miner", VStr "0xC0"); ("stateRoot", VStr "0x51");
         ("transactionsRoot", VStr "0x52"); ("receiptsRoot", VStr "0x53");
         ("logsBloom", VStr "0x00"); ("difficulty", VStr "0x2");
         ("totalDifficulty", VStr "0xe"); ("gasLimit", VStr "0x1c9c380");
         ("gasUsed", VStr "0x5208"); ("timestamp", VStr "0x64");
         ("extraData", VStr "0x"); ("mixHash", VStr "0x77"); ("nonce", VStr "0x0");
         ("baseFeePerGas", VStr "0x7") ].

(** The only log of block 7, emitted by the contract [0xBB]. *)
Definition log_7 : Log :=
  {| EthClient.blockNumber := 7; address := "0xBB"; transactionHash := "0x7a";
     topics := ["0xddf2"]; EthClient.data := "0x01"; logIndex := 0 |}.

(** Stand-ins for the helpers of the util and ipld-eth-client packages. *)
Definition padKey_64 (slot : string) : string :=
  String.concat "" (replicate (64 - String.length slot) "0") +:+ slot.
Definition encodeHeader_names (header : Header) : string :=
  "0x" +:+ String.concat "" (header.*1).
Definition escapeHexString_x (hex : string) : string := "\x" +:+ slice 2 hex.

(** A client with an empty cache that has sent nothing yet, a client
    without a cache, and a client whose cache holds [entry] under [key]. *)
Definition fresh_client : State := {| _cache := Some ∅; sent := [] |}.
Definition uncached_client : State := {| _cache := None; sent := [] |}.
Definition client_with (key : Key) (entry : Cached) : State :=
  {| _cache := Some {[ key := entry ]}; sent := [] |}.

(** *** A watcher with one contract *)

(** An indexer over a store that is the state table alone.  There is one
    canonical block at every height; [createInit] writes the initial state
    of the contract [0xc0] when the table has no record; no entity ever
    changes and no checkpoint is due. *)
Definition table_indexer : FillState.Indexer (list FillState.StateRecord) unit unit unit :=
  {| FillState.stateTable := λ σ, σ;
     FillState.getBlocksAtHeight := λ height _ _,
       Ok [ {| FillState.bp_blockHash := "0xb" +:+ pretty height;
               FillState.bp_blockNumber := height |} ];
     FillState.createInit := λ blockHash blockNumber σ,
       (Ok tt,
        match σ with
        | [] => [ {| FillState.blockNumber := blockNumber;
                     FillState.blockHash := blockHash;
                     FillState.contractAddress := "0xc0";
                     FillState.kind := "init";
                     FillState.cid := "cidinit" |} ]
        | _ => σ
        end);
     FillState.getEntitiesForBlock := λ _ _ _, Ok [];
     FillState.prepareEntityState := λ _ _, tt;
     FillState.updateSubgraphState := λ _ _ σ, σ;
     FillState.dumpSubgraphState := λ _ _ σ, (Ok tt, σ);
     FillState.updateIPLDStatusHooksBlock := λ _ σ, (Ok tt, σ);
     FillState.processCheckpoint := λ _ σ, (Ok tt, σ);
     FillState.updateIPLDStatusCheckpointBlock := λ _ σ, (Ok tt, σ);
     FillState.isIPFSConfigured := false;
     FillState.getIPLDBlocksByHash := λ _ _, Ok [];
     FillState.getIPLDData := λ _, tt;
     FillState.pushToIPFS := λ _ σ, (Ok tt, σ);
     FillState.updateIPLDStatusIPFSBlock := λ _ σ, (Ok tt, σ) |}.

(** A diff of the contract [0xc0] at a block. *)
Definition diff_at (blockNumber : Z) : FillState.StateRecord :=
  {| FillState.blockNumber := blockNumber;
     FillState.blockHash := "0xb" +:+ pretty blockNumber;
     FillState.contractAddress := "0xc0";
     FillState.kind := "diff";
     FillState.cid := "ciddiff" +:+ pretty blockNumber |}.

Definition eden_dataSources : list FillState.DataSource :=
  [ {| FillState.source_address := "0xc0";
       FillState.mapping_entities := ["Slot"; "Staker"] |} ].

(** *** Type mappings of the code generator *)

Definition gqlForSol (solType : string) : option string :=
  if (solType =? "address")%string then Some "String"
  else if (solType =? "uint256")%string then Some "BigInt"
  else None.

Definition tsForGql (gqlType : string) : option string :=
  if (gqlType =? "String")%string then Some "string"
  else if (gqlType =? "BigInt")%string then Some "bigint"
  else None.

Definition empty_database : Codegen.Database unit :=
  {| Codegen._queries := []; Codegen._subgraphEntities := [];
     Codegen._templateString := "" |}.

Definition balanceOf_params : list Codegen.Param :=
  [ {| Codegen.param_name := "account"; Codegen.type := "address" |} ].

(** The database after the registration of [balanceOf]. *)
Definition balanceOf_database : Codegen.Database unit :=
  {| Codegen._queries :=
       [ {| Codegen.name := "balanceOf"; Codegen.entityName := "BalanceOf";
            Codegen.getQueryName := "getBalanceOf";
            Codegen.saveQueryName := "saveBalanceOf";
            Codegen.params := [ {| Codegen.param_name := "account";
                                   Codegen.type := "string" |} ];
            Codegen.returnParameters := [] |} ];
     Codegen._subgraphEntities := []; Codegen._templateString := "" |}.

End Examples.

(** ** Further members of the sources *)

(** *** [EthClient.getBlockWithTransactions] *)

Module EthClientRest.

Import EthClient.

(** A transaction of a block as the provider returns it; [to_] is [null]
    for a contract creation. *)
Record Transaction := {
  tx_hash : string;
  transactionIndex : Z;
  from : string;
  to_ : option string
}.

(** The block that [provider.getBlockWithTransactions] returns. *)
Record BlockWithTransactions := {
  bwt_number : Z;
  bwt_hash : string;
  bwt_parentHash : string;
  bwt_timestamp : Z;
  transactions : list Transaction
}.

(** The entries of [ethTransactionCidsByHeaderId.nodes]. *)
Record TransactionNode := {
  txHash : string;
  tx_index : Z;
  src : string;
  dst : option string
}.

(** The entry of [allEthHeaderCids.nodes]. *)
Record HeaderNode := {
  h_blockNumber : string;
  h_blockHash : string;
  h_parentHash : string;
  h_timestamp : string;
  ethTransactionCidsByHeaderId : list TransactionNode
}.

(** [blockHash ?? blockNumber] *)
Definition hashOrNumber (blockNumber : option Z) (blockHash : option string)
  : option (string + Z) :=
  match blockHash with
  | Some h => Some (inl h)
  | None => inr <$> blockNumber
  end.

(** [assert(blockHashOrBlockNumber)]: a non-empty string or a number that
    is not zero. *)
Definition assert_hashOrNumber (x : option (string + Z)) : result (string + Z) :=
  match x with
  | Some (inl h) => _ ← assert (negb (h =? "")%string); Ok (inl h)
  | Some (inr n) => _ ← assert (negb (n =? 0)); Ok (inr n)
  | None => Throw AssertionError
  end.

Section GetBlockWithTransactions.

(** [this._provider.getBlockWithTransactions]; [None] is [null]. *)
Variable provider_getBlockWithTransactions :
  string + Z → result (option BlockWithTransactions).

Definition getBlockWithTransactions (blockNumber : option Z) (blockHash : option string)
  : result (list HeaderNode) :=
  blockHashOrBlockNumber ← assert_hashOrNumber (hashOrNumber blockNumber blockHash);
  result ← provider_getBlockWithTransactions blockHashOrBlockNumber;
  match result with
  | None => Throw TypeError
  | Some result =>
      Ok [ {| h_blockNumber := pretty (bwt_number result);
              h_blockHash := bwt_hash result;
              h_parentHash := bwt_parentHash result;
              h_timestamp := pretty (bwt_timestamp result);
              ethTransactionCidsByHeaderId :=
                (λ transaction,
                   {| txHash := tx_hash transaction;
                      tx_index := transactionIndex transaction;
                      src := from transaction;
                      dst := to_ transaction |}) <$> transactions result |} ]
  end.

End GetBlockWithTransactions.

(** A log after [log.address = log.address.toLowerCase()]. *)
Definition lowerCaseAddress (log : Log) : Log :=
  {| blockNumber := blockNumber log;
     address := toLowerCase (address log);
     transactionHash := transactionHash log;
     topics := topics log;
     data := data log;
     logIndex := logIndex log |}.

(** The filter of [getLogs] for one block and, when given, one address. *)
Definition block_filter (n : option Z) (address : option string) : Filter :=
  {| fromBlock := n; toBlock := n; filter_address := address |}.

End EthClientRest.

(** *** [getIPLDsByBlock] *)

Module CompareUtilsRest.

Import CompareUtils.

Section GetIPLDsByBlock.

(** [client.query(gql(IPLD_STATE_QUERY), { blockHash, contractAddress, kind })]:
    the [getState] member of the answer, [None] when it is [null]. *)
Variable getState : string → string → option string → result (option StateIPLD).

(** [x && x.block.hash === blockHash] *)
Definition at_block (blockHash : string) (x : option StateIPLD) : bool :=
  match x with
  | Some ipld => (b_hash (block ipld) =? blockHash)%string
  | None => false
  end.

(** The callback of [contracts.map]. *)
Definition contractIPLDs (blockHash contract : string) : result (list (option StateIPLD)) :=
  state ← getState blockHash contract None;
  stateIPLDs ←
    (* If 'checkpoint' is found at the same block, fetch 'diff' as well *)
    (if match state with
        | Some ipld => (kind ipld =? "checkpoint")%string && at_block blockHash state
        | None => false
        end
     then
       (* Check if 'init' present at the same block *)
       getInitState ← getState blockHash contract (Some "init");
       let stateIPLDs := if at_block blockHash getInitState then [getInitState] else [] in
       (* Check if 'diff' present at the same block *)
       getDiffState ← getState blockHash contract (Some "diff");
       Ok (if at_block blockHash getDiffState then stateIPLDs ++ [getDiffState]
           else stateIPLDs)
     else Ok []);
  (* Append the IPLD block to the result *)
  Ok (stateIPLDs ++ [state]).

Definition getIPLDsByBlock (contracts : list string) (blockHash : string)
  : result (list (list (option StateIPLD))) :=
  mapM (contractIPLDs blockHash) contracts.

End GetIPLDsByBlock.

(** A record whose payload [JSON.parse] returned, without a member named
    [__proto__], and with an object for its [state]; or no record. *)
Definition object_state (contractIPLD : option StateIPLD) : Prop :=
  match contractIPLD with
  | None => True
  | Some ipld =>
      is_json (data ipld) ∧ no_proto_key (data ipld)
      ∧ ∃ props, get_prop (data ipld) "state" = Ok (VObj props)
  end.

End CompareUtilsRest.

(** *** [fillState]: the map of contracts to entities *)

Module FillStateRest.

Import FillState.

(** [map.get(key)] on a [Map] kept in insertion order. *)
Fixpoint Map_get (key : string) (m : list (string * list string)) : option (list string) :=
  match m with
  | [] => None
  | (k, v) :: rest => if (k =? key)%string then Some v else Map_get key rest
  end.

(** [contractEntitiesMap] of [fillState]. *)
Definition contractEntitiesMap (dataSources : list DataSource)
  : list (string * list string) :=
  foldl (λ m dataSource,
           Map_set (source_address dataSource) (mapping_entities dataSource) m)
        [] dataSources.

(** The codes with which a computation may end the process. *)
Definition exit_codes {Store A : Type} (Q : Z → Prop) (p : P Store A) : Prop :=
  ∀ σ code σ', p σ = (Exit code, σ') → Q code.

(** An indexer like [table_indexer] whose block progress table is empty:
    there is no block at any height. *)
Definition empty_chain_indexer : Indexer (list StateRecord) unit unit unit :=
  {| stateTable := λ σ, σ;
     getBlocksAtHeight := λ _ _ _, Ok [];
     createInit := λ _ _ σ, (Ok tt, σ);
     getEntitiesForBlock := λ _ _ _, Ok [];
     prepareEntityState := λ _ _, tt;
     updateSubgraphState := λ _ _ σ, σ;
     dumpSubgraphState := λ _ _ σ, (Ok tt, σ);
     updateIPLDStatusHooksBlock := λ _ σ, (Ok tt, σ);
     processCheckpoint := λ _ σ, (Ok tt, σ);
     updateIPLDStatusCheckpointBlock := λ _ σ, (Ok tt, σ);
     isIPFSConfigured := false;
     getIPLDBlocksByHash := λ _ _, Ok [];
     getIPLDData := λ _, tt;
     pushToIPFS := λ _ σ, (Ok tt, σ);
     updateIPLDStatusIPFSBlock := λ _ σ, (Ok tt, σ) |}.

End FillStateRest.

(** *** [Database.addSubgraphEntities] *)

Module CodegenRest.

Import Codegen.

(** A definition of the subgraph schema document: [def.kind] and
    [def.name.value].  The GraphQL parser gives every object type
    definition a name. *)
Record TypeDefinition := {
  def_kind : string;
  def_name_value : string
}.

Definition addSubgraphEntities {VariableDeclaration : Type}
    (definitions : list TypeDefinition) (this : Database VariableDeclaration)
  : Database VariableDeclaration :=
  {| _queries := _queries this;
     _subgraphEntities :=
       foldl (λ entities def,
                if (def_kind def =? "ObjectTypeDefinition")%string
                then entities ++ [def_name_value def]
                else entities)
             (_subgraphEntities _ this) definitions;
     _templateString := _templateString _ this |}.

(** A parameter whose Solidity type has a GraphQL type, which has a
    TypeScript type, both truthy. *)
Definition has_ts_type (getGqlForSol getTsForGql : string → option string)
    (param : Param) : Prop :=
  ∃ gqlParamType tsParamType,
    getGqlForSol (type param) = Some gqlParamType ∧ gqlParamType ≠ ""
    ∧ getTsForGql gqlParamType = Some tsParamType ∧ tsParamType ≠ "".

End CodegenRest.

(** *** Further concrete providers and records *)

Module ExamplesRest.

Import CompareUtils EthClient Examples.

(** A provider like [chain_provider] whose chain has lost its receipts:
    every request for a receipt is answered with [null]. *)
Definition no_receipt_provider (block : result value) (logs : list Log) : Provider :=
  {| provider_send := provider_send (chain_provider block logs);
     provider_getStorageAt := provider_getStorageAt (chain_provider block logs);
     provider_getLogs := provider_getLogs (chain_provider block logs);
     provider_getTransactionReceipt := λ _, Ok None;
     formatter_block := formatter_block (chain_provider block logs);
     formatter_hash := formatter_hash (chain_provider block logs);
     formatter_hex := formatter_hex (chain_provider block logs);
     formatter_number := formatter_number (chain_provider block logs);
     formatter_bigNumber := formatter_bigNumber (chain_provider block logs) |}.

(** A watcher that has, for every contract, an init record, a diff and a
    checkpoint at block 7; without a kind it answers with the checkpoint. *)
Definition getState_at_7 (blockHash contract : string) (kind_ : option string)
  : result (option StateIPLD) :=
  Ok (Some {| block := {| b_cid := "blockcid7"; b_number := 7; b_hash := "0xb7" |};
              contractAddress := contract;
              cid := "cid" +:+ default "checkpoint" kind_;
              kind := default "checkpoint" kind_;
              CompareUtils.data := VObj [ ("meta", VNull); ("state", VObj []) ] |}).

(** The record of a contract at block [num], of a kind, with a CID and the
    parent CID it claims. *)
Definition record_at (contract : string) (num : Z)
    (blockCid kind_ cid_ claimedParent : string) : StateIPLD :=
  {| block := {| b_cid := blockCid; b_number := num; b_hash := "0xb" +:+ blockCid |};
     contractAddress := contract;
     cid := cid_;
     kind := kind_;
     CompareUtils.data :=
       VObj [ ("meta", metaData contract kind_ (VStr claimedParent) blockCid num);
              ("state", VObj []) ] |}.

(** The map of a verification that starts for the contracts [0xc0] and
    [0xc1]: no CID is tracked yet. *)
Definition two_contracts_untracked : gmap string ParentCIDs :=
  <["0xc1" := {| diff := ""; checkpoint := "" |}]>
    ({["0xc0" := {| diff := ""; checkpoint := "" |}]}).

(** The records that the two contracts have at the blocks 5, 6 and 7: a
    diff each at block 5; at block 6 the same diff of [0xc0] again, and a
    diff of [0xc1]; at block 7 a checkpoint of [0xc0] and the diff of
    [0xc1] again. *)
Definition two_contracts_run : list StateIPLD :=
  [ record_at "0xc0" 5 "blockcid5" "diff" "cidA" "cid0";
    record_at "0xc1" 5 "blockcid5" "diff" "cidZ" "cid0";
    record_at "0xc0" 5 "blockcid5" "diff" "cidA" "cid0";
    record_at "0xc1" 6 "blockcid6" "diff" "cidY" "cidZ";
    record_at "0xc0" 7 "blockcid7" "checkpoint" "cidCP" "cidA";
    record_at "0xc1" 6 "blockcid6" "diff" "cidY" "cidZ" ].

(** The state of the author [0x01] and its relation field [posts], and a
    payload that holds it. *)
Definition author_posts_state (posts : list value) : value :=
  VObj [("Author", VObj [("0x01", VObj [("id", VStr "0x01"); ("posts", VArr posts)])])].

Definition author_posts_payload (kind_ : string) (posts : list value) : option StateIPLD :=
  Some {| block := {| b_cid := "blockcid7"; b_number := 7; b_hash := "0xb7" |};
          contractAddress := "0xc0";
          cid := "cidposts" +:+ kind_;
          kind := kind_;
          CompareUtils.data := VObj [ ("meta", VNull); ("state", author_posts_state posts) ] |}.

(** The database after the registration of [balanceOf] and
    [totalSupply], and the client after the same. *)
Definition two_query_database : Codegen.Database unit :=
  {| Codegen._queries :=
       [ {| Codegen.name := "balanceOf"; Codegen.entityName := "BalanceOf";
            Codegen.getQueryName := "getBalanceOf";
            Codegen.saveQueryName := "saveBalanceOf";
            Codegen.params := [ {| Codegen.param_name := "account";
                                   Codegen.type := "string" |} ];
            Codegen.returnParameters := [] |};
         {| Codegen.name := "totalSupply"; Codegen.entityName := "TotalSupply";
            Codegen.getQueryName := "getTotalSupply";
            Codegen.saveQueryName := "saveTotalSupply";
            Codegen.params := [];
            Codegen.returnParameters := [] |} ];
     Codegen._subgraphEntities := []; Codegen._templateString := "" |}.

Definition balanceOf_client : Codegen.Client :=
  {| Codegen.c_queries :=
       [ {| Codegen.c_name := "balanceOf"; Codegen.c_getQueryName := "getBalanceOf";
            Codegen.c_params := [ {| Codegen.param_name := "account";
                                     Codegen.type := "string" |} ] |} ];
     Codegen.c_templateString := "" |}.

Definition two_query_client : Codegen.Client :=
  {| Codegen.c_queries :=
       [ {| Codegen.c_name := "balanceOf"; Codegen.c_getQueryName := "getBalanceOf";
            Codegen.c_params := [ {| Codegen.param_name := "account";
                                     Codegen.type := "string" |} ] |};
         {| Codegen.c_name := "totalSupply"; Codegen.c_getQueryName := "getTotalSupply";
            Codegen.c_params := [] |} ];
     Codegen.c_templateString := "" |}.

End ExamplesRest.

(* ===================================================================== *)
(** * Part II: properties                                                 *)
(* ===================================================================== *)

(** ** Deep equality *)

Section DeepEqual.

Lemma deep_equal_VStr_l s v : deep_equal (VStr s) v = true ↔ v = VStr s.
Proof.
  destruct v; simpl; try (split; [discriminate | congruence]).
  rewrite String.eqb_eq. split; congruence.
Qed.

Lemma deep_equal_VNum_l n v : deep_equal (VNum n) v = true ↔ v = VNum n.
Proof.
  destruct v; simpl; try (split; [discriminate | congruence]).
  rewrite Z.eqb_eq. split; congruence.
Qed.

End DeepEqual.

(** ** The verifier of state meta data *)

Section CheckIPLDMetaData.

Import CompareUtils Spec.

Lemma compareObjects_spec obj1 obj2 rawJson :
  compareObjects obj1 obj2 rawJson = negb (deep_equal obj1 obj2).
Proof. by destruct rawJson. Qed.

(** Meta data of the written shape agree exactly when their members do. *)
Lemma deep_equal_metaData i k p c n i' k' p' c' n' :
  deep_equal (metaData i k p c n) (metaData i' k' p' c' n') = true
  ↔ i' = i ∧ k' = k ∧ deep_equal p p' = true ∧ c' = c ∧ n' = n.
Proof.
  unfold metaData. cbn.
  rewrite !andb_true_r, !andb_true_iff, !String.eqb_eq, Z.eqb_eq.
  intuition congruence.
Qed.

(** A record that is not skipped is compared against the expected meta
    data, built around the expected parent CID. *)
Lemma checkIPLDMetaData_compared ipld m rawJson tracked meta parent actual :
  m !! contractAddress ipld = Some tracked →
  cid ipld ≠ diff tracked →
  cid ipld ≠ checkpoint tracked →
  get_prop (data ipld) "meta" = Ok meta →
  get_prop meta "parent" = Ok parent →
  get_prop parent "/" = Ok actual →
  (checkIPLDMetaData (Some ipld) m rawJson).1
  = Ok (Compared (negb (deep_equal
          (expectedMetaData ipld (expectedParentCID tracked actual)) meta))).
Proof.
  intros Hm Hd Hc Hmeta Hparent Hactual. unfold checkIPLDMetaData.
  rewrite Hm.
  apply String.eqb_neq in Hd, Hc. rewrite Hd, Hc. cbn [orb fst].
  rewrite Hmeta. cbn. rewrite Hparent. cbn. rewrite Hactual. cbn.
  by rewrite compareObjects_spec.
Qed.

Lemma get_parent_metaData i k p c n :
  get_prop (metaData i k p c n) "parent" = Ok (VObj [("/", p)]).
Proof. reflexivity. Qed.

(** With a tracked diff CID, the claimed parents that the verifier accepts. *)
Lemma expectedParentCID_accepts tracked p :
  diff tracked ≠ "" →
  deep_equal (expectedParentCID tracked p) p = true
  ↔ p = VStr (diff tracked) ∨ (checkpoint tracked ≠ "" ∧ p = VStr (checkpoint tracked)).
Proof.
  intros Hd. unfold expectedParentCID.
  apply String.eqb_neq in Hd. rewrite Hd.
  destruct (checkpoint tracked =? "")%string eqn:Hc; cbn [negb andb].
  - apply String.eqb_eq in Hc. rewrite deep_equal_VStr_l. tauto.
  - apply String.eqb_neq in Hc.
    destruct (strict_eq_str p (checkpoint tracked)) eqn:Hp.
    + destruct p; try discriminate. cbn in Hp. apply String.eqb_eq in Hp. subst s.
      rewrite deep_equal_VStr_l. tauto.
    + rewrite deep_equal_VStr_l. split; [tauto |].
      intros [? | [_ ->]]; [done |]. cbn in Hp. by rewrite String.eqb_refl in Hp.
Qed.

(** The verdict on a record that is not skipped. *)
Lemma checkIPLDMetaData_verdict ipld m rawJson tracked :
  m !! contractAddress ipld = Some tracked →
  cid ipld ≠ diff tracked →
  cid ipld ≠ checkpoint tracked →
  (checkIPLDMetaData (Some ipld) m rawJson).1
  = (meta ← get_prop (data ipld) "meta";
     parent ← get_prop meta "parent";
     actual ← get_prop parent "/";
     Ok (Compared (negb (deep_equal
           (expectedMetaData ipld (expectedParentCID tracked actual)) meta)))).
Proof.
  intros Hm Hd Hc. unfold checkIPLDMetaData. rewrite Hm.
  apply String.eqb_neq in Hd, Hc. rewrite Hd, Hc. cbn [orb fst].
  destruct (get_prop (data ipld) "meta") as [meta |]; [| done]. cbn.
  destruct (get_prop meta "parent") as [parent |]; [| done]. cbn.
  destruct (get_prop parent "/") as [actual |]; [| done]. cbn.
  by rewrite compareObjects_spec.
Qed.

(** Meta data that agree with the expected ones claim the expected
    parent. *)
Lemma deep_equal_metaData_parent i k p c n meta :
  deep_equal (metaData i k (VStr p) c n) meta = true →
  (parent ← get_prop meta "parent"; get_prop parent "/") = Ok (VStr p).
Proof.
  unfold metaData. destruct meta as [| | | | | | qs]; try done. cbn.
  destruct (assoc "parent" qs) as [[| | | | | | ws] |]; cbn;
    rewrite ?andb_false_r; try done.
  destruct (assoc "/" ws) as [actual |]; cbn; rewrite ?andb_false_r; try done.
  intros H. repeat (apply andb_true_iff in H as [H ?]).
  repeat match goal with
         | H : _ && _ = true |- _ => apply andb_true_iff in H as [H ?]
         end.
  assert (deep_equal (VStr p) actual = true) as Heq by done.
  apply deep_equal_VStr_l in Heq. by subst actual.
Qed.

Lemma checkIPLDMetaData_not_skipped ipld m rawJson tracked :
  m !! contractAddress ipld = Some tracked →
  (checkIPLDMetaData (Some ipld) m rawJson).1 ≠ Ok Skipped
  ↔ cid ipld ≠ diff tracked ∧ cid ipld ≠ checkpoint tracked.
Proof.
  intros Hm. unfold checkIPLDMetaData. rewrite Hm.
  destruct (String.eqb_spec (cid ipld) (diff tracked)) as [Hd | Hd];
    [cbn; split; [done | by intros [? _]] |].
  destruct (String.eqb_spec (cid ipld) (checkpoint tracked)) as [Hc | Hc];
    [cbn; split; [done | by intros [_ ?]] |].
  cbn [orb fst]. split; [done | intros _].
  destruct (get_prop (data ipld) "meta") as [meta |]; [| done]. cbn.
  destruct (get_prop meta "parent") as [parent |]; [| done]. cbn.
  by destruct (get_prop parent "/").
Qed.

(** A call for a record of a tracked contract: it is skipped and leaves
    the map alone, or it stores the next parent CIDs of the contract. *)
Lemma checkIPLDMetaData_cases ipld m rawJson tracked :
  m !! contractAddress ipld = Some tracked →
  (is_skipped (checkIPLDMetaData (Some ipld) m rawJson).1 = true
   ∧ (checkIPLDMetaData (Some ipld) m rawJson).2 = m)
  ∨ (is_skipped (checkIPLDMetaData (Some ipld) m rawJson).1 = false
     ∧ (checkIPLDMetaData (Some ipld) m rawJson).2
       = <[contractAddress ipld :=
             if decide (kind ipld = "checkpoint")
             then {| diff := diff tracked; checkpoint := cid ipld |}
             else {| diff := cid ipld; checkpoint := "" |}]> m).
Proof.
  intros Hm. unfold checkIPLDMetaData. rewrite Hm.
  destruct ((cid ipld =? diff tracked)%string
            || (cid ipld =? checkpoint tracked)%string); [by left | right].
  cbn [fst snd]. split.
  - destruct (get_prop (data ipld) "meta") as [meta |]; [| done]. cbn.
    destruct (get_prop meta "parent") as [parent |]; [| done]. cbn.
    by destruct (get_prop parent "/").
  - destruct (decide (kind ipld = "checkpoint")) as [Hkind | Hkind].
    + by rewrite (proj2 (String.eqb_eq _ _) Hkind).
    + by rewrite (proj2 (String.eqb_neq _ _) Hkind).
Qed.

Lemma check_next_map rawJson m0 records :
  (foldl (check_next rawJson) (m0, []) records).1 = tracked_after rawJson m0 records.
Proof.
  induction records as [| r records IH] using rev_ind; [done |].
  unfold tracked_after in *. rewrite !foldl_app. cbn. by rewrite IH.
Qed.

Lemma checked_snoc rawJson m0 records r :
  checked rawJson m0 (records ++ [r])
  = checked rawJson m0 records
    ++ (if is_skipped (checkIPLDMetaData (Some r) (tracked_after rawJson m0 records)
                                         rawJson).1
        then [] else [r]).
Proof.
  unfold checked. rewrite foldl_app. cbn [foldl]. unfold check_next at 1.
  rewrite check_next_map. cbn [snd].
  destruct (is_skipped _); [by rewrite app_nil_r | done].
Qed.

Lemma newest_diff_snoc start previous r :
  newest_diff start (previous ++ [r])
  = if decide (kind r = "checkpoint") then newest_diff start previous else cid r.
Proof.
  unfold newest_diff. rewrite filter_app, filter_cons, filter_nil.
  destruct (decide (kind r = "checkpoint")) as [Hkind | Hkind].
  - rewrite decide_False by (by intros H). by rewrite app_nil_r.
  - rewrite decide_True by done. by rewrite last_snoc.
Qed.

Lemma newest_checkpoint_snoc start previous r :
  newest_checkpoint start (previous ++ [r])
  = if decide (kind r = "checkpoint") then cid r else "".
Proof. unfold newest_checkpoint. by rewrite last_snoc. Qed.

Lemma checkIPLDMetaData_other_entry ipld m rawJson c :
  contractAddress ipld ≠ c →
  (checkIPLDMetaData (Some ipld) m rawJson).2 !! c = m !! c.
Proof.
  intros Hne. unfold checkIPLDMetaData.
  destruct (m !! contractAddress ipld) as [parentCIDs |]; [| done].
  destruct ((cid ipld =? diff parentCIDs)%string
            || (cid ipld =? checkpoint parentCIDs)%string); [done |].
  cbn [snd]. by rewrite lookup_insert_ne.
Qed.

(** The CIDs tracked for a contract after a run: the newest diff among
    the records of the contract that were not skipped, and the checkpoint
    if it is the newest of them.  Skipped records and the records of other
    contracts leave them alone. *)
Lemma tracked_after_entry rawJson m0 c start records :
  m0 !! c = Some start →
  tracked_after rawJson m0 records !! c
  = Some {| diff :=
              newest_diff start
                (filter (λ r, contractAddress r = c) (checked rawJson m0 records));
            checkpoint :=
              newest_checkpoint start
                (filter (λ r, contractAddress r = c) (checked rawJson m0 records)) |}.
Proof.
  intros Hm0.
  induction records as [| r records IH] using rev_ind.
  { cbn. rewrite Hm0. by destruct start. }
  rewrite checked_snoc, filter_app.
  replace (tracked_after rawJson m0 (records ++ [r]))
    with (checkIPLDMetaData (Some r) (tracked_after rawJson m0 records) rawJson).2
    by (unfold tracked_after; by rewrite foldl_app).
  set (m := tracked_after rawJson m0 records) in *.
  destruct (decide (contractAddress r = c)) as [Hr | Hr].
  - subst c.
    destruct (checkIPLDMetaData_cases r m rawJson _ IH) as [[-> ->] | [-> ->]].
    + by rewrite filter_nil, app_nil_r.
    + rewrite filter_cons_True, filter_nil by done.
      rewrite lookup_insert_eq, newest_diff_snoc, newest_checkpoint_snoc.
      cbn [diff checkpoint]. by destruct (decide (kind r = "checkpoint")).
  - rewrite checkIPLDMetaData_other_entry by done.
    destruct (is_skipped _);
      [| rewrite filter_cons_False by done]; by rewrite filter_nil, app_nil_r.
Qed.

(** The parents that the verifier accepts, with a tracked diff CID. *)
Lemma expectedParentCID_accepted tracked p :
  diff tracked ≠ "" →
  p = diff tracked ∨ (checkpoint tracked ≠ "" ∧ p = checkpoint tracked) →
  expectedParentCID tracked (VStr p) = VStr p.
Proof.
  intros Hd Hp. unfold expectedParentCID.
  apply String.eqb_neq in Hd. rewrite Hd. cbn.
  destruct (String.eqb_spec (checkpoint tracked) "") as [Hc | Hc]; cbn.
  - destruct Hp as [-> | [? _]]; done.
  - destruct (String.eqb_spec p (checkpoint tracked)) as [-> | Hne]; [done |].
    destruct Hp as [-> | [_ ->]]; done.
Qed.

Lemma expectedParentCID_is_accepted tracked actual :
  diff tracked ≠ "" →
  ∃ p, expectedParentCID tracked actual = VStr p
       ∧ (p = diff tracked ∨ (checkpoint tracked ≠ "" ∧ p = checkpoint tracked)).
Proof.
  intros Hd. unfold expectedParentCID.
  apply String.eqb_neq in Hd. rewrite Hd.
  destruct (String.eqb_spec (checkpoint tracked) "") as [Hc | Hc]; cbn; [eauto |].
  destruct (strict_eq_str actual (checkpoint tracked)); eauto.
Qed.


(** C9.  While no diff CID is tracked for a contract, the expected parent
    CID is the one the record claims; a record whose meta data are right
    otherwise is then reported without difference, whatever parent CID it
    claims. *)
Theorem checkIPLDMetaData_first_record_parent ipld m rawJson tracked s :
  m !! contractAddress ipld = Some tracked →
  diff tracked = "" →
  cid ipld ≠ diff tracked →
  cid ipld ≠ checkpoint tracked →
  get_prop (data ipld) "meta"
  = Ok (metaData (contractAddress ipld) (kind ipld) (VStr s)
                 (b_cid (block ipld)) (b_number (block ipld))) →
  (∀ actualParentCID, expectedParentCID tracked actualParentCID = actualParentCID)
  ∧ (checkIPLDMetaData (Some ipld) m rawJson).1 = Ok (Compared false).
Proof.
  intros Hm Hempty Hd Hc Hmeta.
  assert (Hexp : ∀ a, expectedParentCID tracked a = a).
  { intros a. unfold expectedParentCID. by rewrite Hempty. }
  split; [done |].
  rewrite (checkIPLDMetaData_compared _ _ _ _ _ _ (VStr s) Hm Hd Hc Hmeta
             (get_parent_metaData _ _ _ _ _) eq_refl).
  rewrite Hexp. unfold expectedMetaData.
  assert (deep_equal
            (metaData (contractAddress ipld) (kind ipld) (VStr s)
               (b_cid (block ipld)) (b_number (block ipld)))
            (metaData (contractAddress ipld) (kind ipld) (VStr s)
               (b_cid (block ipld)) (b_number (block ipld))) = true) as ->; [| done].
  apply deep_equal_metaData. repeat split; try done.
  by apply deep_equal_VStr_l.
Qed.

End CheckIPLDMetaData.

(** *** Concrete records *)

Section CheckIPLDMetaDataExamples.

Import CompareUtils Examples.



(** After a checkpoint, a record may name the checkpoint or the diff
    before it as its parent: neither is reported. *)
Example checkIPLDMetaData_accepts_checkpoint_or_diff :
  (checkIPLDMetaData (Some (record_B "cidCP" 7)) (tracking "cidA" "cidCP") false).1
  = Ok (Compared false)
  ∧ (checkIPLDMetaData (Some (record_B "cidA" 7)) (tracking "cidA" "cidCP") false).1
    = Ok (Compared false)
  ∧ (checkIPLDMetaData (Some (record_B "cidX" 7)) (tracking "cidA" "cidCP") false).1
    = Ok (Compared true).
Proof.
  unfold checkIPLDMetaData, tracking.
  change (contractAddress (record_B _ _)) with "0xc0".
  rewrite !lookup_singleton_eq. repeat split; reflexivity.
Qed.

(** The tracked CIDs after a diff and after a checkpoint. *)
Example checkIPLDMetaData_tracks :
  (checkIPLDMetaData (Some (record_B "cidA" 7)) (tracking "cidA" "cidCP") false).2
  = tracking "cidB" "".
Proof.
  unfold checkIPLDMetaData, tracking.
  change (contractAddress (record_B _ _)) with "0xc0".
  rewrite lookup_singleton_eq. cbn. apply insert_singleton_eq.
Qed.

Lemma checkIPLDMetaData_first_record_parent_witness :
  (checkIPLDMetaData (Some (record_B "anything" 7)) (tracking "" "") true).1
  = Ok (Compared false).
Proof.
  apply (checkIPLDMetaData_first_record_parent (record_B "anything" 7)
           (tracking "" "") true {| diff := ""; checkpoint := "" |} "anything").
  - apply lookup_singleton_eq.
  - reflexivity.
  - discriminate.
  - discriminate.
  - reflexivity.
Defined.

End CheckIPLDMetaDataExamples.

(** ** Sorting by id *)

Section SortById.

Import CompareUtils Spec.

Variable localeCompare : string → string → comparison.

(** The comparator is consistent: a total preorder. *)
Hypothesis localeCompare_total : ∀ a b, id_le localeCompare a b ∨ id_le localeCompare b a.
Hypothesis localeCompare_trans :
  ∀ a b c, id_le localeCompare a b → id_le localeCompare b c → id_le localeCompare a c.

Local Abbreviation keyed_le := (Spec.keyed_le localeCompare).

Lemma insert_by_id_Permutation x l : insert_by_id localeCompare x l ≡ₚ x :: l.
Proof.
  induction l as [| y l IH]; cbn; [done |].
  destruct (localeCompare x.1 y.1); try done.
  rewrite IH. apply perm_swap.
Qed.

Lemma stable_sort_Permutation l : stable_sort localeCompare l ≡ₚ l.
Proof.
  induction l as [| x l IH]; cbn; [done |].
  fold (stable_sort localeCompare l).
  by rewrite insert_by_id_Permutation, IH.
Qed.

Lemma insert_by_id_sorted x l :
  StronglySorted keyed_le l → StronglySorted keyed_le (insert_by_id localeCompare x l).
Proof.
  induction 1 as [| y l Hl IH Hy]; cbn.
  { repeat constructor. }
  destruct (localeCompare x.1 y.1) eqn:Hxy.
  - constructor; [by constructor |].
    assert (keyed_le x y) as Hle by (unfold keyed_le, id_le; congruence).
    constructor; [done |].
    eapply Forall_impl; [exact Hy |]. intros z Hz. by eapply localeCompare_trans.
  - constructor; [by constructor |].
    assert (keyed_le x y) as Hle by (unfold keyed_le, id_le; congruence).
    constructor; [done |].
    eapply Forall_impl; [exact Hy |]. intros z Hz. by eapply localeCompare_trans.
  - constructor; [done |].
    rewrite insert_by_id_Permutation. constructor; [| done].
    destruct (localeCompare_total x.1 y.1) as [Hle | Hle]; [| done].
    by destruct Hle.
Qed.

Lemma stable_sort_sorted l : StronglySorted keyed_le (stable_sort localeCompare l).
Proof.
  induction l as [| x l IH]; cbn; [constructor |].
  by apply insert_by_id_sorted.
Qed.

(** Sorting forgets the order of the input, when no two different
    elements have keys that compare as equal. *)
Lemma stable_sort_unique l1 l2 :
  (∀ x y, x ∈ l1 → y ∈ l1 → keyed_le x y → keyed_le y x → x = y) →
  l1 ≡ₚ l2 →
  stable_sort localeCompare l1 = stable_sort localeCompare l2.
Proof.
  intros Hdist Hperm.
  apply (StronglySorted_unique_strong keyed_le); try apply stable_sort_sorted.
  - intros x y Hx Hy. rewrite stable_sort_Permutation in Hx, Hy.
    rewrite <- Hperm in Hy. by apply Hdist.
  - by rewrite !stable_sort_Permutation.
Qed.

Lemma keyed_entity_array l :
  Forall carries_id l →
  mapM (λ v, (λ s, (s, v)) <$> entity_id v) l = Some (key_of <$> l).
Proof.
  intros Hl. apply mapM_Some. induction Hl as [| v l (s & Hs & _) _ IH]; cbn.
  - constructor.
  - constructor; [| done]. unfold key_of. by rewrite Hs.
Qed.

Lemma sort_by_id_entity_array l :
  Forall carries_id l →
  sort_by_id localeCompare l = Ok ((stable_sort localeCompare (key_of <$> l)).*2).
Proof. intros Hl. unfold sort_by_id. by rewrite keyed_entity_array. Qed.

Lemma sort_by_id_Permutation l l' : sort_by_id localeCompare l = Ok l' → l' ≡ₚ l.
Proof.
  unfold sort_by_id. destruct (mapM _ l) as [keyed |] eqn:Hk.
  - intros [= <-]. rewrite stable_sort_Permutation.
    apply mapM_Some in Hk. clear -Hk.
    induction Hk as [| v [s w] l k Hv _ IH]; cbn; [done |].
    destruct (entity_id v); [| done]. cbn in Hv. injection Hv as _ <-.
    by rewrite IH.
  - case_bool_decide; [| done]. by intros [= <-].
Qed.

Lemma sorted_keys_sorted_by_id (k : list (string * value)) :
  Forall (λ x, entity_id x.2 = Some x.1) k →
  StronglySorted keyed_le k →
  sorted_by_id localeCompare (k.*2).
Proof.
  intros Hk Hs. unfold sorted_by_id.
  induction Hs as [| x k Hs IH Hx]; cbn; [constructor |].
  apply Forall_cons in Hk as [Hx1 Hk].
  constructor; [by apply IH |].
  rewrite Forall_fmap. rewrite Forall_forall in Hx, Hk |- *.
  intros y Hy. exists x.1, y.1. repeat split; [done | by apply Hk | by apply Hx].
Qed.

Lemma sort_by_id_sorted l l' :
  sort_by_id localeCompare l = Ok l' → sorted_by_id localeCompare l'.
Proof.
  unfold sort_by_id. destruct (mapM _ l) as [keyed |] eqn:Hk.
  - intros [= <-]. apply sorted_keys_sorted_by_id; [| apply stable_sort_sorted].
    rewrite stable_sort_Permutation.
    apply mapM_Some in Hk. clear -Hk.
    induction Hk as [| v [s w] l k Hv _ IH]; [constructor |].
    constructor; [| done].
    destruct (entity_id v) eqn:Hid; [| done]. cbn in Hv. by injection Hv as <- <-.
  - case_bool_decide as Hlen; [| done]. intros [= <-].
    destruct l as [| x [| y l]]; cbn in Hlen; [| | lia];
      unfold sorted_by_id; repeat constructor.
Qed.

Lemma sorted_by_id_take n l :
  sorted_by_id localeCompare l → sorted_by_id localeCompare (take n l).
Proof.
  unfold sorted_by_id. intros Hs. revert n.
  induction Hs as [| x l Hs IH Hx]; intros [| n]; cbn; try constructor.
  - apply IH.
  - eapply Forall_take in Hx. exact Hx.
Qed.

End SortById.

(** ** Canonical states *)

Section CombineIPLDState.

Import CompareUtils Spec.

Lemma mapM_Ok {A B} (f : A → result B) l k :
  mapM f l = Ok k ↔ Forall2 (λ x y, f x = Ok y) l k.
Proof.
  split.
  - revert k. induction l as [| x l IH]; intros k; cbn.
    + intros [= <-]. constructor.
    + destruct (f x) as [y |] eqn:Hx; cbn; [| done].
      destruct (mapM f l) as [k' |]; cbn; [| done].
      intros [= <-]. constructor; [done | by apply IH].
  - induction 1 as [| x y l k Hx _ IH]; cbn; [done |].
    rewrite Hx; cbn. by rewrite IH.
Qed.

Lemma fmap_result_Ok {A B} (f : A → B) (r : result A) b :
  f <$> r = Ok b ↔ ∃ a, r = Ok a ∧ b = f a.
Proof.
  destruct r as [a |]; cbn.
  - split; [intros [= <-]; eauto | intros (? & [= <-] & ->); done].
  - split; [done | intros (? & ? & _); done].
Qed.

Lemma bind_result_Ok {A B} (f : A → result B) (r : result A) b :
  r ≫= f = Ok b ↔ ∃ a, r = Ok a ∧ f a = Ok b.
Proof.
  destruct r as [a |]; cbn.
  - split; [eauto | by intros (? & [= <-] & ?)].
  - split; [done | intros (? & ? & _); done].
Qed.

Lemma entity_id_get_prop v s : entity_id v = Some s → get_prop v "id" = Ok (VStr s).
Proof.
  destruct v; try done. cbn.
  destruct (assoc "id" props) as [[] |]; try done. by intros [= ->].
Qed.

(** Every field below a string is a string. *)
Lemma fields_string n s : Forall (λ y, ∃ t, y = VStr t) (fields n (VStr s)).
Proof.
  revert s. induction n as [| n IH]; intros s; cbn.
  - repeat constructor. eauto.
  - apply Forall_bind. unfold values_of; cbn.
    apply Forall_fmap, Forall_true. intros c. apply IH.
Qed.

(** What holds of the fields that a traversal leaves behind holds of the
    fields of the value traversed. *)
Lemma forEach_value_fields (Q : value → Prop) n g v v' :
  (∀ s, Q (VStr s)) →
  (∀ x x', g x = Ok x' → Forall Q (fields n x')) →
  forEach_value g v = Ok v' →
  Forall Q (fields (S n) v').
Proof.
  intros Hstr Hg Hv.
  destruct v; cbn in Hv; try done.
  - by injection Hv as <-.
  - by injection Hv as <-.
  - apply bind_result_Ok in Hv as (_ & _ & [= <-]).
    eapply Forall_impl; [apply fields_string |]. by intros ? [t ->].
  - apply fmap_result_Ok in Hv as (elems' & Hm & ->).
    apply mapM_Ok in Hm. cbn. apply Forall_bind. unfold values_of; cbn.
    induction Hm; constructor; eauto.
  - apply fmap_result_Ok in Hv as (props' & Hm & ->).
    apply mapM_Ok in Hm. cbn. apply Forall_bind. unfold values_of; cbn.
    apply Forall_fmap.
    induction Hm as [| kv kv' ? ? Hkv _ IH]; constructor; [| done].
    apply fmap_result_Ok in Hkv as (x' & Hx & ->). cbn. eauto.
Qed.

(** *** Values that [JSON.parse] returns *)

Lemma value_nested_ind (Q : value → Prop) :
  Q VUndefined → Q VNull → (∀ b, Q (VBool b)) → (∀ n, Q (VNum n)) → (∀ s, Q (VStr s)) →
  (∀ elems, Forall Q elems → Q (VArr elems)) →
  (∀ props, Forall (λ kv : string * value, Q kv.2) props → Q (VObj props)) →
  ∀ v, Q v.
Proof.
  intros Hundef Hnull Hbool Hnum Hstr Harr Hobj. fix IH 1.
  intros [| | b | n | s | elems | props];
    [exact Hundef | exact Hnull | apply Hbool | apply Hnum | apply Hstr | |].
  - apply Harr. induction elems as [| x elems IHelems]; constructor;
      [apply IH | exact IHelems].
  - apply Hobj. induction props as [| [k x] props IHprops]; constructor;
      [apply IH | exact IHprops].
Qed.

Lemma is_json_VArr elems : is_json (VArr elems) ↔ Forall is_json elems.
Proof.
  cbn. induction elems as [| x elems IH]; [by split; [constructor |] |].
  rewrite Forall_cons, <- IH. done.
Qed.

Lemma is_json_VObj props :
  is_json (VObj props) ↔ NoDup (props.*1) ∧ Forall (λ kv : string * value, is_json kv.2) props.
Proof.
  cbn. apply and_iff_compat_l.
  induction props as [| kv props IH]; [by split; [constructor |] |].
  rewrite Forall_cons, <- IH. done.
Qed.

Lemma no_proto_key_VArr elems : no_proto_key (VArr elems) ↔ Forall no_proto_key elems.
Proof.
  cbn. induction elems as [| x elems IH]; [by split; [constructor |] |].
  rewrite Forall_cons, <- IH. done.
Qed.

Lemma no_proto_key_VObj props :
  no_proto_key (VObj props)
  ↔ ("__proto__" ∉ props.*1) ∧ Forall (λ kv : string * value, no_proto_key kv.2) props.
Proof.
  cbn. apply and_iff_compat_l.
  induction props as [| kv props IH]; [by split; [constructor |] |].
  rewrite Forall_cons, <- IH. done.
Qed.

(** *** Property lists *)

Lemma assoc_None key props : key ∉ props.*1 → assoc key props = None.
Proof.
  induction props as [| [k v] props IH]; [done |]. cbn.
  intros Hkey. apply not_elem_of_cons in Hkey as [Hne Hkey].
  destruct (String.eqb_spec k key) as [-> | _]; [done | by apply IH].
Qed.

Lemma assoc_elem_of key props v : assoc key props = Some v → (key, v) ∈ props.
Proof.
  induction props as [| [k w] props IH]; [done |]. cbn.
  destruct (String.eqb_spec k key) as [-> | _].
  - intros [= ->]. by left.
  - intros Hv. right. by apply IH.
Qed.

Lemma assoc_NoDup key v props : NoDup (props.*1) → (key, v) ∈ props → assoc key props = Some v.
Proof.
  induction props as [| [k w] props IH]; cbn.
  { intros _ Hin. by apply elem_of_nil in Hin. }
  intros [Hk Hnodup]%NoDup_cons [[= -> ->] | Hin]%elem_of_cons.
  - by rewrite String.eqb_refl.
  - destruct (String.eqb_spec k key) as [-> | _]; [| by apply IH].
    destruct Hk. apply list_elem_of_fmap. by exists (key, v).
Qed.

Lemma assoc_assoc_set key v props k :
  assoc k (assoc_set key v props) = if (key =? k)%string then Some v else assoc k props.
Proof.
  induction props as [| [k' w] props IH]; cbn.
  { by destruct (key =? k)%string. }
  destruct (String.eqb_spec k' key) as [-> | Hne]; cbn.
  - by destruct (key =? k)%string.
  - rewrite IH. destruct (String.eqb_spec key k) as [Heq | _]; [| done].
    subst k. by rewrite (proj2 (String.eqb_neq k' key) Hne).
Qed.

Lemma assoc_set_keys key v props :
  (assoc_set key v props).*1
  = if bool_decide (key ∈ props.*1) then props.*1 else props.*1 ++ [key].
Proof.
  induction props as [| [k w] props IH]; [done |]. cbn.
  destruct (String.eqb_spec k key) as [-> | Hne]; cbn.
  - rewrite bool_decide_eq_true_2; [done | by left].
  - rewrite IH. case_bool_decide as Hin.
    + rewrite bool_decide_eq_true_2; [done | by right].
    + rewrite bool_decide_eq_false_2; [done |].
      intros [-> | ?]%elem_of_cons; done.
Qed.

Lemma assoc_set_new key v props : key ∉ props.*1 → assoc_set key v props = props ++ [(key, v)].
Proof.
  induction props as [| [k w] props IH]; [done |]. cbn.
  intros Hkey. apply not_elem_of_cons in Hkey as [Hne Hkey].
  destruct (String.eqb_spec k key) as [-> | _]; [done | by rewrite IH].
Qed.

Lemma assoc_set_NoDup key v props : NoDup (props.*1) → NoDup ((assoc_set key v props).*1).
Proof.
  intros Hnodup. rewrite assoc_set_keys. case_bool_decide as Hin; [done |].
  apply NoDup_app. repeat split; [done | | apply NoDup_singleton].
  by intros k Hk ->%list_elem_of_singleton.
Qed.

Lemma assoc_set_Forall (Q : value → Prop) key v props :
  Q v → Forall (λ kv : string * value, Q kv.2) props →
  Forall (λ kv : string * value, Q kv.2) (assoc_set key v props).
Proof.
  intros Hv. induction 1 as [| [k w] props Hw Hprops IH]; cbn.
  { by repeat constructor. }
  destruct (k =? key)%string; by constructor.
Qed.

(** *** The loops of [mergeValue] *)

Lemma mergeValue_VArr selems a :
  mergeValue (VArr selems) a
  = (target ← match a with
              | VArr oelems => Ok oelems
              | VObj props =>
                  match assoc "length" props with
                  | Some (VNum _) => Throw Unspecified
                  | _ => Ok []
                  end
              | _ => Ok []
              end;
     VArr <$> merge_elems selems target).
Proof.
  cbn. match goal with |- ?t ≫= _ = _ => destruct t as [target | e] end; [| done].
  reflexivity.
Qed.

Lemma mergeValue_VObj sprops a :
  mergeValue (VObj sprops) a
  = (target ← match a with
              | VObj oprops => Ok oprops
              | VArr _ => Throw Unspecified
              | _ => Ok []
              end;
     VObj <$> merge_props sprops target).
Proof.
  cbn. match goal with |- ?t ≫= _ = _ => destruct t as [target | e] end; [| done].
  reflexivity.
Qed.

Lemma merge_props_assoc ss os ms :
  NoDup (ss.*1) →
  merge_props ss os = Ok ms →
  ∀ k, match assoc k ss with
       | Some s =>
           if not_merged k s then assoc k ms = assoc k os
           else ∃ v, mergeValue s (default VUndefined (assoc k os)) = Ok v
                     ∧ assoc k ms = Some v
       | None => assoc k ms = assoc k os
       end.
Proof.
  revert os. induction ss as [| [key s] ss IH]; intros os Hnodup Hms k.
  { cbn in *. by injection Hms as <-. }
  cbn in Hnodup. apply NoDup_cons in Hnodup as [Hkey Hnodup].
  cbn [merge_props] in Hms. cbn [assoc].
  destruct (String.eqb_spec key k) as [Heq | Hne].
  - subst k. destruct (not_merged key s).
    + specialize (IH _ Hnodup Hms key). by rewrite (assoc_None _ _ Hkey) in IH.
    + apply bind_result_Ok in Hms as (v & Hv & Hms). exists v. split; [done |].
      specialize (IH _ Hnodup Hms key). rewrite (assoc_None _ _ Hkey) in IH.
      by rewrite IH, assoc_assoc_set, String.eqb_refl.
  - destruct (not_merged key s); [by apply IH |].
    apply bind_result_Ok in Hms as (v & Hv & Hms).
    specialize (IH _ Hnodup Hms k).
    by rewrite assoc_assoc_set, (proj2 (String.eqb_neq key k) Hne) in IH.
Qed.

Lemma merge_props_Forall (Q : value → Prop) ss os ms :
  Forall (λ kv : string * value,
            ∀ a out, a = VUndefined ∨ Q a → mergeValue kv.2 a = Ok out → Q out) ss →
  NoDup (os.*1) → Forall (λ kv : string * value, Q kv.2) os →
  merge_props ss os = Ok ms →
  NoDup (ms.*1) ∧ Forall (λ kv : string * value, Q kv.2) ms.
Proof.
  intros Hss. revert os.
  induction Hss as [| [key s] ss Hs _ IH]; intros os Hnodup Hos Hms.
  { cbn in Hms. by injection Hms as <-. }
  cbn [merge_props] in Hms.
  destruct (not_merged key s); [by apply (IH os) |].
  apply bind_result_Ok in Hms as (v & Hv & Hms).
  apply (IH (assoc_set key v os)); [by apply assoc_set_NoDup | | done].
  apply assoc_set_Forall; [| done].
  eapply Hs; [| exact Hv].
  destruct (assoc key os) as [a |] eqn:Ha; [| by left]. right.
  apply assoc_elem_of in Ha. rewrite Forall_forall in Hos. apply (Hos _ Ha).
Qed.

Lemma merge_elems_Forall (Q : value → Prop) ss os ms :
  Forall (λ s, ∀ a out, a = VUndefined ∨ Q a → mergeValue s a = Ok out → Q out) ss →
  Forall Q os →
  merge_elems ss os = Ok ms →
  Forall Q ms.
Proof.
  intros Hss. revert os ms.
  induction Hss as [| s ss Hs _ IH]; intros os ms Hos Hms.
  { cbn in Hms. by injection Hms as <-. }
  cbn [merge_elems] in Hms.
  apply bind_result_Ok in Hms as (v & Hv & Hms).
  apply bind_result_Ok in Hms as (rest & Hrest & [= <-]).
  constructor.
  - eapply Hs; [| exact Hv]. destruct Hos; [by left | by right].
  - apply (IH (tail os)); [| done]. destruct Hos; [constructor | done].
Qed.

Lemma merge_elems_lookup ss os ms :
  merge_elems ss os = Ok ms →
  ∀ i, match ss !! i with
       | Some s => ∃ v, mergeValue s (default VUndefined (os !! i)) = Ok v
                        ∧ ms !! i = Some v
       | None => ms !! i = os !! i
       end.
Proof.
  revert os ms. induction ss as [| s ss IH]; intros os ms Hms i.
  { cbn in Hms. injection Hms as <-. done. }
  cbn [merge_elems] in Hms.
  apply bind_result_Ok in Hms as (v & Hv & Hms).
  apply bind_result_Ok in Hms as (rest & Hrest & [= <-]).
  destruct i as [| i]; cbn.
  - exists v. split; [| done]. by destruct os.
  - specialize (IH _ _ Hrest i). by destruct os.
Qed.

(** A value merged into nothing or into anything keeps its kind. *)
Lemma mergeValue_shape s a v :
  mergeValue s a = Ok v →
  match s with
  | VUndefined => v = a
  | VArr _ => ∃ elems, v = VArr elems
  | VObj _ => ∃ props, v = VObj props
  | _ => v = s
  end.
Proof.
  destruct s; try (by intros [= <-]).
  - rewrite mergeValue_VArr. intros (target & _ & (ms & _ & ->)%fmap_result_Ok)%bind_result_Ok.
    eauto.
  - rewrite mergeValue_VObj. intros (target & _ & (ms & _ & ->)%fmap_result_Ok)%bind_result_Ok.
    eauto.
Qed.

Lemma mergeValue_is_json s :
  is_json s → ∀ a out, a = VUndefined ∨ is_json a → mergeValue s a = Ok out → is_json out.
Proof.
  induction s as [| | b | n | t | elems IH | props IH] using value_nested_ind;
    intros Hs a out Ha Hout; try (by injection Hout as <-); try done.
  - rewrite mergeValue_VArr in Hout.
    apply bind_result_Ok in Hout as (target & Htarget & Hout).
    apply fmap_result_Ok in Hout as (ms & Hms & ->).
    apply is_json_VArr in Hs. apply is_json_VArr.
    eapply merge_elems_Forall; [| | exact Hms].
    + rewrite Forall_forall in IH, Hs |- *. intros s Hin. apply IH; [done | by apply Hs].
    + destruct a; try (by injection Htarget as <-; constructor).
      * injection Htarget as <-. destruct Ha as [? | Ha]; [done |].
        by apply is_json_VArr in Ha.
      * destruct (assoc "length" props) as [[] |]; try done;
          injection Htarget as <-; constructor.
  - rewrite mergeValue_VObj in Hout.
    apply bind_result_Ok in Hout as (target & Htarget & Hout).
    apply fmap_result_Ok in Hout as (ms & Hms & ->).
    apply is_json_VObj in Hs as [Hnodup Hs]. apply is_json_VObj.
    eapply merge_props_Forall; [| | | exact Hms].
    + rewrite Forall_forall in IH, Hs |- *. intros kv Hin. apply IH; [done | by apply Hs].
    + destruct a; try (by injection Htarget as <-; constructor); try done.
      injection Htarget as <-. destruct Ha as [? | Ha]; [done |].
      by apply is_json_VObj in Ha as [? _].
    + destruct a; try (by injection Htarget as <-; constructor); try done.
      injection Htarget as <-. destruct Ha as [? | Ha]; [done |].
      by apply is_json_VObj in Ha as [_ ?].
Qed.

(** *** Copies *)

Lemma merge_elems_nil ss ms :
  merge_elems ss [] = Ok ms →
  Forall2 (λ e e', mergeValue e VUndefined = Ok e') ss ms.
Proof.
  revert ms. induction ss as [| s ss IH]; intros ms Hms.
  { cbn in Hms. injection Hms as <-. constructor. }
  cbn in Hms.
  apply bind_result_Ok in Hms as (v & Hv & Hms).
  apply bind_result_Ok in Hms as (rest & Hrest & [= <-]).
  constructor; [done | by apply IH].
Qed.

(** The copy of an element has the id of the element. *)
Lemma copy_entity_id e e' :
  is_json e → mergeValue e VUndefined = Ok e' → entity_id e' = entity_id e.
Proof.
  intros Hjson Hcopy. destruct e; try (by injection Hcopy as <-); try done.
  - by apply mergeValue_shape in Hcopy as [? ->].
  - apply is_json_VObj in Hjson as [Hnodup _].
    rewrite mergeValue_VObj in Hcopy. cbn in Hcopy.
    apply fmap_result_Ok in Hcopy as (ms & Hms & ->).
    pose proof (merge_props_assoc _ _ _ Hnodup Hms "id") as Hid. cbn in Hid |- *.
    destruct (assoc "id" props) as [s |].
    + destruct Hid as (v & Hv & ->). apply mergeValue_shape in Hv.
      destruct s; try (by subst v); try (by destruct Hv as [? ->]).
    + by rewrite Hid.
Qed.

Lemma sorted_by_id_ids (localeCompare : string → string → comparison) l l' :
  Forall2 (λ e e', entity_id e' = entity_id e) l l' →
  sorted_by_id localeCompare l → sorted_by_id localeCompare l'.
Proof.
  unfold sorted_by_id. intros Hids Hsorted. revert l' Hids.
  induction Hsorted as [| x l Hl IH Hx]; intros l' Hids.
  { apply Forall2_nil_inv_l in Hids as ->. constructor. }
  apply Forall2_cons_inv_l in Hids as (x' & l'' & Hx' & Hids & ->).
  constructor; [by apply IH |].
  clear IH Hl. induction Hids as [| y y' l l'' Hy _ IH]; [constructor |].
  apply Forall_cons in Hx as [Hxy Hx]. constructor; [| by apply IH].
  unfold elem_le in *. by rewrite Hx', Hy.
Qed.

Lemma canonical_field_copy (DEFAULT_LIMIT : nat)
    (localeCompare : string → string → comparison) elems copies :
  Forall is_json elems →
  Forall2 (λ e e', mergeValue e VUndefined = Ok e') elems copies →
  canonical_field DEFAULT_LIMIT localeCompare (VArr elems) →
  canonical_field DEFAULT_LIMIT localeCompare (VArr copies).
Proof.
  intros Hjson Hcopies Hcanonical ? [= <-] [Hne Hids].
  assert (Forall2 (λ e e', entity_id e' = entity_id e) elems copies) as Hsame.
  { clear -Hjson Hcopies. induction Hcopies as [| e e' ? ? He _ IH]; [constructor |].
    apply Forall_cons in Hjson as [Hj Hjson].
    constructor; [by apply copy_entity_id | by apply IH]. }
  destruct (Hcanonical elems eq_refl) as [Hsorted Hlen].
  { split.
    - intros ->. by apply Forall2_nil_inv_l in Hcopies.
    - clear -Hsame Hids. induction Hsame as [| e e' ? ? He _ IH]; [constructor |].
      apply Forall_cons in Hids as [Hid Hids]. constructor; [| by apply IH].
      unfold carries_id in *. by rewrite <- He. }
  split; [by eapply sorted_by_id_ids |].
  by rewrite <- (Forall2_length _ _ _ Hcopies).
Qed.

(** *** Paths *)

Lemma at_path_undefined path : default VUndefined (at_path path VUndefined) = VUndefined.
Proof. by destruct path as [| [] path]. Qed.

Lemma child_is_json k v w : is_json v → child k v = Some w → is_json w.
Proof.
  destruct k as [key | i], v; try done; cbn.
  - intros [_ Hv]%is_json_VObj Hw%assoc_elem_of.
    rewrite Forall_forall in Hv. apply (Hv _ Hw).
  - intros Hv%is_json_VArr Hw. rewrite Forall_forall in Hv.
    apply Hv. by eapply list_elem_of_lookup_2.
Qed.

Lemma at_path_is_json path v w : is_json v → at_path path v = Some w → is_json w.
Proof.
  revert v. induction path as [| k path IH]; intros v Hv; cbn.
  { by intros [= <-]. }
  destruct (child k v) as [c |] eqn:Hc; [| done]. cbn.
  apply IH. by eapply child_is_json.
Qed.

(** Where the value at a path of a merged value comes from: from the
    source, merged into what the destination has at that path, or from
    the destination. *)
Lemma mergeValue_at_path path :
  ∀ s a out w,
    is_json s →
    mergeValue s a = Ok out →
    at_path path out = Some w →
    (∃ sw, at_path path s = Some sw
           ∧ mergeValue sw (default VUndefined (at_path path a)) = Ok w)
    ∨ (a ≠ VUndefined ∧ at_path path a = Some w).
Proof.
  induction path as [| k path IH]; intros s a out w Hs Hout Hw.
  { cbn in Hw. injection Hw as <-. left. exists s. done. }
  cbn in Hw. destruct (child k out) as [c |] eqn:Hc; [| done]. cbn in Hw.
  destruct s as [| | b | n | t | elems | props]; [done | | | | | |].
  - injection Hout as <-. by destruct k.
  - injection Hout as <-. by destruct k.
  - injection Hout as <-. by destruct k.
  - injection Hout as <-. by destruct k.
  - (* arrays *)
    rewrite mergeValue_VArr in Hout.
    apply bind_result_Ok in Hout as (target & Htarget & Hout).
    apply fmap_result_Ok in Hout as (ms & Hms & ->).
    destruct k as [key | i]; [done |]. cbn in Hc.
    apply is_json_VArr in Hs. rewrite Forall_forall in Hs.
    pose proof (merge_elems_lookup _ _ _ Hms i) as Hi.
    destruct (elems !! i) as [s_i |] eqn:Hs_i.
    + destruct Hi as (v & Hv & Hms_i). rewrite Hc in Hms_i. injection Hms_i as <-.
      assert (is_json s_i) as Hjson by (apply Hs; by eapply list_elem_of_lookup_2).
      assert (default VUndefined (at_path path (default VUndefined (target !! i)))
              = default VUndefined (at_path (Index i :: path) a)
              ∧ (default VUndefined (target !! i) ≠ VUndefined →
                 child (Index i) a = Some (default VUndefined (target !! i))))
        as [Hsame Hpresent].
      { destruct a; try (injection Htarget as <-; cbn;
                         by split; [apply at_path_undefined |]).
        - injection Htarget as <-. cbn.
          destruct (elems0 !! i); cbn; [done |].
          by split; [apply at_path_undefined |].
        - assert (target = []) as ->.
          { destruct (assoc "length" props) as [[] |]; by try injection Htarget as <-. }
          cbn. by split; [apply at_path_undefined |]. }
      destruct (IH _ _ _ _ Hjson Hv Hw) as [(sw & Hsw & Hmerge) | [Hne Ha]].
      * left. exists sw. split; [cbn; by rewrite Hs_i | by rewrite <- Hsame].
      * right. specialize (Hpresent Hne).
        split; [intros ->; by destruct path | cbn [at_path]; by rewrite Hpresent].
    + right. rewrite Hc in Hi.
      assert (a = VArr target) as ->.
      { destruct a; try (injection Htarget as <-; by rewrite lookup_nil in Hi).
        - by injection Htarget as <-.
        - destruct (assoc "length" props) as [[] |]; try done;
            injection Htarget as <-; by rewrite lookup_nil in Hi. }
      split; [done |]. cbn. by rewrite <- Hi.
  - (* objects *)
    rewrite mergeValue_VObj in Hout.
    apply bind_result_Ok in Hout as (target & Htarget & Hout).
    apply fmap_result_Ok in Hout as (ms & Hms & ->).
    destruct k as [key | i]; [| done]. cbn in Hc.
    apply is_json_VObj in Hs as [Hnodup Hs]. rewrite Forall_forall in Hs.
    pose proof (merge_props_assoc _ _ _ Hnodup Hms key) as Hkey.
    assert (assoc key ms = assoc key target → a ≠ VUndefined ∧ child (Key key) a = Some c)
      as Hdest.
    { rewrite Hc. intros Htargetkey.
      destruct a as [| | | | | | oprops]; try (by injection Htarget as <-); done. }
    destruct (assoc key props) as [s_k |] eqn:Hs_k.
    + destruct (not_merged key s_k).
      { right. destruct (Hdest Hkey) as [Hne Ha]. split; [done |]. cbn in *. by rewrite Ha. }
      destruct Hkey as (v & Hv & Hms_k). rewrite Hc in Hms_k. injection Hms_k as <-.
      assert (is_json s_k) as Hjson by (apply (Hs _ (assoc_elem_of _ _ _ Hs_k))).
      assert (default VUndefined (at_path path (default VUndefined (assoc key target)))
              = default VUndefined (at_path (Key key :: path) a)
              ∧ (default VUndefined (assoc key target) ≠ VUndefined →
                 child (Key key) a = Some (default VUndefined (assoc key target))))
        as [Hsame Hpresent].
      { destruct a; try (injection Htarget as <-; cbn;
                         by split; [apply at_path_undefined |]); [done |].
        injection Htarget as <-. cbn.
        destruct (assoc key props0); cbn; [done |].
        by split; [apply at_path_undefined |]. }
      destruct (IH _ _ _ _ Hjson Hv Hw) as [(sw & Hsw & Hmerge) | [Hne Ha]].
      * left. exists sw. split; [cbn; by rewrite Hs_k | by rewrite <- Hsame].
      * right. specialize (Hpresent Hne).
        split; [intros ->; by destruct path | cbn [at_path]; by rewrite Hpresent].
    + right. destruct (Hdest Hkey) as [Hne Ha]. split; [done |]. cbn in *. by rewrite Ha.
Qed.

(** The values at the paths of length [d] are among the fields at depth
    [d]; and every array among those fields is at such a path. *)
Lemma at_path_fields path v w : at_path path v = Some w → w ∈ fields (length path) v.
Proof.
  revert v. induction path as [| k path IH]; intros v; cbn.
  { intros [= <-]. by apply list_elem_of_singleton. }
  destruct (child k v) as [c |] eqn:Hc; [| done]. cbn. intros Hw.
  apply list_elem_of_bind. exists c. split; [by apply IH |].
  unfold values_of. destruct k as [key | i], v; try done; cbn in *.
  - apply list_elem_of_fmap. exists (key, c). split; [done | by apply assoc_elem_of].
  - by eapply list_elem_of_lookup_2.
Qed.

Lemma fields_at_path d v elems :
  is_json v → VArr elems ∈ fields d v →
  ∃ path, length path = d ∧ at_path path v = Some (VArr elems).
Proof.
  revert v. induction d as [| d IH]; intros v Hv; cbn.
  { intros ->%list_elem_of_singleton. by exists []. }
  intros (c & Hin & Hc)%list_elem_of_bind.
  unfold values_of in Hc. destruct v; cbn in Hc; try (by apply elem_of_nil in Hc).
  - apply list_elem_of_fmap in Hc as (ch & -> & _).
    pose proof (fields_string d (String ch "")) as Hstr.
    rewrite Forall_forall in Hstr. by destruct (Hstr _ Hin) as [t ?].
  - apply list_elem_of_lookup in Hc as [i Hi].
    destruct (IH c) as (path & Hlen & Hpath); [| done |].
    { eapply (child_is_json (Index i)); [exact Hv | done]. }
    exists (Index i :: path). split; [by rewrite <- Hlen |]. cbn. by rewrite Hi.
  - apply list_elem_of_fmap in Hc as ([key c'] & -> & Hkv). cbn in Hin.
    pose proof Hv as [Hnodup _]%is_json_VObj.
    pose proof (assoc_NoDup _ _ _ Hnodup Hkv) as Hassoc.
    destruct (IH c') as (path & Hlen & Hpath); [| done |].
    { eapply (child_is_json (Key key)); [exact Hv | done]. }
    exists (Key key :: path). split; [by rewrite <- Hlen |]. cbn. by rewrite Hassoc.
Qed.

(** The children of a value that a traversal leaves behind. *)
Lemma forEach_value_child g v v' k c' :
  forEach_value g v = Ok v' →
  child k v' = Some c' →
  ∃ c, child k v = Some c ∧ g c = Ok c'.
Proof.
  intros Hv Hc. destruct v; cbn in Hv; try done.
  - injection Hv as <-. by destruct k.
  - injection Hv as <-. by destruct k.
  - apply bind_result_Ok in Hv as (_ & _ & [= <-]). by destruct k.
  - apply fmap_result_Ok in Hv as (elems' & Hm & ->). apply mapM_Ok in Hm.
    destruct k as [key | i]; [done |]. cbn in *.
    destruct (Forall2_lookup_r _ _ _ _ _ Hm Hc) as (c & Hi & Hg). eauto.
  - apply fmap_result_Ok in Hv as (props' & Hm & ->). apply mapM_Ok in Hm.
    destruct k as [key | i]; [| done]. cbn in *.
    induction Hm as [| [k1 x] [k2 y] ? ? Hkv _ IH]; [done |].
    apply fmap_result_Ok in Hkv as (x' & Hx & [= -> ->]). cbn in *.
    destruct (k1 =? key)%string; [| by apply IH].
    injection Hc as <-. eauto.
Qed.

Lemma forEach_value_is_json g v v' :
  (∀ x x', g x = Ok x' → is_json x → is_json x') →
  forEach_value g v = Ok v' → is_json v → is_json v'.
Proof.
  intros Hg Hv. destruct v; cbn in Hv; try done.
  - by injection Hv as <-.
  - by injection Hv as <-.
  - by apply bind_result_Ok in Hv as (_ & _ & [= <-]).
  - apply fmap_result_Ok in Hv as (elems' & Hm & ->). apply mapM_Ok in Hm.
    rewrite !is_json_VArr. intros Hjson.
    induction Hm as [| x x' ? ? Hx _ IH]; [constructor |].
    apply Forall_cons in Hjson as [Hjx Hjson]. constructor; eauto.
  - apply fmap_result_Ok in Hv as (props' & Hm & ->). apply mapM_Ok in Hm.
    rewrite !is_json_VObj. intros [Hnodup Hjson].
    assert (props'.*1 = props.*1) as ->.
    { clear -Hm. induction Hm as [| kv kv' ? ? Hkv _ IH]; [done |].
      apply fmap_result_Ok in Hkv as (x' & _ & ->). cbn. by rewrite IH. }
    split; [done |]. clear Hnodup.
    induction Hm as [| kv kv' ? ? Hkv _ IH]; [constructor |].
    apply Forall_cons in Hjson as [Hjx Hjson].
    apply fmap_result_Ok in Hkv as (x' & Hx & ->). constructor; cbn; eauto.
Qed.

Section Sorted.

Variable DEFAULT_LIMIT : nat.
Variable localeCompare : string → string → comparison.
Hypothesis localeCompare_total : ∀ a b, id_le localeCompare a b ∨ id_le localeCompare b a.
Hypothesis localeCompare_trans :
  ∀ a b c, id_le localeCompare a b → id_le localeCompare b c → id_le localeCompare a c.

Local Abbreviation canonical_field := (Spec.canonical_field DEFAULT_LIMIT localeCompare).

Lemma canonical_state_fields state :
  Forall canonical_field (relation_fields state)
  → canonical_state DEFAULT_LIMIT localeCompare state.
Proof.
  intros Hall elems Hin Harr. rewrite Forall_forall in Hall.
  by apply (Hall _ Hin).
Qed.

Lemma sortAndLimit_canonical f f' :
  sortAndLimit DEFAULT_LIMIT localeCompare f = Ok f' → canonical_field f'.
Proof.
  intros Hf elems -> Harr. destruct Harr as [Hne Hids].
  destruct f as [| | | | | [| first rest] |]; cbn in Hf; try done.
  - by injection Hf as <-.
  - apply bind_result_Ok in Hf as (id0 & Hid0 & Hf).
    destruct (truthy id0) eqn:Htruthy.
    + apply bind_result_Ok in Hf as (sorted & Hsort & [= <-]). split.
      * apply sorted_by_id_take.
        by eapply sort_by_id_sorted.
      * rewrite length_take. lia.
    + injection Hf as <-.
      apply Forall_cons in Hids as [(s & Hs & Hnonempty) _].
      rewrite (entity_id_get_prop _ _ Hs) in Hid0. injection Hid0 as <-.
      cbn in Htruthy. apply negb_false_iff, String.eqb_eq in Htruthy. done.
Qed.

Lemma contractIPLDState_canonical contractIPLD state :
  contractIPLDState DEFAULT_LIMIT localeCompare contractIPLD = Ok state →
  canonical_state DEFAULT_LIMIT localeCompare state.
Proof.
  intros Hstate. apply canonical_state_fields.
  assert (Hstr : ∀ s, canonical_field (VStr s)) by (by intros s elems).
  destruct contractIPLD as [ipld |]; cbn in Hstate.
  - apply bind_result_Ok in Hstate as (state0 & _ & Hstate).
    eapply (forEach_value_fields _ 2); [done | | exact Hstate].
    intros x x' Hx. eapply (forEach_value_fields _ 1); [done | | exact Hx].
    intros y y' Hy. eapply (forEach_value_fields _ 0); [done | | exact Hy].
    intros z z' Hz. cbn. constructor; [| constructor].
    by eapply sortAndLimit_canonical.
  - injection Hstate as <-. constructor.
Qed.

Lemma sortAndLimit_is_json f f' :
  sortAndLimit DEFAULT_LIMIT localeCompare f = Ok f' → is_json f → is_json f'.
Proof.
  intros Hf. destruct f as [| | | | | [| first rest] |]; cbn in Hf;
    try (by injection Hf as <-).
  apply bind_result_Ok in Hf as (id0 & _ & Hf).
  destruct (truthy id0); [| by injection Hf as <-].
  apply bind_result_Ok in Hf as (sorted & Hsort & [= <-]).
  apply sort_by_id_Permutation in Hsort.
  rewrite !is_json_VArr. intros Hjson.
  apply Forall_take. by rewrite Hsort.
Qed.

Lemma sortAndLimit_array f elems :
  sortAndLimit DEFAULT_LIMIT localeCompare f = Ok (VArr elems) → ∃ elems0, f = VArr elems0.
Proof.
  intros Hf. destruct f as [| | | | | elems0 |]; cbn in Hf; try done. eauto.
Qed.

Lemma contractIPLDState_is_json contractIPLD state :
  parsed_payload contractIPLD →
  contractIPLDState DEFAULT_LIMIT localeCompare contractIPLD = Ok state →
  is_json state.
Proof.
  destruct contractIPLD as [ipld |]; cbn.
  - intros Hparsed. specialize (Hparsed ipld eq_refl).
    intros (state0 & Hstate0 & Hstate)%bind_result_Ok.
    assert (is_json state0) as Hjson.
    { destruct (data ipld) as [| | | | | | dprops]; try done;
        try (injection Hstate0 as <-; done).
      cbn in Hstate0. injection Hstate0 as <-.
      destruct (assoc "state" dprops) as [v |] eqn:Hassoc; [| done].
      by apply (child_is_json (Key "state") (VObj dprops)). }
    eapply forEach_value_is_json; [| exact Hstate | done].
    intros x x'. apply forEach_value_is_json.
    intros y y'. apply forEach_value_is_json.
    apply sortAndLimit_is_json.
  - intros _ [= <-]. apply is_json_VObj. split; constructor.
Qed.

(** Sorting and limiting leaves the arrays of a state where they are. *)
Lemma contractIPLDState_array_at contractIPLD state path elems :
  contractIPLDState DEFAULT_LIMIT localeCompare contractIPLD = Ok state →
  length path = 3%nat →
  at_path path state = Some (VArr elems) →
  holds_array_at path contractIPLD.
Proof.
  intros Hstate Hlen Hpath.
  destruct path as [| k1 [| k2 [| k3 [| ]]]]; try done. clear Hlen.
  cbn in Hpath.
  destruct (child k1 state) as [c1 |] eqn:Hc1; [| done]. cbn in Hpath.
  destruct (child k2 c1) as [c2 |] eqn:Hc2; [| done]. cbn in Hpath.
  destruct (child k3 c2) as [c3 |] eqn:Hc3; [| done]. cbn in Hpath.
  injection Hpath as ->.
  destruct contractIPLD as [ipld |]; cbn in Hstate.
  - apply bind_result_Ok in Hstate as (state0 & Hstate0 & Hstate).
    destruct (forEach_value_child _ _ _ _ _ Hstate Hc1) as (d1 & Hd1 & Hg1).
    destruct (forEach_value_child _ _ _ _ _ Hg1 Hc2) as (d2 & Hd2 & Hg2).
    destruct (forEach_value_child _ _ _ _ _ Hg2 Hc3) as (d3 & Hd3 & Hg3).
    apply sortAndLimit_array in Hg3 as [elems0 ->].
    exists ipld, state0, elems0. split; [done |]. split; [done |].
    cbn. rewrite Hd1. cbn. rewrite Hd2. cbn. by rewrite Hd3.
  - injection Hstate as <-. by destruct k1.
Qed.

Lemma merge_mergeValue acc state out :
  merge acc state = Ok out → mergeValue state acc = Ok out.
Proof. by destruct acc, state. Qed.

Lemma foldl_merge_Throw e states :
  foldl (λ acc state, a ← acc; merge a state) (Throw e) states = Throw e.
Proof. induction states as [| state states IH]; [done |]. cbn. exact IH. Qed.

(** The arrays at the fields of a merged state are canonical when no two
    of the states merged hold an array under the same field. *)
Lemma foldl_merge_canonical rest states :
  Forall2 (λ p s, contractIPLDState DEFAULT_LIMIT localeCompare p = Ok s) rest states →
  ∀ (seen : list (option StateIPLD)) acc out,
    is_json acc →
    (∀ path elems, length path = 3%nat → at_path path acc = Some (VArr elems) →
                   canonical_field (VArr elems)
                   ∧ ∃ p, p ∈ seen ∧ holds_array_at path p) →
    Forall parsed_payload rest →
    (∀ p q, p ∈ seen → q ∈ rest →
            ∀ path, length path = 3%nat →
                    holds_array_at path p → holds_array_at path q → False) →
    array_fields_apart rest →
    foldl (λ acc state, a ← acc; merge a state) (Ok acc) states = Ok out →
    is_json out
    ∧ ∀ path elems, length path = 3%nat → at_path path out = Some (VArr elems) →
                    canonical_field (VArr elems).
Proof.
  induction 1 as [| p s rest states Hs _ IH];
    intros seen acc out Hjson Hacc Hparsed Hseen Hapart Hout.
  { cbn in Hout. injection Hout as <-. split; [done |].
    intros path elems Hlen Hpath. by apply (Hacc path elems). }
  cbn [foldl] in Hout. cbn [mbind result_bind] in Hout.
  destruct (merge acc s) as [acc' |] eqn:Hmerge; [| by rewrite foldl_merge_Throw in Hout].
  apply merge_mergeValue in Hmerge.
  apply Forall_cons in Hparsed as [Hp Hparsed].
  unfold array_fields_apart in Hapart. inversion Hapart as [| ? ? Hp_rest Hapart']; subst.
  pose proof (contractIPLDState_is_json _ _ Hp Hs) as Hjson_s.
  apply (IH (p :: seen) acc' out); [| | done | | done | done].
  - exact (mergeValue_is_json s Hjson_s acc acc' (or_intror Hjson) Hmerge).
  - intros path elems Hlen Hpath.
    destruct (mergeValue_at_path _ _ _ _ _ Hjson_s Hmerge Hpath)
      as [(sw & Hsw & Hw) | [_ Hfrom_acc]].
    + pose proof (at_path_is_json _ _ _ Hjson_s Hsw) as Hjson_sw.
      pose proof (mergeValue_shape _ _ _ Hw) as Hshape.
      destruct sw as [| | | | | selems |]; try done; [| by destruct Hshape].
      assert (holds_array_at path p) as Hholds
          by (by eapply contractIPLDState_array_at).
      split; [| exists p; split; [by left | done]].
      rewrite mergeValue_VArr in Hw.
      apply bind_result_Ok in Hw as (target & Htarget & Hw).
      apply fmap_result_Ok in Hw as (copies & Hcopies & [= <-]).
      assert (target = []) as ->.
      { destruct (at_path path acc) as [aw |] eqn:Haw; cbn in Htarget;
          [| by injection Htarget as <-].
        destruct aw as [| | | | | oelems | oprops]; try (by injection Htarget as <-).
        - destruct (Hacc _ _ Hlen Haw) as [_ (q & Hq & Hholds_q)].
          destruct (Hseen q p Hq ltac:(by left) path Hlen Hholds_q Hholds).
        - destruct (assoc "length" oprops) as [[] |]; try done;
            by injection Htarget as <-. }
      apply merge_elems_nil in Hcopies.
      eapply canonical_field_copy; [| exact Hcopies |].
      * by apply is_json_VArr.
      * intros ? [= <-] Harray.
        apply (contractIPLDState_canonical _ _ Hs); [| done].
        unfold relation_fields. rewrite <- Hlen. by apply at_path_fields.
    + destruct (Hacc _ _ Hlen Hfrom_acc) as [Hcanonical (q & Hq & Hholds)].
      split; [done |]. exists q. split; [by right | done].
  - intros q q' [-> | Hq]%elem_of_cons Hq'.
    + rewrite Forall_forall in Hp_rest. by apply Hp_rest.
    + apply Hseen; [done | by right].
Qed.


End Sorted.

End CombineIPLDState.

(** ** Order of the elements of entity-relation fields *)

Section OrderInvariance.

Import CompareUtils Spec.

Variable DEFAULT_LIMIT : nat.
Variable localeCompare : string → string → comparison.
Hypothesis localeCompare_total : ∀ a b, id_le localeCompare a b ∨ id_le localeCompare b a.
Hypothesis localeCompare_trans :
  ∀ a b c, id_le localeCompare a b → id_le localeCompare b c → id_le localeCompare a c.

Local Abbreviation keyed_le := (Spec.keyed_le localeCompare).

Lemma carries_id_truthy v :
  carries_id v → ∃ id0, get_prop v "id" = Ok id0 ∧ truthy id0 = true.
Proof.
  intros (s & Hs & Hne). exists (VStr s). split; [by apply entity_id_get_prop |].
  cbn. by apply negb_true_iff, String.eqb_neq.
Qed.

Lemma sortAndLimit_entity_array l :
  entity_array l →
  sortAndLimit DEFAULT_LIMIT localeCompare (VArr l)
  = Ok (VArr (take DEFAULT_LIMIT ((stable_sort localeCompare (key_of <$> l)).*2))).
Proof.
  intros [Hne Hids]. destruct l as [| first rest]; [done |].
  pose proof Hids as Hall. apply Forall_cons in Hids as [Hfirst _].
  destruct (carries_id_truthy _ Hfirst) as (id0 & Hid0 & Htruthy).
  unfold sortAndLimit. rewrite Hid0. cbn. rewrite Htruthy.
  by rewrite (sort_by_id_entity_array _ _ Hall).
Qed.

Lemma entity_array_Permutation l1 l2 : entity_array l1 → l1 ≡ₚ l2 → entity_array l2.
Proof.
  intros [Hne Hids] Hperm. split.
  - intros ->. by apply Permutation_nil_r in Hperm.
  - by rewrite <- Hperm.
Qed.

Lemma sortAndLimit_reordered f1 f2 :
  reordered_field (ids_distinguish localeCompare) f1 f2 →
  sortAndLimit DEFAULT_LIMIT localeCompare f1
  = sortAndLimit DEFAULT_LIMIT localeCompare f2.
Proof.
  intros [v | l1 l2 Harr Hdist Hperm]; [done |].
  rewrite (sortAndLimit_entity_array _ Harr).
  rewrite (sortAndLimit_entity_array _ (entity_array_Permutation _ _ Harr Hperm)).
  do 4 f_equal.
  apply stable_sort_unique; [done.. | | by apply fmap_Permutation].
  intros x y Hx Hy Hxy Hyx.
  apply list_elem_of_fmap in Hx as (v & -> & Hv).
  apply list_elem_of_fmap in Hy as (w & -> & Hw).
  destruct Harr as [_ Hids]. rewrite Forall_forall in Hids.
  destruct (Hids _ Hv) as (s & Hs & _), (Hids _ Hw) as (t & Ht & _).
  unfold keyed_le, key_of in Hxy, Hyx. cbn in Hxy, Hyx. rewrite Hs, Ht in Hxy, Hyx.
  by rewrite (Hdist v w s t).
Qed.

Lemma mapM_Forall2_ext {A B} (R : relation A) (f : A → result B) l1 l2 :
  (∀ x y, R x y → f x = f y) → Forall2 R l1 l2 → mapM f l1 = mapM f l2.
Proof.
  intros Hf. induction 1 as [| x y l1 l2 Hxy _ IH]; cbn; [done |].
  by rewrite (Hf _ _ Hxy), IH.
Qed.

Lemma forEach_value_reordered ok d g :
  (∀ x y, reordered_at ok d x y → g x = g y) →
  ∀ v1 v2, reordered_at ok (S d) v1 v2 → forEach_value g v1 = forEach_value g v2.
Proof.
  intros Hg v1 v2 Hv.
  destruct v1, v2; cbn in Hv; try done; try congruence.
  - cbn. f_equal. eapply mapM_Forall2_ext; [| exact Hv]. done.
  - cbn. f_equal. eapply mapM_Forall2_ext; [| exact Hv].
    intros kv1 kv2 [Hk Hkv]. cbn beta. by rewrite Hk, (Hg _ _ Hkv).
Qed.

Lemma contractIPLDState_reordered p1 p2 :
  reordered_payload (ids_distinguish localeCompare) p1 p2 →
  contractIPLDState DEFAULT_LIMIT localeCompare p1
  = contractIPLDState DEFAULT_LIMIT localeCompare p2.
Proof.
  intros [| i1 i2 s1 s2 Hs1 Hs2 Hs]; [done |].
  cbn. rewrite Hs1, Hs2. cbn.
  apply (forEach_value_reordered (ids_distinguish localeCompare) 2); [| done].
  apply (forEach_value_reordered (ids_distinguish localeCompare) 1).
  apply (forEach_value_reordered (ids_distinguish localeCompare) 0).
  apply sortAndLimit_reordered.
Qed.

(** C5 (as amended).  The combined state is the same for two inputs that
    are equal up to the order of the elements of their entity-relation
    fields, provided no such field holds two different elements whose ids
    compare as equal. *)
Theorem combineIPLDState_order_invariant inputs1 inputs2 :
  Forall2 (reordered_payload (ids_distinguish localeCompare)) inputs1 inputs2 →
  combineIPLDState DEFAULT_LIMIT localeCompare inputs1
  = combineIPLDState DEFAULT_LIMIT localeCompare inputs2.
Proof.
  intros Hin. unfold combineIPLDState.
  by rewrite (mapM_Forall2_ext _ _ _ _ contractIPLDState_reordered Hin).
Qed.

End OrderInvariance.

(** *** Concrete payloads *)

Section CombineExamples.

Import CompareUtils Spec Examples.

Lemma codeUnitCompare_le a b :
  id_le codeUnitCompare a b ↔ String_as_OT.lt a b ∨ a = b.
Proof.
  unfold id_le, codeUnitCompare.
  pose proof (String_as_OT.cmp_lt a b) as Hlt.
  pose proof (String_as_OT.cmp_eq a b) as Heq.
  unfold String_as_OT.cmp in Hlt, Heq.
  destruct (String.compare a b); split; try tauto; try done.
  intros [H | H]; [apply Hlt in H | apply Heq in H]; discriminate.
Qed.

Lemma codeUnitCompare_total a b :
  id_le codeUnitCompare a b ∨ id_le codeUnitCompare b a.
Proof.
  unfold id_le, codeUnitCompare. rewrite (String.compare_antisym b a).
  destruct (String.compare a b); cbn; auto.
Qed.

Lemma codeUnitCompare_trans a b c :
  id_le codeUnitCompare a b → id_le codeUnitCompare b c → id_le codeUnitCompare a c.
Proof.
  rewrite !codeUnitCompare_le.
  intros [Hab | ->] [Hbc | ->]; auto.
  left. by eapply String_as_OT.lt_trans.
Qed.

Example combineIPLDState_sorts_and_limits :
  combineIPLDState 2 codeUnitCompare
    [author_payload "diff" [entity_ref "b" 0; entity_ref "a" 1; entity_ref "c" 2]]
  = Ok (author_state [entity_ref "a" 1; entity_ref "b" 0]).
Proof. reflexivity. Qed.

Example combineIPLDState_merges_by_index :
  combineIPLDState 100 codeUnitCompare
    [author_payload "diff" [entity_ref "a" 0; entity_ref "b" 1];
     author_payload "checkpoint" [entity_ref "c" 2]]
  = Ok (author_state [entity_ref "c" 2; entity_ref "b" 1]).
Proof. reflexivity. Qed.

Lemma entity_array_refs (refs : list (string * Z)) :
  refs ≠ [] → Forall (λ r, r.1 ≠ "") refs →
  entity_array ((λ r, entity_ref r.1 r.2) <$> refs).
Proof.
  intros Hne Hids. split.
  - by destruct refs.
  - apply Forall_fmap. eapply Forall_impl; [exact Hids |].
    intros [i n] Hi. exists i. by split.
Qed.

Lemma author_state_reordered ok blogs1 blogs2 :
  reordered_field ok (VArr blogs1) (VArr blogs2) →
  reordered_at ok 3 (author_state blogs1) (author_state blogs2).
Proof.
  intros Hblogs. cbn.
  constructor; [split; [done |] | constructor]. cbn.
  constructor; [split; [done |] | constructor]. cbn.
  constructor; [split; [done | apply reordered_same] |].
  constructor; [split; [done |] | constructor]. done.
Qed.



Lemma ids_distinguish_abc :
  ids_distinguish codeUnitCompare [entity_ref "b" 0; entity_ref "a" 1; entity_ref "c" 2].
Proof.
  intros x y s t Hx Hy Hs Ht Hst Hts.
  repeat (apply elem_of_cons in Hx as [-> | Hx]); [| | | by apply elem_of_nil in Hx];
    repeat (apply elem_of_cons in Hy as [-> | Hy]); try (by apply elem_of_nil in Hy);
    try done; injection Hs as <-; injection Ht as <-;
    solve [ by destruct Hst | by destruct Hts ].
Qed.

Lemma combineIPLDState_order_invariant_witness :
  combineIPLDState 2 codeUnitCompare
    [author_payload "diff" [entity_ref "b" 0; entity_ref "a" 1; entity_ref "c" 2]]
  = combineIPLDState 2 codeUnitCompare
      [author_payload "diff" [entity_ref "c" 2; entity_ref "b" 0; entity_ref "a" 1]].
Proof.
  apply (combineIPLDState_order_invariant 2 codeUnitCompare
           codeUnitCompare_total codeUnitCompare_trans).
  constructor; [| constructor].
  eapply reordered_present; [reflexivity | reflexivity |].
  apply author_state_reordered, reordered_perm.
  - by apply (entity_array_refs [("b", 0); ("a", 1); ("c", 2)]); repeat constructor.
  - apply ids_distinguish_abc.
  - symmetry. apply (Permutation_cons_append [_; _]).
Defined.

(** C5, as it is stated, fails: the sort is stable and compares ids only,
    so two elements with the same id stay in the order of the input. *)
Lemma combineIPLDState_same_id_order_kept :
  ¬ combined_output_order_invariant 100 codeUnitCompare.
Proof.
  intros H.
  specialize (H [author_payload "diff" [entity_ref "a" 1; entity_ref "a" 2]]
                [author_payload "diff" [entity_ref "a" 2; entity_ref "a" 1]]).
  assert (Hne : combineIPLDState 100 codeUnitCompare
                  [author_payload "diff" [entity_ref "a" 1; entity_ref "a" 2]]
                ≠ combineIPLDState 100 codeUnitCompare
                    [author_payload "diff" [entity_ref "a" 2; entity_ref "a" 1]])
    by (vm_compute; discriminate).
  apply Hne, H.
  constructor; [| constructor].
  eapply reordered_present; [reflexivity | reflexivity |].
  apply author_state_reordered, reordered_perm; [| done | apply perm_swap].
  by apply (entity_array_refs [("a", 1); ("a", 2)]); repeat constructor.
Qed.

End CombineExamples.

(** ** The chain client adapter *)

Section GetBlocks.

Import EthClient Spec.

Lemma is_future_epoch_spec err : is_future_epoch err = true ↔ err = FUTURE_EPOCH.
Proof.
  unfold FUTURE_EPOCH. destruct err as [| | code [message |] |]; cbn; try done.
  rewrite andb_true_iff, !String.eqb_eq. split.
  - by intros [-> ->].
  - by intros [= -> ->].
Qed.

(** C3.  When the upstream client rejects the request with the future
    epoch server error, [getBlocks] returns an empty list of nodes; every
    other rejection of the upstream client is thrown to the caller. *)
Theorem getBlocks_future_epoch provider blockNumber blockHash param st err :
  block_param blockNumber blockHash = Ok param →
  provider_send provider (block_method blockHash) param = Throw err →
  (err = FUTURE_EPOCH → (getBlocks provider blockNumber blockHash st).1 = Ok [])
  ∧ (err ≠ FUTURE_EPOCH → (getBlocks provider blockNumber blockHash st).1 = Throw err).
Proof.
  intros Hparam Hsend.
  unfold getBlocks, mbind, M_bind, lift, try_catch, request. rewrite Hparam, Hsend.
  destruct (is_future_epoch err) eqn:Hfuture.
  - apply is_future_epoch_spec in Hfuture. by split.
  - split; [| done]. intros Herr. apply is_future_epoch_spec in Herr. congruence.
Qed.

End GetBlocks.

Section GetFullBlocks.

Import EthClient Spec.

Lemma M_bind_Ok {A B} (m : M A) (f : A → M B) st b st' :
  (m ≫= f) st = (Ok b, st') →
  ∃ a st1, m st = (Ok a, st1) ∧ f a st1 = (Ok b, st').
Proof.
  unfold mbind, M_bind. destruct (m st) as [[a | e] st1]; [eauto | done].
Qed.

Lemma lift_Ok {A} (r : result A) st a st' :
  lift r st = (Ok a, st') → r = Ok a ∧ st' = st.
Proof. unfold lift. by intros [= -> ->]. Qed.

Lemma request_Ok {A} req (answer : result A) st a st' :
  request req answer st = (Ok a, st') →
  answer = Ok a ∧ st' = {| _cache := _cache st; sent := sent st ++ [req] |}.
Proof. unfold request. by intros [= -> <-]. Qed.

(** The header of the source is the one the table describes. *)
Lemma block_header_members rawBlock :
  block_header rawBlock = mapM (header_member rawBlock) header_fields.
Proof.
  unfold block_header, header_fields, header_member. cbn.
  destruct rawBlock as [| | b | n | s | elems | props]; try reflexivity; cbn;
    repeat match goal with
           | |- context [BigInt ?v] => destruct (BigInt v); cbn; [| reflexivity]
           | |- context [Number ?v] => destruct (Number v); cbn; [| reflexivity]
           end; reflexivity.
Qed.

(** C8.  The header that [getFullBlocks] hands to the RLP encoder has
    exactly the members Parent, UnclesDigest, Beneficiary, StateRoot,
    TxRoot, RctRoot, Bloom, Difficulty, Number, GasLimit, GasUsed, Time,
    Extra, MixDigest, Nonce and BaseFee, in that order, each taken from
    the corresponding member of the raw upstream block. *)
Theorem getFullBlocks_header provider encodeHeader escapeHexString
    blockNumber blockHash st nodes st' :
  getFullBlocks provider encodeHeader escapeHexString blockNumber blockHash st
  = (Ok nodes, st') →
  ∃ param rawBlock header node,
    block_param blockNumber blockHash = Ok param
    ∧ provider_send provider (block_method blockHash) param = Ok rawBlock
    ∧ header.*1 = header_fields.*1.*1
    ∧ Forall2 (λ field member, header_member rawBlock field = Ok member)
              header_fields header
    ∧ nodes = [node]
    ∧ f_blockByMhKey_data node = escapeHexString (encodeHeader header).
Proof.
  intros Hrun. unfold getFullBlocks in Hrun.
  apply M_bind_Ok in Hrun as (param & st1 & Hparam & Hrun).
  apply lift_Ok in Hparam as [Hparam ->].
  apply M_bind_Ok in Hrun as (rawBlock & st2 & Hsend & Hrun).
  apply request_Ok in Hsend as [Hsend ->].
  apply M_bind_Ok in Hrun as (header & st3 & Hheader & Hrun).
  apply lift_Ok in Hheader as [Hheader ->].
  apply lift_Ok in Hrun as [Hnode _].
  rewrite block_header_members in Hheader. apply mapM_Ok in Hheader.
  repeat (apply bind_result_Ok in Hnode as (? & _ & Hnode)).
  injection Hnode as <-.
  eexists param, rawBlock, header, _.
  repeat split; try done.
  clear -Hheader. unfold header_member in Hheader.
  induction Hheader as [| field member fs ms Hm _ IH]; cbn; [done |].
  f_equal; [| done].
  apply bind_result_Ok in Hm as (v & _ & Hm).
  apply bind_result_Ok in Hm as (hv & _ & Hm). by injection Hm as <-.
Qed.

End GetFullBlocks.

Section ChainExamples.

Import EthClient Spec Examples.

Example getBlocks_block_7 :
  (getBlocks (chain_provider (Ok raw_block_7) []) (Some 7) None fresh_client).1
  = Ok [ {| n_blockNumber := "7"; n_blockHash := "0xb7"; n_parentHash := "0xb6";
            n_timestamp := "100"; n_stateRoot := "0x51"; n_td := "14";
            n_txRoot := "0x52"; n_receiptRoot := "0x53" |} ].
Proof. vm_compute. reflexivity. Qed.

Example getBlocks_request :
  sent (getBlocks (chain_provider (Ok raw_block_7) []) (Some 26) None fresh_client).2
  = [ReqSend "eth_getBlockByNumber" "0x1a"].
Proof. vm_compute. reflexivity. Qed.

Example getBlocks_block_zero :
  (getBlocks (chain_provider (Ok raw_block_7) []) (Some 0) None fresh_client).1
  = Throw AssertionError.
Proof. vm_compute. reflexivity. Qed.

Lemma getBlocks_future_epoch_witness :
  (getBlocks (chain_provider (Throw FUTURE_EPOCH) []) (Some 1000) None fresh_client).1
  = Ok [].
Proof.
  apply (proj1 (getBlocks_future_epoch (chain_provider (Throw FUTURE_EPOCH) [])
                  (Some 1000) None "0x3e8" fresh_client FUTURE_EPOCH
                  eq_refl eq_refl)).
  reflexivity.
Defined.

Lemma getFullBlocks_header_witness :
  ∃ nodes st',
    getFullBlocks (chain_provider (Ok raw_block_7) []) encodeHeader_names
      escapeHexString_x (Some 7) None fresh_client = (Ok nodes, st')
    ∧ ∃ param rawBlock header node,
        block_param (Some 7) None = Ok param
        ∧ provider_send (chain_provider (Ok raw_block_7) []) (block_method None) param
          = Ok rawBlock
        ∧ header.*1 = header_fields.*1.*1
        ∧ Forall2 (λ field member, header_member rawBlock field = Ok member)
                  header_fields header
        ∧ nodes = [node]
        ∧ f_blockByMhKey_data node = escapeHexString_x (encodeHeader_names header).
Proof.
  destruct (getFullBlocks (chain_provider (Ok raw_block_7) []) encodeHeader_names
              escapeHexString_x (Some 7) None fresh_client) as [[nodes | e] st'] eqn:Hrun.
  - exists nodes, st'. split; [reflexivity |].
    exact (getFullBlocks_header _ _ _ _ _ _ _ _ Hrun).
  - vm_compute in Hrun. discriminate Hrun.
Defined.

End ChainExamples.

(** ** The caching layer *)

Section Caching.

Import EthClient Spec Examples.

Variable provider : Provider.
Variable padKey : string → string.

Lemma getCachedOrFetch_hit queryName vars fetch st cache v :
  _cache st = Some cache →
  cache !! (queryName, vars) = Some v →
  _getCachedOrFetch queryName vars fetch st = (Ok v, st).
Proof.
  intros Hcache Hhit. unfold _getCachedOrFetch, Cache_get.
  by rewrite Hcache, Hhit.
Qed.

Lemma getCachedOrFetch_miss queryName vars fetch st cache result st1 :
  _cache st = Some cache →
  cache !! (queryName, vars) = None →
  fetch st = (Ok result, st1) →
  _getCachedOrFetch queryName vars fetch st
  = (Ok result,
     {| _cache := (λ c, <[(queryName, vars) := result]> c) <$> _cache st1;
        sent := sent st1 |}).
Proof.
  intros Hcache Hmiss Hfetch. unfold _getCachedOrFetch, Cache_get, Cache_put.
  by rewrite Hcache, Hmiss, Hfetch.
Qed.

(** C7 (as amended).  With a cache configured, a call that runs through
    [_getCachedOrFetch] returns the cached value on a hit without running
    the fetch, and on a miss runs the fetch, stores its result under the
    key of the call and returns it.  [getStorageAt] is such a call: on a
    hit it leaves the client as it is, the upstream provider is not
    contacted; on a miss it sends one request and caches the answer.  The
    log query of [getLogs] is another: on a hit the only requests sent are
    those for the receipts of the transactions of the cached logs. *)
Theorem getCachedOrFetch_hit_or_miss st cache :
  _cache st = Some cache →
  (∀ queryName vars fetch v,
     cache !! (queryName, vars) = Some v →
     _getCachedOrFetch queryName vars fetch st = (Ok v, st))
  ∧ (∀ queryName vars fetch result st1,
       cache !! (queryName, vars) = None →
       fetch st = (Ok result, st1) →
       _getCachedOrFetch queryName vars fetch st
       = (Ok result,
          {| _cache := (λ c, <[(queryName, vars) := result]> c) <$> _cache st1;
             sent := sent st1 |}))
  ∧ (∀ blockHash contract slot v,
       cache !! ("getStorageAt", storage_vars padKey blockHash contract slot) = Some v →
       getStorageAt provider padKey blockHash contract slot st
       = (Ok {| value_ := v; proof_data := "null" |}, st))
  ∧ (∀ blockHash contract slot s,
       cache !! ("getStorageAt", storage_vars padKey blockHash contract slot) = None →
       provider_getStorageAt provider contract ("0x" +:+ padKey slot) blockHash = Ok s →
       getStorageAt provider padKey blockHash contract slot st
       = (Ok {| value_ := CachedString s; proof_data := "null" |},
          {| _cache := Some (<[("getStorageAt", storage_vars padKey blockHash contract slot)
                               := CachedString s]> cache);
             sent := sent st
                     ++ [ReqGetStorageAt contract ("0x" +:+ padKey slot) blockHash] |}))
  ∧ (∀ blockHash blockNumber addresses logs,
       cache !! ("getLogs", logs_vars blockHash blockNumber addresses)
       = Some (CachedLogs logs) →
       sent (getLogs provider blockHash blockNumber addresses st).2
       = sent st ++ (ReqGetTransactionReceipt <$> set_from (transactionHash <$> logs))).
Proof.
  intros Hcache. repeat split.
  - intros. by eapply getCachedOrFetch_hit.
  - intros. by eapply getCachedOrFetch_miss.
  - intros blockHash contract slot v Hhit. unfold getStorageAt, mbind, M_bind.
    by rewrite (getCachedOrFetch_hit _ _ _ _ _ _ Hcache Hhit).
  - intros blockHash contract slot s Hmiss Hanswer.
    unfold storage_vars in Hmiss |- *.
    unfold getStorageAt, mbind, M_bind.
    assert ((CachedString <$>
               request (ReqGetStorageAt contract ("0x" +:+ padKey slot) blockHash)
                 (provider_getStorageAt provider contract ("0x" +:+ padKey slot) blockHash))
              st
            = (Ok (CachedString s),
               {| _cache := _cache st;
                  sent := sent st
                          ++ [ReqGetStorageAt contract ("0x" +:+ padKey slot) blockHash] |}))
      as Hfetch by (unfold fmap, M_fmap, request; by rewrite Hanswer).
    rewrite (getCachedOrFetch_miss _ _ _ _ _ _ _ Hcache Hmiss Hfetch).
    cbn. by rewrite Hcache.
  - intros blockHash blockNumber addresses logs Hhit.
    unfold getLogs, mbind at 1, M_bind at 1.
    rewrite (getCachedOrFetch_hit _ _ _ _ _ _ Hcache Hhit).
    unfold mbind, M_bind.
    destruct (request_all _ _ _ st) as [[receipts | e] st1] eqn:Hreq.
    + unfold request_all in Hreq. injection Hreq as _ <-.
      unfold lift. by destruct (foldl _ _ receipts).
    + unfold request_all in Hreq. by injection Hreq as _ <-.
Qed.

Lemma mapM_Ok_total {A B} (f : A → B) (l : list A) :
  mapM (λ x, Ok (f x)) l = Ok (f <$> l).
Proof. induction l as [| x l IH]; cbn; [done |]. by rewrite IH. Qed.

(** The logs that the fetch of [getLogs] brings from a chain: those of the
    listed addresses, unless there are none; then all the logs of the
    block, whether addresses were listed or not. *)
Lemma fetchLogs_chain_provider block logs blockNumber n addresses st :
  Number (VStr blockNumber) = Ok (Some n) →
  let range address :=
    {| fromBlock := Some n; toBlock := Some n; filter_address := address |} in
  let watched :=
    concat ((λ address, List.filter (passes (range (Some address))) logs) <$> addresses) in
  (fetchLogs (chain_provider block logs) blockNumber addresses st).1
  = Ok (CachedLogs
          ((λ log, {| EthClient.blockNumber := EthClient.blockNumber log;
                      address := toLowerCase (address log);
                      transactionHash := transactionHash log;
                      topics := topics log;
                      EthClient.data := EthClient.data log;
                      logIndex := logIndex log |})
             <$> (if bool_decide (length watched = 0%nat)
                  then List.filter (passes (range None)) logs
                  else watched))).
Proof.
  intros Hn range watched. unfold fetchLogs, mbind, M_bind, lift, request_all.
  rewrite Hn. cbn [provider_getLogs chain_provider].
  rewrite (mapM_Ok_total
             (λ address,
                List.filter (passes {| fromBlock := Some n; toBlock := Some n;
                                       filter_address := Some address |}) logs)).
  subst watched range. cbn beta. by case_bool_decide.
Qed.

End Caching.

Section CachingExamples.

Import EthClient Spec Examples.

Lemma getCachedOrFetch_hit_or_miss_witness :
  getStorageAt (chain_provider (Ok raw_block_7) []) padKey_64 "0xb7" "0xc0" "01"
    (client_with ("getStorageAt", storage_vars padKey_64 "0xb7" "0xc0" "01")
                 (CachedString "0x99"))
  = (Ok {| value_ := CachedString "0x99"; proof_data := "null" |},
     client_with ("getStorageAt", storage_vars padKey_64 "0xb7" "0xc0" "01")
                 (CachedString "0x99")).
Proof.
  apply (proj1 (proj2 (proj2
           (getCachedOrFetch_hit_or_miss (chain_provider (Ok raw_block_7) []) padKey_64
              (client_with ("getStorageAt", storage_vars padKey_64 "0xb7" "0xc0" "01")
                           (CachedString "0x99"))
              _ eq_refl)))).
  apply lookup_singleton_eq.
Defined.

Example getStorageAt_miss :
  getStorageAt (chain_provider (Ok raw_block_7) []) padKey_64 "0xb7" "0xc0" "01" fresh_client
  = (Ok {| value_ := CachedString "0x2a"; proof_data := "null" |},
     {| _cache := Some {[ ("getStorageAt", storage_vars padKey_64 "0xb7" "0xc0" "01")
                          := CachedString "0x2a" ]};
        sent := [ReqGetStorageAt "0xc0" ("0x" +:+ padKey_64 "01") "0xb7"] |}).
Proof.
  unfold getStorageAt, mbind, M_bind.
  rewrite (getCachedOrFetch_miss _ _ _ fresh_client ∅ (CachedString "0x2a")
             {| _cache := Some ∅;
                sent := [ReqGetStorageAt "0xc0" ("0x" +:+ padKey_64 "01") "0xb7"] |}
             eq_refl (lookup_empty _) eq_refl).
  cbn. by rewrite insert_empty.
Qed.

(** C7, as it is stated, fails: [getFullBlocks] asks the upstream client
    for the block although the cache holds an entry under the key of the
    call. *)
Lemma getFullBlocks_bypasses_cache :
  ¬ (∀ provider padKey encodeHeader escapeHexString,
       reads_flow_through_cache provider padKey encodeHeader escapeHexString).
Proof.
  intros H.
  destruct (H (chain_provider (Ok raw_block_7) []) padKey_64 encodeHeader_names
              escapeHexString_x) as (_ & Hfull & _).
  specialize (Hfull None (Some "0xb7")
                (client_with ("getFullBlocks", block_vars None (Some "0xb7"))
                             (CachedString "cached"))
                _ (CachedString "cached") eq_refl (lookup_singleton_eq _ _)).
  vm_compute in Hfull. discriminate Hfull.
Qed.

Example getFullBlocks_requests_block :
  sent (getFullBlocks (chain_provider (Ok raw_block_7) []) encodeHeader_names
          escapeHexString_x None (Some "0xb7")
          (client_with ("getFullBlocks", block_vars None (Some "0xb7"))
                       (CachedString "cached"))).2
  = [ReqSend "eth_getBlockByHash" "0xb7"].
Proof. vm_compute. reflexivity. Qed.

(** C2 fails on the code.  Block 7 holds one log, of the contract [0xBB].
    Asked for the logs of block 7 of the contract [0xaa], [getLogs] finds
    none, takes that for "no addresses provided to filter", fetches the
    logs of the block without a filter and returns the log of [0xBB]. *)
Theorem getLogs_returns_unwatched_log :
  (getLogs (chain_provider (Ok raw_block_7) [log_7]) "0xb7" "7" (Some ["0xaa"])
     uncached_client)
  = (Ok [ {| account_address := "0xbb"; transaction_hash := "0x7a";
             e_topics := ["0xddf2"]; e_data := "0x01"; index := 0;
             e_status := Some 1 |} ],
     {| _cache := None;
        sent := [ ReqGetLogs {| fromBlock := Some 7; toBlock := Some 7;
                                filter_address := Some "0xaa" |};
                  ReqGetLogs {| fromBlock := Some 7; toBlock := Some 7;
                                filter_address := None |};
                  ReqGetTransactionReceipt "0x7a" ] |}).
Proof. vm_compute. reflexivity. Qed.

(** With the address of the emitting contract in the list, the same log
    comes back through the filter. *)
Example getLogs_watched_log :
  (getLogs (chain_provider (Ok raw_block_7) [log_7]) "0xb7" "7" (Some ["0xaa"; "0xbb"])
     uncached_client).1
  = Ok [ {| account_address := "0xbb"; transaction_hash := "0x7a";
            e_topics := ["0xddf2"]; e_data := "0x01"; index := 0;
            e_status := Some 1 |} ].
Proof. vm_compute. reflexivity. Qed.

End CachingExamples.

(** ** Filling state *)

Section FillStateProperties.

Import FillState Examples.

Context {Store Entity DiffData IPLDData : Type}.
Variable indexer : Indexer Store Entity DiffData IPLDData.

(** C6.  When a state record exists whose block number lies in the
    inclusive range from [startBlock] to [endBlock], [fillState] exits
    with code 1 and leaves the store as it was: nothing is created. *)
Theorem fillState_existing_state_exits dataSources startBlock endBlock σ r :
  r ∈ stateTable indexer σ →
  startBlock ≤ blockNumber r ≤ endBlock →
  fillState indexer dataSources startBlock endBlock σ = (Exit 1, σ).
Proof.
  intros Hr Hrange. unfold fillState.
  rewrite bool_decide_eq_false_2 by lia.
  unfold mbind, P_bind, getIPLDBlocks_Between, query.
  rewrite bool_decide_eq_true_2; [done |].
  assert (r ∈ filter (λ r, startBlock ≤ blockNumber r ≤ endBlock)
                     (stateTable indexer σ)) as Hin
    by (by apply list_elem_of_filter).
  destruct (filter _ _); [by apply elem_of_nil in Hin | cbn; lia].
Qed.

End FillStateProperties.

Section FillStateExamples.

Import FillState Examples.

Lemma fillState_existing_state_exits_witness :
  fillState table_indexer eden_dataSources 200 205 [diff_at 203]
  = (Exit 1, [diff_at 203]).
Proof.
  apply (fillState_existing_state_exits table_indexer eden_dataSources 200 205
           [diff_at 203] (diff_at 203)).
  - apply list_elem_of_singleton. reflexivity.
  - cbn. lia.
Defined.

Example fillState_fresh_range :
  fillState table_indexer eden_dataSources 200 205 []
  = (Normal tt,
     [ {| blockNumber := 200; blockHash := "0xb200"; contractAddress := "0xc0";
          kind := "init"; cid := "cidinit" |} ]).
Proof. vm_compute. reflexivity. Qed.

Example fillState_empty_range :
  fillState table_indexer eden_dataSources 205 200 [] = (Exit 1, []).
Proof. reflexivity. Qed.

End FillStateExamples.

(** ** The query registries of the code generator *)

Section AddQuery.

Import Codegen Examples.

Variable VariableDeclaration : Type.
Variable getGqlForSol : string → option string.
Variable getTsForGql : string → option string.

(** C10.  A call of [addQuery] with a name under which a query is stored
    leaves the stored queries as they are, on the database and on the
    client; so after a first registration of a name, every further call
    with that name changes nothing. *)
Theorem addQuery_idempotent name_ :
  (∀ (db : Database VariableDeclaration) params returnParameters,
     (∃ query, query ∈ _queries db ∧ name query = name_) →
     Database_addQuery getGqlForSol getTsForGql name_ params returnParameters db
     = Ok db)
  ∧ (∀ (db db' : Database VariableDeclaration) params returnParameters
       params' returnParameters',
       Database_addQuery getGqlForSol getTsForGql name_ params returnParameters db
       = Ok db' →
       Database_addQuery getGqlForSol getTsForGql name_ params' returnParameters' db'
       = Ok db')
  ∧ (∀ (client : Client) params,
       (∃ query, query ∈ c_queries client ∧ c_name query = name_) →
       Client_addQuery getGqlForSol getTsForGql name_ params client = Ok client)
  ∧ (∀ (client client' : Client) params params',
       Client_addQuery getGqlForSol getTsForGql name_ params client = Ok client' →
       Client_addQuery getGqlForSol getTsForGql name_ params' client' = Ok client').
Proof.
  assert (Hdb : ∀ (db : Database VariableDeclaration) params returnParameters,
            (∃ query, query ∈ _queries db ∧ name query = name_) →
            Database_addQuery getGqlForSol getTsForGql name_ params returnParameters db
            = Ok db).
  { intros db params returnParameters (query & Hin & Hname). unfold Database_addQuery.
    assert (existsb (λ query, (name query =? name_)%string) (_queries db) = true)
      as -> ; [| done].
    apply existsb_exists. exists query. split; [by apply list_elem_of_In |].
    by apply String.eqb_eq. }
  assert (Hclient : ∀ (client : Client) params,
            (∃ query, query ∈ c_queries client ∧ c_name query = name_) →
            Client_addQuery getGqlForSol getTsForGql name_ params client = Ok client).
  { intros client params (query & Hin & Hname). unfold Client_addQuery.
    assert (existsb (λ query, (c_name query =? name_)%string) (c_queries client) = true)
      as -> ; [| done].
    apply existsb_exists. exists query. split; [by apply list_elem_of_In |].
    by apply String.eqb_eq. }
  repeat split; [done | | done |].
  - intros db db' params returnParameters params' returnParameters' Hadd.
    apply Hdb. unfold Database_addQuery in Hadd.
    destruct (existsb _ (_queries db)) eqn:Hstored.
    + injection Hadd as <-. apply existsb_exists in Hstored as (query & Hin & Hname).
      exists query. split; [by apply list_elem_of_In | by apply String.eqb_eq].
    + apply bind_result_Ok in Hadd as (params'' & _ & [= <-]). cbn.
      eexists. split; [apply elem_of_app; right; by apply list_elem_of_singleton |].
      done.
  - intros client client' params params' Hadd.
    apply Hclient. unfold Client_addQuery in Hadd.
    destruct (existsb _ (c_queries client)) eqn:Hstored.
    + injection Hadd as <-. apply existsb_exists in Hstored as (query & Hin & Hname).
      exists query. split; [by apply list_elem_of_In | by apply String.eqb_eq].
    + apply bind_result_Ok in Hadd as (params'' & _ & [= <-]). cbn.
      eexists. split; [apply elem_of_app; right; by apply list_elem_of_singleton |].
      done.
Qed.

End AddQuery.

Section AddQueryExamples.

Import Codegen Examples.

Example Database_addQuery_balanceOf :
  Database_addQuery gqlForSol tsForGql "balanceOf" balanceOf_params [] empty_database
  = Ok balanceOf_database.
Proof. reflexivity. Qed.

Example Client_addQuery_balances :
  Client_addQuery gqlForSol tsForGql "_balances" balanceOf_params
    {| c_queries := []; c_templateString := "" |}
  = Ok {| c_queries := [ {| c_name := "_balances"; c_getQueryName := "_getBalances";
                            c_params := [ {| param_name := "account"; type := "string" |} ] |} ];
          c_templateString := "" |}.
Proof. reflexivity. Qed.

Example Database_addQuery_unknown_type :
  Database_addQuery gqlForSol tsForGql "f" [ {| param_name := "x"; type := "bytes" |} ] []
    empty_database
  = Throw AssertionError.
Proof. reflexivity. Qed.

Lemma addQuery_idempotent_witness :
  Database_addQuery gqlForSol tsForGql "balanceOf" [] [tt] balanceOf_database
  = Ok balanceOf_database.
Proof.
  apply (proj1 (proj2 (addQuery_idempotent unit gqlForSol tsForGql "balanceOf"))
           empty_database balanceOf_database balanceOf_params [] [] [tt]).
  reflexivity.
Defined.

End AddQueryExamples.

(* ===================================================================== *)
(** * Part III: further properties of the sources                         *)
(* ===================================================================== *)

(** ** The block readers of the chain client *)

Section BlockReaders.

Import EthClient EthClientRest Spec.

Variable provider : Provider.
Variable encodeHeader : Header → string.
Variable escapeHexString : string → string.
Variable provider_getBlockWithTransactions :
  string + Z → result (option BlockWithTransactions).

Lemma block_param_unset blockNumber blockHash :
  blockNumber = None ∨ blockNumber = Some 0 →
  blockHash = None ∨ blockHash = Some "" →
  block_param blockNumber blockHash = Throw AssertionError.
Proof. by intros [-> | ->] [-> | ->]. Qed.

(** X1.  Neither block reader can be asked for block 0 by its number: with
    no block hash (or an empty one) and the number 0 (or none), the
    assertion fails before the upstream client is contacted. *)
Theorem block_readers_reject_block_zero blockNumber blockHash st :
  blockNumber = None ∨ blockNumber = Some 0 →
  blockHash = None ∨ blockHash = Some "" →
  getBlocks provider blockNumber blockHash st = (Throw AssertionError, st)
  ∧ getFullBlocks provider encodeHeader escapeHexString blockNumber blockHash st
    = (Throw AssertionError, st)
  ∧ getBlockWithTransactions provider_getBlockWithTransactions blockNumber blockHash
    = Throw AssertionError.
Proof.
  intros Hn Hh. pose proof (block_param_unset _ _ Hn Hh) as Hparam.
  repeat split.
  - unfold getBlocks, mbind, M_bind, lift. by rewrite Hparam.
  - unfold getFullBlocks, mbind, M_bind, lift. by rewrite Hparam.
  - by destruct Hn as [-> | ->], Hh as [-> | ->].
Qed.

Lemma getBlocks_state blockNumber blockHash param st :
  block_param blockNumber blockHash = Ok param →
  (getBlocks provider blockNumber blockHash st).2
  = {| _cache := _cache st;
       sent := sent st ++ [ReqSend (block_method blockHash) param] |}.
Proof.
  intros Hparam. unfold getBlocks, mbind, M_bind, lift, try_catch, request, throw, lift.
  rewrite Hparam.
  destruct (provider_send _ _ _) as [rawBlock | err].
  - destruct (truthy rawBlock); [| done].
    match goal with |- context [match ?r with Ok _ => _ | Throw _ => _ end] =>
      destruct r as [nodes | err] end; [done |].
    by destruct (is_future_epoch err).
  - by destruct (is_future_epoch err).
Qed.

Lemma getFullBlocks_state blockNumber blockHash param st :
  block_param blockNumber blockHash = Ok param →
  (getFullBlocks provider encodeHeader escapeHexString blockNumber blockHash st).2
  = {| _cache := _cache st;
       sent := sent st ++ [ReqSend (block_method blockHash) param] |}.
Proof.
  intros Hparam. unfold getFullBlocks, mbind, M_bind, lift, request.
  rewrite Hparam.
  destruct (provider_send _ _ _) as [rawBlock | err]; [| done].
  by destruct (block_header rawBlock) as [header | err].
Qed.

(** X2.  A call of [getBlocks] or [getFullBlocks] that passes the
    assertion sends exactly one request upstream, whether it succeeds,
    finds nothing or fails, and never reads or writes the cache. *)
Theorem block_readers_send_one_request blockNumber blockHash param st :
  block_param blockNumber blockHash = Ok param →
  (getBlocks provider blockNumber blockHash st).2
  = {| _cache := _cache st;
       sent := sent st ++ [ReqSend (block_method blockHash) param] |}
  ∧ (getFullBlocks provider encodeHeader escapeHexString blockNumber blockHash st).2
    = {| _cache := _cache st;
         sent := sent st ++ [ReqSend (block_method blockHash) param] |}.
Proof.
  intros Hparam. split; [by apply getBlocks_state | by apply getFullBlocks_state].
Qed.

Lemma block_param_by_hash blockNumber h :
  h ≠ "" →
  blockNumber = None ∨ (∃ n, blockNumber = Some n ∧ 0 ≤ n < 2 ^ 53 - 1) →
  block_param blockNumber (Some h) = Ok h ∧ block_method (Some h) = "eth_getBlockByHash".
Proof.
  intros Hh Hn. apply String.eqb_neq in Hh.
  unfold block_method. rewrite Hh. split; [| done].
  unfold block_param, blockHashOrBlockNumber.
  destruct Hn as [-> | (n & -> & Hrange)]; cbn.
  - unfold assert. by rewrite Hh.
  - destruct (n =? 0); cbn.
    + unfold assert. by rewrite Hh.
    + unfold hexValue. rewrite bool_decide_eq_true_2 by done. cbn.
      unfold assert. by rewrite Hh.
Qed.

(** X3.  The block hash takes precedence over the block number: when both
    are given, the block is requested by its hash. *)
Theorem getBlocks_hash_precedence blockNumber h st :
  h ≠ "" →
  blockNumber = None ∨ (∃ n, blockNumber = Some n ∧ 0 ≤ n < 2 ^ 53 - 1) →
  sent (getBlocks provider blockNumber (Some h) st).2
  = sent st ++ [ReqSend "eth_getBlockByHash" h]
  ∧ sent (getFullBlocks provider encodeHeader escapeHexString blockNumber (Some h) st).2
    = sent st ++ [ReqSend "eth_getBlockByHash" h].
Proof.
  intros Hh Hn. destruct (block_param_by_hash _ _ Hh Hn) as [Hparam Hmethod].
  rewrite (getBlocks_state _ _ _ _ Hparam), (getFullBlocks_state _ _ _ _ Hparam).
  by rewrite Hmethod.
Qed.

End BlockReaders.

Section AbsentBlocks.

Import EthClient Spec.

Variable provider : Provider.
Variable encodeHeader : Header → string.
Variable escapeHexString : string → string.

Lemma block_header_needs_object rawBlock header :
  block_header rawBlock = Ok header → ∃ props, rawBlock = VObj props.
Proof.
  destruct rawBlock; try done. by eexists.
Qed.

(** X4.  [getBlocks] returns at most one node, and none when the upstream
    client answers with [null] (or another falsy value); [getFullBlocks]
    throws a [TypeError] on the same answer. *)
Theorem block_readers_absent_block blockNumber blockHash st :
  (∀ nodes st',
     getBlocks provider blockNumber blockHash st = (Ok nodes, st') →
     (length nodes ≤ 1)%nat)
  ∧ (∀ param rawBlock,
       block_param blockNumber blockHash = Ok param →
       provider_send provider (block_method blockHash) param = Ok rawBlock →
       truthy rawBlock = false →
       (getBlocks provider blockNumber blockHash st).1 = Ok []
       ∧ (getFullBlocks provider encodeHeader escapeHexString blockNumber blockHash st).1
         = Throw TypeError).
Proof.
  split.
  - intros nodes st'. unfold getBlocks, mbind, M_bind, lift, try_catch, request, throw, lift.
    destruct (block_param _ _) as [param |]; [| done].
    destruct (provider_send _ _ _) as [rawBlock | err].
    + destruct (truthy rawBlock).
      * match goal with |- context [match ?r with Ok _ => _ | Throw _ => _ end] =>
          destruct r as [nodes' | err] eqn:Hnodes end.
        -- intros [= <- _].
           repeat (apply bind_result_Ok in Hnodes as (? & _ & Hnodes)).
           injection Hnodes as <-. cbn. lia.
        -- destruct (is_future_epoch err); [| done]. intros [= <- _]. cbn. lia.
      * intros [= <- _]. cbn. lia.
    + destruct (is_future_epoch err); [| done]. intros [= <- _]. cbn. lia.
  - intros param rawBlock Hparam Hsend Hfalsy. split.
    + unfold getBlocks, mbind, M_bind, lift, try_catch, request.
      by rewrite Hparam, Hsend, Hfalsy.
    + unfold getFullBlocks, mbind, M_bind, lift, request.
      rewrite Hparam, Hsend.
      destruct (block_header rawBlock) as [header |] eqn:Hheader.
      * apply block_header_needs_object in Hheader as [props ->]. done.
      * destruct rawBlock; try done; cbn in Hheader; by injection Hheader as <-.
Qed.

(** X5.  [getFullBlocks] returns a block only when the raw upstream block
    is an object with a [baseFeePerGas] that [BigInt] accepts: a block
    from before the base fee was introduced is never returned. *)
Theorem getFullBlocks_needs_base_fee blockNumber blockHash st nodes st' :
  getFullBlocks provider encodeHeader escapeHexString blockNumber blockHash st
  = (Ok nodes, st') →
  ∃ param props baseFeePerGas baseFee,
    block_param blockNumber blockHash = Ok param
    ∧ provider_send provider (block_method blockHash) param = Ok (VObj props)
    ∧ assoc "baseFeePerGas" props = Some baseFeePerGas
    ∧ BigInt baseFeePerGas = Ok baseFee.
Proof.
  intros Hrun. unfold getFullBlocks in Hrun.
  apply M_bind_Ok in Hrun as (param & st1 & Hparam & Hrun).
  apply lift_Ok in Hparam as [Hparam ->].
  apply M_bind_Ok in Hrun as (rawBlock & st2 & Hsend & Hrun).
  apply request_Ok in Hsend as [Hsend ->].
  apply M_bind_Ok in Hrun as (header & st3 & Hheader & _).
  apply lift_Ok in Hheader as [Hheader ->].
  destruct (block_header_needs_object _ _ Hheader) as [props ->].
  rewrite block_header_members in Hheader. apply mapM_Ok in Hheader.
  destruct (Forall2_lookup_l _ _ _ 15%nat ("BaseFee", "baseFeePerGas", ToBigInt) Hheader eq_refl)
    as (member & _ & Hmember).
  unfold header_member in Hmember. cbn in Hmember.
  destruct (assoc "baseFeePerGas" props) as [v |] eqn:Hfee; [| done].
  cbn in Hmember. destruct (BigInt v) as [fee |] eqn:Hbig; [| done].
  by exists param, props, v, fee.
Qed.

End AbsentBlocks.

(** ** The caching layer, continued *)

Section CachingRest.

Import EthClient Spec.

Variable provider : Provider.
Variable padKey : string → string.

(** X6.  Without a cache, a call through [_getCachedOrFetch] is the fetch
    and nothing else: its result, its requests, and still no cache. *)
Theorem getCachedOrFetch_without_cache queryName vars fetch st :
  _cache st = None →
  _cache (fetch st).2 = None →
  _getCachedOrFetch queryName vars fetch st = fetch st.
Proof.
  intros Hnone Hkeeps. unfold _getCachedOrFetch. rewrite Hnone.
  destruct (fetch st) as [[result | e] [cache1 sent1]]; [| done].
  cbn in Hkeeps. by subst cache1.
Qed.

(** X7.  A fetch that fails is not cached: on a miss the error is thrown
    to the caller and the cache is left as the fetch left it. *)
Theorem getCachedOrFetch_failure_not_cached queryName vars fetch st cache e st1 :
  _cache st = Some cache →
  cache !! (queryName, vars) = None →
  fetch st = (Throw e, st1) →
  _getCachedOrFetch queryName vars fetch st = (Throw e, st1).
Proof.
  intros Hcache Hmiss Hfetch. unfold _getCachedOrFetch, Cache_get.
  by rewrite Hcache, Hmiss, Hfetch.
Qed.

(** X8.  With a cache configured, a call of [getStorageAt] that succeeded
    is repeatable without upstream traffic: the same call on the client
    it left behind returns the same result and changes nothing. *)
Theorem getStorageAt_repeat_from_cache blockHash contract slot st result st1 :
  is_Some (_cache st) →
  getStorageAt provider padKey blockHash contract slot st = (Ok result, st1) →
  getStorageAt provider padKey blockHash contract slot st1 = (Ok result, st1).
Proof.
  intros [cache Hcache] Hfirst.
  unfold getStorageAt, mbind, M_bind in Hfirst |- *.
  destruct (cache !! ("getStorageAt", storage_vars padKey blockHash contract slot))
    as [v |] eqn:Hlookup; unfold storage_vars in Hlookup.
  - rewrite (getCachedOrFetch_hit _ _ _ _ _ _ Hcache Hlookup) in Hfirst.
    injection Hfirst as <- <-.
    by rewrite (getCachedOrFetch_hit _ _ _ _ _ _ Hcache Hlookup).
  - destruct (provider_getStorageAt provider contract ("0x" +:+ padKey slot) blockHash)
      as [s | e] eqn:Hanswer.
    + assert ((CachedString <$>
                 request (ReqGetStorageAt contract ("0x" +:+ padKey slot) blockHash)
                   (Ok s))
                st
              = (Ok (CachedString s),
                 {| _cache := _cache st;
                    sent := sent st
                            ++ [ReqGetStorageAt contract ("0x" +:+ padKey slot) blockHash] |}))
        as Hfetch by reflexivity.
      rewrite (getCachedOrFetch_miss _ _ _ _ _ _ _ Hcache Hlookup Hfetch) in Hfirst.
      cbn in Hfirst. rewrite Hcache in Hfirst. cbn in Hfirst.
      injection Hfirst as <- <-.
      erewrite getCachedOrFetch_hit; [done | done |]. apply lookup_insert_eq.
    + unfold _getCachedOrFetch, Cache_get, fmap, M_fmap, request in Hfirst.
      by rewrite Hcache, Hlookup in Hfirst.
Qed.

End CachingRest.

(** ** Logs *)

Section Logs.

Import EthClient EthClientRest Spec.

Variable provider : Provider.

Lemma lower_ascii_idempotent c : lower_ascii (lower_ascii c) = lower_ascii c.
Proof. destruct c as [[] [] [] [] [] [] [] []]; reflexivity. Qed.

Lemma toLowerCase_idempotent s : toLowerCase (toLowerCase s) = toLowerCase s.
Proof.
  unfold toLowerCase. induction s as [| c s IH]; cbn; [done |].
  by rewrite lower_ascii_idempotent, IH.
Qed.

Lemma set_from_acc (xs acc : list string) :
  NoDup acc →
  let r := foldl (λ (acc : list string) x,
                    if bool_decide (x ∈ acc) then acc else (acc ++ [x])%list) acc xs in
  NoDup r ∧ ∀ x, x ∈ r ↔ x ∈ acc ∨ x ∈ xs.
Proof.
  revert acc. induction xs as [| y xs IH]; intros acc Hacc; cbn.
  - split; [done |]. intros x. rewrite elem_of_nil. tauto.
  - case_bool_decide as Hy.
    + destruct (IH acc Hacc) as [Hnd Hin]. split; [done |].
      intros x. rewrite Hin, elem_of_cons. split; [tauto |].
      intros [? | [-> | ?]]; tauto.
    + assert (NoDup (acc ++ [y])) as Hacc'.
      { apply NoDup_app. repeat split; [done | | apply NoDup_singleton].
        intros x Hx ->%list_elem_of_singleton. done. }
      destruct (IH _ Hacc') as [Hnd Hin]. split; [done |].
      intros x. rewrite Hin, elem_of_app, list_elem_of_singleton, elem_of_cons. tauto.
Qed.

(** The array made from the set holds every element once. *)
Lemma set_from_spec xs : NoDup (set_from xs) ∧ ∀ x, x ∈ set_from xs ↔ x ∈ xs.
Proof.
  destruct (set_from_acc xs [] (NoDup_nil_2)) as [Hnd Hin]. split; [done |].
  intros x. unfold set_from. rewrite Hin, elem_of_nil. tauto.
Qed.

Lemma fetchLogs_Ok blockNumber addresses st logs st' :
  fetchLogs provider blockNumber addresses st = (Ok (CachedLogs logs), st') →
  ∃ raw, logs = lowerCaseAddress <$> raw.
Proof.
  unfold fetchLogs. intros Hrun.
  apply M_bind_Ok in Hrun as (n & st1 & _ & Hrun).
  apply M_bind_Ok in Hrun as (logsByAddress & st2 & _ & Hrun).
  apply M_bind_Ok in Hrun as (raw & st3 & _ & Hrun).
  injection Hrun as <- _. by exists raw.
Qed.

(** X9.  When the queries for the listed addresses bring any log,
    [getLogs] fetches no more: the logs it fetches are the answers to
    those queries, in the order of the list, with the addresses in lower
    case, and no query without an address filter is sent. *)
Theorem fetchLogs_filtered_when_found blockNumber n addresses answers st :
  Number (VStr blockNumber) = Ok n →
  Forall2 (λ address logs,
             provider_getLogs provider (block_filter n (Some address)) = Ok logs)
          addresses answers →
  concat answers ≠ [] →
  fetchLogs provider blockNumber addresses st
  = (Ok (CachedLogs (lowerCaseAddress <$> concat answers)),
     {| _cache := _cache st;
        sent := sent st
                ++ ((λ address, ReqGetLogs (block_filter n (Some address))) <$> addresses) |}).
Proof.
  intros Hn Hanswers Hfound. apply mapM_Ok in Hanswers.
  unfold fetchLogs, mbind, M_bind, lift, request_all. rewrite Hn.
  unfold block_filter in Hanswers. rewrite Hanswers.
  rewrite bool_decide_eq_false_2; [done |].
  by destruct (concat answers).
Qed.

(** X10.  The logs that [getLogs] fetches carry their addresses in lower
    case: on a client without cache, or on a miss, every entry returned
    has a lower-case account address. *)
Theorem getLogs_addresses_lower_case blockHash blockNumber addresses st entries st' :
  (∀ cache, _cache st = Some cache →
            cache !! ("getLogs", logs_vars blockHash blockNumber addresses) = None) →
  getLogs provider blockHash blockNumber addresses st = (Ok entries, st') →
  Forall (λ entry, toLowerCase (account_address entry) = account_address entry) entries.
Proof.
  intros Hmiss Hrun. unfold getLogs in Hrun.
  apply M_bind_Ok in Hrun as (result & st1 & Hfetch & Hrun).
  destruct result as [| logs]; [done |].
  assert (∃ raw, logs = lowerCaseAddress <$> raw) as [raw ->].
  { unfold _getCachedOrFetch, Cache_get in Hfetch. unfold logs_vars in Hmiss.
    destruct (_cache st) as [cache |] eqn:Hcache.
    - rewrite (Hmiss cache eq_refl) in Hfetch. cbn in Hfetch.
      destruct (fetchLogs _ _ _ st) as [[[| fetched] | e] st2] eqn:Hf; try done.
      injection Hfetch as <- _. by eapply fetchLogs_Ok.
    - destruct (fetchLogs _ _ _ st) as [[[| fetched] | e] st2] eqn:Hf; try done.
      injection Hfetch as <- _. by eapply fetchLogs_Ok. }
  apply M_bind_Ok in Hrun as (receipts & st2 & _ & Hrun).
  apply M_bind_Ok in Hrun as (txReceiptMap & st3 & _ & Hrun).
  injection Hrun as <- _.
  rewrite <- list_fmap_compose. apply Forall_fmap, Forall_true.
  intros log. cbn. apply toLowerCase_idempotent.
Qed.

(** X11.  A call of [getLogs] that succeeds returns one entry for every
    log it fetched or found cached, in order, with the address,
    transaction hash, topics, data and index of the log; and it requests
    the receipt of every transaction of those logs exactly once. *)
Theorem getLogs_entries_and_receipts blockHash blockNumber addresses st entries st' :
  getLogs provider blockHash blockNumber addresses st = (Ok entries, st') →
  ∃ logs st1 hashes,
    _getCachedOrFetch "getLogs" (logs_vars blockHash blockNumber addresses)
      (fetchLogs provider blockNumber (default [] addresses)) st
    = (Ok (CachedLogs logs), st1)
    ∧ Forall2 (λ log entry,
                 account_address entry = address log
                 ∧ transaction_hash entry = transactionHash log
                 ∧ e_topics entry = topics log
                 ∧ e_data entry = data log
                 ∧ index entry = logIndex log)
              logs entries
    ∧ st' = {| _cache := _cache st1;
               sent := sent st1 ++ (ReqGetTransactionReceipt <$> hashes) |}
    ∧ NoDup hashes
    ∧ ∀ h, h ∈ hashes ↔ h ∈ transactionHash <$> logs.
Proof.
  intros Hrun. unfold getLogs in Hrun.
  apply M_bind_Ok in Hrun as (result & st1 & Hfetch & Hrun).
  destruct result as [| logs]; [done |].
  apply M_bind_Ok in Hrun as (receipts & st2 & Hreq & Hrun).
  apply M_bind_Ok in Hrun as (txReceiptMap & st3 & Hmap & Hrun).
  apply lift_Ok in Hmap as [_ ->].
  unfold request_all in Hreq. injection Hreq as _ <-.
  injection Hrun as <- <-.
  exists logs, st1, (set_from (transactionHash <$> logs)).
  destruct (set_from_spec (transactionHash <$> logs)) as [Hnd Hin].
  repeat split; try done; try (by apply Hin).
  apply Forall2_fmap_r, Forall_Forall2_diag, Forall_true. done.
Qed.

Lemma receipts_fold_None (receipts : list (option TransactionReceipt)) acc :
  None ∈ receipts →
  (∃ m, acc = Ok m) ∨ acc = Throw TypeError →
  foldl (λ (acc : result (gmap string TransactionReceipt)) txReceipt,
           m ← acc;
           match txReceipt with
           | Some r => Ok (<[receipt_transactionHash r := r]> m)
           | None => Throw TypeError
           end) acc receipts
  = Throw TypeError.
Proof.
  revert acc. induction receipts as [| r receipts IH]; intros acc Hin Hacc.
  { by apply elem_of_nil in Hin. }
  cbn. apply elem_of_cons in Hin as [<- | Hin].
  - assert (acc ≫= (λ _ : gmap string TransactionReceipt, Throw TypeError)
            = Throw TypeError) as -> by (by destruct Hacc as [[m ->] | ->]).
    clear. induction receipts as [| r receipts IH]; [done |]. cbn. exact IH.
  - apply IH; [done |]. destruct Hacc as [[m ->] | ->]; [| by right].
    destruct r; cbn; eauto.
Qed.

(** X12.  When the upstream client has no receipt ([null]) for the
    transaction of one of the logs, [getLogs] throws a [TypeError]. *)
Theorem getLogs_missing_receipt blockHash blockNumber addresses st logs st1 h :
  _getCachedOrFetch "getLogs" (logs_vars blockHash blockNumber addresses)
    (fetchLogs provider blockNumber (default [] addresses)) st
  = (Ok (CachedLogs logs), st1) →
  (∀ h', h' ∈ transactionHash <$> logs →
         ∃ r, provider_getTransactionReceipt provider h' = Ok r) →
  h ∈ transactionHash <$> logs →
  provider_getTransactionReceipt provider h = Ok None →
  (getLogs provider blockHash blockNumber addresses st).1 = Throw TypeError.
Proof.
  intros Hfetch Hall Hh Hnone.
  unfold getLogs, mbind at 1, M_bind at 1. unfold logs_vars in Hfetch. rewrite Hfetch.
  unfold mbind, M_bind, request_all, lift.
  destruct (set_from_spec (transactionHash <$> logs)) as [_ Hin].
  assert (∃ receipts,
            mapM (provider_getTransactionReceipt provider)
                 (set_from (transactionHash <$> logs)) = Ok receipts
            ∧ None ∈ receipts) as (receipts & -> & Hmissing).
  { assert (Forall (λ h', ∃ r, provider_getTransactionReceipt provider h' = Ok r)
                   (set_from (transactionHash <$> logs))) as Hanswered.
    { apply Forall_forall. intros h' Hh'. apply Hall. by apply Hin. }
    apply Hin in Hh. revert Hanswered Hh.
    generalize (set_from (transactionHash <$> logs)) as hashes.
    induction hashes as [| h0 hashes IH]; intros Hanswered Hh.
    { by apply elem_of_nil in Hh. }
    apply Forall_cons in Hanswered as [[r Hr] Hanswered].
    assert (∃ receipts, mapM (provider_getTransactionReceipt provider) hashes = Ok receipts
                        ∧ (h ∈ hashes → None ∈ receipts)) as (receipts & Hm & Hrest).
    { clear -Hanswered IH. destruct (decide (h ∈ hashes)) as [Hin | Hout].
      - destruct (IH Hanswered Hin) as (receipts & Hm & Hnone). eauto.
      - clear IH. induction Hanswered as [| h1 hashes [r1 Hr1] _ IH'].
        + exists []. split; [done |]. intros H. by apply elem_of_nil in H.
        + destruct IH' as (receipts & Hm & _).
          { intros H. apply Hout. by right. }
          exists (r1 :: receipts). cbn. rewrite Hr1. cbn. rewrite Hm. split; [done |].
          intros H. done. }
    exists (r :: receipts). cbn. rewrite Hr. cbn. rewrite Hm. split; [done |].
    apply elem_of_cons in Hh as [<- | Hh].
    - rewrite Hnone in Hr. injection Hr as <-. by left.
    - right. by apply Hrest. }
  cbn. by rewrite (receipts_fold_None receipts (Ok ∅) Hmissing (or_introl (ex_intro _ ∅ eq_refl))).
Qed.

End Logs.

(** ** The verifier of state meta data, continued *)

Section CheckIPLDMetaDataRest.

Import CompareUtils.

(** X13.  Checking a record a second time is skipped: after a check of a
    record of a tracked contract, the same record is skipped and the map
    of tracked CIDs stays as the first check left it. *)
Theorem checkIPLDMetaData_recheck_skipped contractIPLD m rawJson rawJson' :
  (∀ ipld, contractIPLD = Some ipld → is_Some (m !! contractAddress ipld)) →
  checkIPLDMetaData contractIPLD (checkIPLDMetaData contractIPLD m rawJson).2 rawJson'
  = (Ok Skipped, (checkIPLDMetaData contractIPLD m rawJson).2).
Proof.
  intros Htracked. destruct contractIPLD as [ipld |]; [| done].
  destruct (Htracked ipld eq_refl) as [parentCIDs Hparent].
  unfold checkIPLDMetaData at 2 3. rewrite Hparent.
  destruct ((cid ipld =? diff parentCIDs)%string
            || (cid ipld =? checkpoint parentCIDs)%string) eqn:Hskip; cbn [snd].
  - unfold checkIPLDMetaData. by rewrite Hparent, Hskip.
  - unfold checkIPLDMetaData. rewrite lookup_insert_eq.
    destruct (kind ipld =? "checkpoint")%string; cbn [diff checkpoint].
    + by rewrite (String.eqb_refl (cid ipld)), orb_true_r.
    + by rewrite (String.eqb_refl (cid ipld)).
Qed.

(** X14.  The verifier changes the tracked CIDs of the contract of the
    record only: the contracts tracked stay the same, and so does the
    entry of every other contract. *)
Theorem checkIPLDMetaData_other_contracts_untouched contractIPLD m rawJson :
  dom (checkIPLDMetaData contractIPLD m rawJson).2 = dom m
  ∧ ∀ address,
      (∀ ipld, contractIPLD = Some ipld → contractAddress ipld ≠ address) →
      (checkIPLDMetaData contractIPLD m rawJson).2 !! address = m !! address.
Proof.
  destruct contractIPLD as [ipld |]; [| done].
  unfold checkIPLDMetaData.
  destruct (m !! contractAddress ipld) as [parentCIDs |] eqn:Hparent; [| done].
  destruct ((cid ipld =? diff parentCIDs)%string
            || (cid ipld =? checkpoint parentCIDs)%string); [done |].
  cbn [snd]. split.
  - apply set_eq. intros address. rewrite !elem_of_dom.
    destruct (decide (contractAddress ipld = address)) as [<- | Hne].
    + rewrite lookup_insert_eq, Hparent. split; eauto.
    + by rewrite lookup_insert_ne.
  - intros address Hne. rewrite lookup_insert_ne; [done |]. by apply Hne.
Qed.

End CheckIPLDMetaDataRest.

(** ** Sorting and limiting, continued *)

Section SortAndLimitRest.

Import CompareUtils CompareUtilsRest Spec.

Variable DEFAULT_LIMIT : nat.
Variable localeCompare : string → string → comparison.

(** X15.  Sorting and limiting a field invents nothing: what is not an
    array is left as it is, and an array comes out as an array of
    elements of the original, each at most as often as there; when the
    array is within the limit, all of them are kept. *)
Theorem sortAndLimit_keeps_elements fieldValue out :
  sortAndLimit DEFAULT_LIMIT localeCompare fieldValue = Ok out →
  match fieldValue with
  | VArr elems =>
      ∃ kept, out = VArr kept ∧ kept ⊆+ elems
              ∧ ((length elems ≤ DEFAULT_LIMIT)%nat → kept ≡ₚ elems)
  | _ => out = fieldValue
  end.
Proof.
  intros Hout. destruct fieldValue as [| | | | | [| first rest] |]; cbn in Hout;
    try (by injection Hout as <-).
  - injection Hout as <-. by exists [].
  - apply bind_result_Ok in Hout as (id0 & _ & Hout).
    destruct (truthy id0).
    + apply bind_result_Ok in Hout as (sorted & Hsort & [= <-]).
      apply sort_by_id_Permutation in Hsort.
      exists (take DEFAULT_LIMIT sorted). split; [done |]. split.
      * rewrite <- Hsort. apply sublist_submseteq, sublist_take.
      * intros Hlen. rewrite take_ge; [done |].
        apply Permutation_length in Hsort. lia.
    + injection Hout as <-. by exists (first :: rest).
Qed.

Hypothesis localeCompare_total : ∀ a b, id_le localeCompare a b ∨ id_le localeCompare b a.
Hypothesis localeCompare_trans :
  ∀ a b c, id_le localeCompare a b → id_le localeCompare b c → id_le localeCompare a c.

Lemma stable_sort_sorted_id l :
  StronglySorted (keyed_le localeCompare) l → stable_sort localeCompare l = l.
Proof.
  induction 1 as [| x l Hl IH Hx]; [done |].
  cbn. fold (stable_sort localeCompare l). rewrite IH.
  destruct l as [| y l']; [done |]. cbn.
  apply Forall_cons in Hx as [Hxy _]. unfold keyed_le, id_le in Hxy.
  by destruct (localeCompare x.1 y.1).
Qed.

Lemma StronglySorted_take {A} (R : relation A) n l :
  StronglySorted R l → StronglySorted R (take n l).
Proof.
  intros Hs. revert n.
  induction Hs as [| x l Hs IH Hx]; intros [| n]; cbn; try constructor.
  - apply IH.
  - by apply Forall_take.
Qed.

Lemma sort_by_id_take_sorted l sorted :
  l ≠ [] →
  sort_by_id localeCompare l = Ok sorted →
  sort_by_id localeCompare (take DEFAULT_LIMIT sorted) = Ok (take DEFAULT_LIMIT sorted).
Proof.
  intros Hne. unfold sort_by_id at 1.
  destruct (mapM _ l) as [keyed |] eqn:Hk.
  - intros [= <-]. unfold sort_by_id.
    assert (Forall (λ x : string * value, entity_id x.2 = Some x.1) keyed) as Hkeyed.
    { apply mapM_Some in Hk. clear -Hk.
      induction Hk as [| v [s w] l k Hv _ IH]; [constructor |].
      constructor; [| done].
      destruct (entity_id v) eqn:Hid; [| done]. cbn in Hv. by injection Hv as <- <-. }
    assert (mapM (λ v, (λ s, (s, v)) <$> entity_id v)
                 (take DEFAULT_LIMIT ((stable_sort localeCompare keyed).*2))
            = Some (take DEFAULT_LIMIT (stable_sort localeCompare keyed))) as ->.
    { rewrite <- fmap_take. apply mapM_Some.
      apply Forall2_fmap_l, Forall_Forall2_diag, Forall_take.
      rewrite stable_sort_Permutation.
      eapply Forall_impl; [exact Hkeyed |]. intros [s v] Hv. cbn in *. by rewrite Hv. }
    rewrite stable_sort_sorted_id, fmap_take; [done |].
    by apply StronglySorted_take, stable_sort_sorted.
  - case_bool_decide as Hlen; [| done]. intros [= <-].
    destruct l as [| x [| y l]]; cbn in Hlen; [done | | lia].
    destruct DEFAULT_LIMIT as [| n]; cbn; [done |].
    unfold sort_by_id. rewrite take_nil. by rewrite Hk.
Qed.

Lemma sortAndLimit_idempotent f f' :
  sortAndLimit DEFAULT_LIMIT localeCompare f = Ok f' →
  sortAndLimit DEFAULT_LIMIT localeCompare f' = Ok f'.
Proof.
  intros Hf. destruct f as [| | | | | [| first rest] |]; cbn in Hf;
    try (by injection Hf as <-).
  apply bind_result_Ok in Hf as (id0 & Hid0 & Hf).
  destruct (truthy id0) eqn:Htruthy.
  - apply bind_result_Ok in Hf as (sorted & Hsort & [= <-]).
    assert (first :: rest ≠ []) as Hne by done.
    pose proof (sort_by_id_take_sorted _ _ Hne Hsort) as Hagain.
    destruct (take DEFAULT_LIMIT sorted) as [| first' rest'] eqn:Htake; [done |].
    cbn. destruct (get_prop first' "id") as [id1 |] eqn:Hid1.
    + cbn. destruct (truthy id1); [| done].
      rewrite Hagain. cbn.
      rewrite <- Htake, take_take. do 3 f_equal. lia.
    + exfalso. assert (first' ∈ first :: rest) as Hin.
      { rewrite <- (sort_by_id_Permutation _ _ _ Hsort).
        rewrite <- (take_drop DEFAULT_LIMIT sorted), Htake.
        apply elem_of_app. left. by left. }
      unfold sort_by_id in Hsort.
      destruct (mapM _ (first :: rest)) as [keyed |] eqn:Hk.
      * apply mapM_Some in Hk.
        apply list_elem_of_lookup in Hin as [i Hi].
        destruct (Forall2_lookup_l _ _ _ _ _ Hk Hi) as (kv & _ & Hkv).
        destruct first'; cbn in Hid1, Hkv; done.
      * case_bool_decide as Hlen; [| done].
        destruct rest; cbn in Hlen; [| lia].
        apply list_elem_of_singleton in Hin as ->. by rewrite Hid0 in Hid1.
  - injection Hf as <-. cbn. by rewrite Hid0; cbn; rewrite Htruthy.
Qed.

Lemma forEach_value_idempotent g v v' :
  (∀ x x', g x = Ok x' → g x' = Ok x') →
  forEach_value g v = Ok v' →
  forEach_value g v' = Ok v'.
Proof.
  intros Hg Hv. destruct v; cbn in Hv; try done.
  - by injection Hv as <-.
  - by injection Hv as <-.
  - apply bind_result_Ok in Hv as (k & Hk & [= <-]). cbn. by rewrite Hk.
  - apply fmap_result_Ok in Hv as (elems' & Hm & ->). cbn.
    apply mapM_Ok in Hm.
    assert (mapM g elems' = Ok elems') as ->; [| done].
    apply mapM_Ok. induction Hm; constructor; eauto.
  - apply fmap_result_Ok in Hv as (props' & Hm & ->). cbn.
    apply mapM_Ok in Hm.
    assert (mapM (λ kv : string * value, pair kv.1 <$> g kv.2) props' = Ok props') as ->;
      [| done].
    apply mapM_Ok. induction Hm as [| kv kv' ? ? Hkv _ IH]; constructor; [| done].
    apply fmap_result_Ok in Hkv as (x' & Hx & ->). cbn. by rewrite (Hg _ _ Hx).
Qed.

(** X16.  Sorting and limiting is idempotent: the state derived from a
    payload is the state derived from any payload that already holds
    that state. *)
Theorem contractIPLDState_idempotent ipld ipld' state :
  contractIPLDState DEFAULT_LIMIT localeCompare (Some ipld) = Ok state →
  get_prop (data ipld') "state" = Ok state →
  contractIPLDState DEFAULT_LIMIT localeCompare (Some ipld') = Ok state.
Proof.
  intros Hstate Hdata. cbn in *. rewrite Hdata. cbn.
  apply bind_result_Ok in Hstate as (state0 & _ & Hstate).
  eapply forEach_value_idempotent; [| exact Hstate].
  intros x x'. apply forEach_value_idempotent.
  intros y y'. apply forEach_value_idempotent.
  apply sortAndLimit_idempotent.
Qed.

End SortAndLimitRest.

(** ** Merging states, continued *)

Section MergeRest.

Import CompareUtils CompareUtilsRest Spec.

Variable DEFAULT_LIMIT : nat.
Variable localeCompare : string → string → comparison.

(** Merging a parsed value without [__proto__] members into nothing
    copies it. *)
Lemma mergeValue_undefined s :
  is_json s → no_proto_key s → mergeValue s VUndefined = Ok s.
Proof.
  induction s as [| | b | n | t | elems IH | props IH] using value_nested_ind; try done.
  - rewrite is_json_VArr, no_proto_key_VArr. intros Hjson Hplain.
    rewrite mergeValue_VArr. cbn.
    assert (merge_elems elems [] = Ok elems) as ->; [| done].
    induction IH as [| x elems Hx _ IHelems]; [done |].
    apply Forall_cons in Hjson as [Hjx Hjson].
    apply Forall_cons in Hplain as [Hpx Hplain].
    cbn. rewrite (Hx Hjx Hpx). cbn. by rewrite (IHelems Hjson Hplain).
  - rewrite is_json_VObj, no_proto_key_VObj. intros [Hnodup Hjson] [Hproto Hplain].
    rewrite mergeValue_VObj. cbn.
    assert (∀ os, (∀ k, k ∈ props.*1 → k ∉ os.*1) → merge_props props os = Ok (os ++ props))
      as Hgo.
    { clear -IH Hnodup Hjson Hproto Hplain.
      induction IH as [| [k x] props Hx _ IHprops]; intros os Hdisjoint.
      { by rewrite app_nil_r. }
      apply Forall_cons in Hjson as [Hjx Hjson].
      apply Forall_cons in Hplain as [Hpx Hplain].
      cbn in Hnodup, Hproto. apply NoDup_cons in Hnodup as [Hk Hnodup].
      apply not_elem_of_cons in Hproto as [Hkproto Hproto].
      cbn [merge_props].
      unfold not_merged. rewrite (proj2 (String.eqb_neq k "__proto__")) by done.
      cbn [andb].
      rewrite assoc_None by (apply Hdisjoint; cbn; by left).
      cbn in Hx, Hjx, Hpx. cbn. rewrite (Hx Hjx Hpx). cbn.
      rewrite assoc_set_new by (apply Hdisjoint; cbn; by left).
      rewrite (IHprops Hnodup Hjson Hproto Hplain).
      - by rewrite <- app_assoc.
      - intros k' Hk'. rewrite fmap_app. cbn.
        rewrite elem_of_app, list_elem_of_singleton.
        intros [Hin | ->]; [| done].
        revert Hin. apply Hdisjoint. cbn. by right. }
    by rewrite (Hgo [] ltac:(intros ? _; apply not_elem_of_nil)).
Qed.

Lemma merge_empty_object props :
  is_json (VObj props) → no_proto_key (VObj props) →
  merge (VObj []) (VObj props) = Ok (VObj props).
Proof.
  intros Hjson Hplain. pose proof (mergeValue_undefined _ Hjson Hplain) as Hcopy.
  rewrite mergeValue_VObj in Hcopy. cbn [merge]. by rewrite mergeValue_VObj.
Qed.

Lemma merge_object props state out :
  merge (VObj props) state = Ok out → ∃ props', out = VObj props'.
Proof.
  destruct state; try done. cbn [merge]. rewrite mergeValue_VObj. cbn.
  intros (out' & _ & ->)%fmap_result_Ok. eauto.
Qed.

Lemma foldl_merge_object props states :
  match foldl (λ acc state, a ← acc; merge a state) (Ok (VObj props)) states with
  | Ok out => ∃ props', out = VObj props'
  | Throw _ => True
  end.
Proof.
  revert props. induction states as [| state states IH] using rev_ind; intros props.
  { cbn. eauto. }
  rewrite foldl_app. cbn. specialize (IH props).
  destruct (foldl _ _ states) as [out | e]; [| done].
  destruct IH as [props' ->]. cbn [mbind result_bind].
  destruct (merge (VObj props') state) as [out |] eqn:Hmerge; [| done].
  by eapply merge_object.
Qed.

Lemma mapM_result_app {A B} (f : A → result B) l1 l2 :
  mapM f (l1 ++ l2) = (k1 ← mapM f l1; k2 ← mapM f l2; Ok (k1 ++ k2)).
Proof.
  induction l1 as [| x l1 IH]; cbn.
  - by destruct (mapM f l2).
  - destruct (f x) as [y | e]; cbn; [| done]. rewrite IH.
    destruct (mapM f l1) as [k1 | e]; cbn; [| done].
    by destruct (mapM f l2).
Qed.

Lemma forEach_value_no_proto_key g v v' :
  (∀ x x', g x = Ok x' → no_proto_key x → no_proto_key x') →
  forEach_value g v = Ok v' → no_proto_key v → no_proto_key v'.
Proof.
  intros Hg Hv. destruct v; cbn in Hv; try done.
  - by injection Hv as <-.
  - by injection Hv as <-.
  - by apply bind_result_Ok in Hv as (_ & _ & [= <-]).
  - apply fmap_result_Ok in Hv as (elems' & Hm & ->). apply mapM_Ok in Hm.
    rewrite !no_proto_key_VArr. intros Hplain.
    induction Hm as [| x x' ? ? Hx _ IH]; [constructor |].
    apply Forall_cons in Hplain as [Hpx Hplain]. constructor; eauto.
  - apply fmap_result_Ok in Hv as (props' & Hm & ->). apply mapM_Ok in Hm.
    rewrite !no_proto_key_VObj. intros [Hproto Hplain].
    assert (props'.*1 = props.*1) as ->.
    { clear -Hm. induction Hm as [| kv kv' ? ? Hkv _ IH]; [done |].
      apply fmap_result_Ok in Hkv as (x' & _ & ->). cbn. by rewrite IH. }
    split; [done |]. clear Hproto.
    induction Hm as [| kv kv' ? ? Hkv _ IH]; [constructor |].
    apply Forall_cons in Hplain as [Hpx Hplain].
    apply fmap_result_Ok in Hkv as (x' & Hx & ->). constructor; cbn; eauto.
Qed.

Lemma sortAndLimit_no_proto_key f f' :
  sortAndLimit DEFAULT_LIMIT localeCompare f = Ok f' → no_proto_key f → no_proto_key f'.
Proof.
  intros Hf. destruct f as [| | | | | [| first rest] |]; cbn in Hf;
    try (by injection Hf as <-).
  apply bind_result_Ok in Hf as (id0 & _ & Hf).
  destruct (truthy id0); [| by injection Hf as <-].
  apply bind_result_Ok in Hf as (sorted & Hsort & [= <-]).
  apply sort_by_id_Permutation in Hsort.
  rewrite !no_proto_key_VArr. intros Hplain.
  apply Forall_take. by rewrite Hsort.
Qed.

Lemma contractIPLDState_object contractIPLD state :
  object_state contractIPLD →
  contractIPLDState DEFAULT_LIMIT localeCompare contractIPLD = Ok state →
  is_json state ∧ no_proto_key state ∧ ∃ props, state = VObj props.
Proof.
  destruct contractIPLD as [ipld |]; cbn.
  - intros (Hjson & Hplain & [props Hstate]). rewrite Hstate. cbn.
    intros (props' & Hm & ->)%fmap_result_Ok.
    assert (is_json (VObj props) ∧ no_proto_key (VObj props)) as [Hprops Hpprops].
    { destruct (data ipld) as [| | | | | | dprops]; try done.
      apply is_json_VObj in Hjson as [_ Hjson].
      apply no_proto_key_VObj in Hplain as [_ Hplain]. cbn in Hstate.
      destruct (assoc "state" dprops) as [v |] eqn:Hassoc; [| done].
      cbn in Hstate. injection Hstate as ->.
      apply assoc_elem_of in Hassoc. rewrite Forall_forall in Hjson, Hplain.
      split; [apply (Hjson _ Hassoc) | apply (Hplain _ Hassoc)]. }
    split; [| split; [| eauto]].
    + eapply (forEach_value_is_json _ (VObj props)); [| by cbn; rewrite Hm | done].
      intros x x'. apply forEach_value_is_json.
      intros y y'. apply forEach_value_is_json.
      apply sortAndLimit_is_json.
    + eapply (forEach_value_no_proto_key _ (VObj props)); [| by cbn; rewrite Hm | done].
      intros x x'. apply forEach_value_no_proto_key.
      intros y y'. apply forEach_value_no_proto_key.
      apply sortAndLimit_no_proto_key.
  - intros _ [= <-]. split; [| split; [| eauto]].
    + apply is_json_VObj. split; constructor.
    + apply no_proto_key_VObj. split; [apply not_elem_of_nil | constructor].
Qed.

(** X17.  A record that was not found ([null]) contributes nothing to the
    combined state: when the first of the other records is [null], or
    holds a parsed payload without [__proto__] members whose state is an
    object, the combined state with the [null] record, at any position,
    is the combined state without it.  With no other record the two
    differ: the [null] record alone gives the empty object, no record at
    all a [TypeError]. *)
Theorem combineIPLDState_null_neutral :
  (∀ before after first rest,
     before ++ after = first :: rest →
     object_state first →
     combineIPLDState DEFAULT_LIMIT localeCompare (before ++ None :: after)
     = combineIPLDState DEFAULT_LIMIT localeCompare (before ++ after))
  ∧ combineIPLDState DEFAULT_LIMIT localeCompare [None] = Ok (VObj [])
  ∧ combineIPLDState DEFAULT_LIMIT localeCompare [] = Throw TypeError.
Proof.
  split; [| done].
  intros before after first rest Hfirst Hobject. unfold combineIPLDState.
  rewrite !mapM_result_app. cbn [mapM].
  destruct (mapM _ before) as [k1 | e] eqn:Hk1; cbn; [| done].
  destruct (mapM _ after) as [k2 | e] eqn:Hk2; cbn; [| done].
  apply mapM_Ok in Hk1, Hk2.
  destruct Hk1 as [| first1 state1 before' k1 Hstate1 Hk1].
  - cbn in Hfirst. subst after.
    destruct k2 as [| state k2]; [by apply Forall2_cons_nil_inv in Hk2 |].
    apply Forall2_cons_1 in Hk2 as [Hstate _].
    destruct (contractIPLDState_object _ _ Hobject Hstate) as (Hjson & Hplain & [props ->]).
    unfold reduce_merge. cbn [app foldl mbind result_bind].
    by rewrite merge_empty_object.
  - cbn in Hfirst. injection Hfirst as -> _.
    destruct (contractIPLDState_object _ _ Hobject Hstate1) as (_ & _ & [props ->]).
    unfold reduce_merge. cbn [app]. rewrite !foldl_app. cbn [foldl].
    pose proof (foldl_merge_object props k1) as Hacc.
    destruct (foldl _ _ k1) as [acc | e]; [| done].
    destruct Hacc as [props' ->]. done.
Qed.

End MergeRest.

(** ** Logs and their receipts *)

Section LogReceipts.

Import EthClient EthClientRest Spec.

Variable provider : Provider.

Lemma receipts_fold_Throw (receipts : list (option TransactionReceipt)) e :
  foldl (λ (acc : result (gmap string TransactionReceipt)) txReceipt,
           m ← acc;
           match txReceipt with
           | Some r => Ok (<[receipt_transactionHash r := r]> m)
           | None => Throw TypeError
           end) (Throw e) receipts
  = Throw e.
Proof. induction receipts as [| r receipts IH]; [done |]. cbn. exact IH. Qed.

Lemma receipts_fold_Ok hashes receipts m0 m :
  (∀ h r, provider_getTransactionReceipt provider h = Ok (Some r) →
          receipt_transactionHash r = h) →
  Forall2 (λ h x, provider_getTransactionReceipt provider h = Ok x) hashes receipts →
  (∀ h r, m0 !! h = Some r → provider_getTransactionReceipt provider h = Ok (Some r)) →
  foldl (λ (acc : result (gmap string TransactionReceipt)) txReceipt,
           m ← acc;
           match txReceipt with
           | Some r => Ok (<[receipt_transactionHash r := r]> m)
           | None => Throw TypeError
           end) (Ok m0) receipts
  = Ok m →
  (∀ h r, m !! h = Some r → provider_getTransactionReceipt provider h = Ok (Some r))
  ∧ (∀ h, h ∈ hashes → is_Some (m !! h))
  ∧ (∀ h, is_Some (m0 !! h) → is_Some (m !! h)).
Proof.
  intros Hconsistent Hanswers. revert m0.
  induction Hanswers as [| h0 x hashes receipts Hx _ IH]; intros m0 Hm0; cbn.
  - intros [= <-]. repeat split; [done | | done]. intros h Hh. by apply elem_of_nil in Hh.
  - destruct x as [r0 |]; [| by rewrite receipts_fold_Throw].
    pose proof (Hconsistent _ _ Hx) as Hh0. rewrite Hh0. intros Hfold.
    apply IH in Hfold as (Hm & Hhashes & Hkept).
    + repeat split; [done | |].
      * intros h [-> | Hh]%elem_of_cons; [| by apply Hhashes].
        apply Hkept. rewrite lookup_insert_eq. eauto.
      * intros h Hh. apply Hkept.
        destruct (decide (h0 = h)) as [-> | Hne].
        -- rewrite lookup_insert_eq. eauto.
        -- by rewrite lookup_insert_ne.
    + intros h r. destruct (decide (h0 = h)) as [-> | Hne].
      * rewrite lookup_insert_eq. by intros [= <-].
      * rewrite lookup_insert_ne by done. apply Hm0.
Qed.

(** X18.  When the upstream client answers the request for a receipt
    with the receipt of the transaction asked for, every entry that
    [getLogs] returns carries the status of the receipt of its own
    transaction. *)
Theorem getLogs_status_of_receipt blockHash blockNumber addresses st entries st' :
  (∀ h r, provider_getTransactionReceipt provider h = Ok (Some r) →
          receipt_transactionHash r = h) →
  getLogs provider blockHash blockNumber addresses st = (Ok entries, st') →
  Forall (λ entry,
            ∃ r, provider_getTransactionReceipt provider (transaction_hash entry)
                 = Ok (Some r)
                 ∧ e_status entry = status r)
         entries.
Proof.
  intros Hconsistent Hrun. unfold getLogs in Hrun.
  apply M_bind_Ok in Hrun as (result & st1 & Hfetch & Hrun).
  destruct result as [| logs]; [done |].
  apply M_bind_Ok in Hrun as (receipts & st2 & Hreq & Hrun).
  apply M_bind_Ok in Hrun as (txReceiptMap & st3 & Hmap & Hrun).
  apply lift_Ok in Hmap as [Hmap _].
  unfold request_all in Hreq.
  destruct (mapM _ (set_from _)) as [answers |] eqn:Hanswers; [| done].
  injection Hreq as -> _. apply mapM_Ok in Hanswers.
  injection Hrun as <- _.
  destruct (receipts_fold_Ok _ _ ∅ txReceiptMap Hconsistent Hanswers)
    as (Hm & Hhashes & _); [done | done |].
  apply Forall_fmap, Forall_forall. intros log Hlog. cbn.
  destruct (Hhashes (transactionHash log)) as [r Hr].
  { apply set_from_spec, list_elem_of_fmap. eauto. }
  exists r. split; [by apply Hm |]. by rewrite Hr.
Qed.

End LogReceipts.

(** ** The records of a block *)

Section GetIPLDsByBlockProperties.

Import CompareUtils CompareUtilsRest.

Variable getState : string → string → option string → result (option StateIPLD).

(** X19.  [getIPLDsByBlock] returns one list for every contract, in the
    order of the contracts.  The last record of a list is the answer to
    the query without a kind.  When that answer is a checkpoint of the
    block asked for, the answers to the queries for the kinds [init] and
    [diff] come before it, in this order, each one only if it is a record
    of that block; otherwise the list holds nothing else. *)
Theorem getIPLDsByBlock_structure contracts blockHash lists :
  getIPLDsByBlock getState contracts blockHash = Ok lists →
  Forall2 (λ contract stateIPLDs,
             ∃ state,
               getState blockHash contract None = Ok state
               ∧ ((∃ ipld, state = Some ipld ∧ kind ipld = "checkpoint"
                           ∧ b_hash (block ipld) = blockHash) →
                  ∃ getInitState getDiffState,
                    getState blockHash contract (Some "init") = Ok getInitState
                    ∧ getState blockHash contract (Some "diff") = Ok getDiffState
                    ∧ stateIPLDs
                      = filter (λ x, at_block blockHash x = true)
                               [getInitState; getDiffState]
                        ++ [state])
               ∧ (¬ (∃ ipld, state = Some ipld ∧ kind ipld = "checkpoint"
                             ∧ b_hash (block ipld) = blockHash) →
                  stateIPLDs = [state]))
          contracts lists.
Proof.
  intros Hlists. apply mapM_Ok in Hlists.
  eapply Forall2_impl; [exact Hlists |]. clear. cbn.
  intros contract stateIPLDs Hrun. unfold contractIPLDs in Hrun.
  apply bind_result_Ok in Hrun as (state & Hstate & Hrun).
  apply bind_result_Ok in Hrun as (earlier & Hearlier & [= <-]).
  exists state. split; [done |].
  destruct state as [ipld |]; cbn in Hearlier.
  - destruct ((kind ipld =? "checkpoint")%string
              && (b_hash (block ipld) =? blockHash)%string) eqn:Hcheckpoint.
    + apply andb_true_iff in Hcheckpoint as [Hkind%String.eqb_eq Hhash%String.eqb_eq].
      split; [intros _ | intros []; eauto].
      apply bind_result_Ok in Hearlier as (getInitState & Hinit_query & Hearlier).
      apply bind_result_Ok in Hearlier as (getDiffState & Hdiff_query & [= <-]).
      exists getInitState, getDiffState. split; [done |]. split; [done |].
      by destruct (at_block blockHash getInitState),
                  (at_block blockHash getDiffState).
    + injection Hearlier as <-. split; [| done].
      intros (ipld' & [= <-] & Hkind & Hhash).
      apply String.eqb_eq in Hkind, Hhash. by rewrite Hkind, Hhash in Hcheckpoint.
  - injection Hearlier as <-. split; [| done]. by intros (? & ? & _).
Qed.

End GetIPLDsByBlockProperties.

(** ** Filling state, continued *)

Section FillStateRestProperties.

Import FillState FillStateRest.

Context {Store Entity DiffData IPLDData : Type}.
Variable indexer : Indexer Store Entity DiffData IPLDData.

Lemma bind_exit_codes {A B} Q (m : P Store A) (f : A → P Store B) :
  exit_codes Q m → (∀ a, exit_codes Q (f a)) → exit_codes Q (m ≫= f).
Proof.
  intros Hm Hf σ code σ'. unfold mbind, P_bind.
  destruct (m σ) as [[a | c | e] σ1] eqn:Hrun; [apply Hf | | done].
  intros [= <- <-]. by eapply Hm.
Qed.

Lemma mret_exit_codes {A} Q (a : A) : exit_codes Q (mret a : P Store A).
Proof. by intros σ code σ'. Qed.

Lemma query_exit_codes {A} Q (q : Store → result A) : exit_codes Q (query Store q).
Proof. intros σ code σ'. unfold query. by destruct (q σ). Qed.

Lemma command_exit_codes Q c : exit_codes Q (command Store c).
Proof. intros σ code σ'. unfold command. by destruct (c σ) as [[] ?]. Qed.

Lemma process_exit_codes {A} (Q : Z → Prop) code :
  Q code → exit_codes Q (process_exit Store code : P Store A).
Proof. by intros HQ σ code' σ' [= <- _]. Qed.

Lemma mapM_exit_codes {A B} Q (f : A → P Store B) l :
  (∀ x, exit_codes Q (f x)) → exit_codes Q (mapM f l).
Proof.
  intros Hf. induction l as [| x l IH]; cbn [mapM]; [apply mret_exit_codes |].
  apply bind_exit_codes; [apply Hf |]. intros y.
  apply bind_exit_codes; [apply IH |]. intros k. apply mret_exit_codes.
Qed.

Lemma for_each_exit_codes {A} Q (body : A → P Store unit) xs :
  (∀ x, exit_codes Q (body x)) → exit_codes Q (for_each Store body xs).
Proof.
  intros Hbody. induction xs as [| x xs IH]; cbn [for_each]; [apply mret_exit_codes |].
  apply bind_exit_codes; [apply Hbody | by intros _].
Qed.

(** A loop ends the process only where a run of its body does. *)
Lemma for_each_exit {A} (body : A → P Store unit) xs σ code σ' :
  for_each Store body xs σ = (Exit code, σ') →
  ∃ x σ1, x ∈ xs ∧ body x σ1 = (Exit code, σ').
Proof.
  revert σ. induction xs as [| x xs IH]; intros σ; cbn [for_each]; [done |].
  unfold mbind, P_bind.
  destruct (body x σ) as [[[] | c | e] σ1] eqn:Hx; [| | done].
  - intros Hrun. destruct (IH _ Hrun) as (x' & σ2 & Hin & Hrun').
    exists x', σ2. split; [by right | done].
  - intros [= <- <-]. exists x, σ. split; [by left | done].
Qed.

(** The body of the loop ends the process only after the query for the
    blocks of the height, when their number is not one. *)
Lemma fillBlock_exit contractEntitiesMap height σ code σ' :
  fillBlock Store Entity DiffData IPLDData indexer contractEntitiesMap height σ
  = (Exit code, σ') →
  code = 1
  ∧ ∃ blocks, getBlocksAtHeight _ _ _ _ indexer height false σ' = Ok blocks
              ∧ length blocks ≠ 1%nat.
Proof.
  unfold fillBlock. unfold mbind at 1, P_bind at 1, query at 1.
  destruct (getBlocksAtHeight _ _ _ _ indexer height false σ)
    as [[| block [| block' blocks]] | e] eqn:Hblocks; [| | | done].
  - intros [= <- <-]. split; [done |]. by exists [].
  - intros Hrun. exfalso. clear Hblocks. revert σ code σ' Hrun.
    apply (bind_exit_codes (λ _, False)); [apply command_exit_codes | intros _].
    apply bind_exit_codes.
    { apply mapM_exit_codes. intros [contractAddress entities]. unfold queryContract.
      apply bind_exit_codes; [| intros ?; apply mret_exit_codes].
      apply mapM_exit_codes. intros entity. apply query_exit_codes. }
    intros queried.
    apply bind_exit_codes.
    { apply for_each_exit_codes. intros [contractAddress updatedEntitiesList].
      unfold fillContract. apply for_each_exit_codes. intros [updatedEntities entityName].
      apply for_each_exit_codes. intros updatedEntity. apply command_exit_codes. }
    intros _.
    do 4 (apply bind_exit_codes; [apply command_exit_codes | intros _]).
    destruct (isIPFSConfigured _ _ _ _ indexer); [| apply mret_exit_codes].
    apply bind_exit_codes; [apply query_exit_codes | intros ipldBlocks].
    apply bind_exit_codes; [| intros _; apply command_exit_codes].
    apply for_each_exit_codes. intros ipldBlock. apply command_exit_codes.
  - intros [= <- <-]. split; [done |]. by exists (block :: block' :: blocks).
Qed.

(** X20.  [fillState] ends the process only at its own checks, and always
    with code 1: when the range is out of order; when the range already
    holds state; or when a height of the range has no block, or more than
    one, in the store as it is then.  (The members of the indexer, whose
    class is not among the sources, return or reject.) *)
Theorem fillState_exit_code dataSources startBlock endBlock σ code σ' :
  fillState indexer dataSources startBlock endBlock σ = (Exit code, σ') →
  code = 1
  ∧ ((startBlock > endBlock ∧ σ' = σ)
     ∨ (filter (λ r, startBlock ≤ blockNumber r ≤ endBlock) (stateTable indexer σ) ≠ []
        ∧ σ' = σ)
     ∨ (∃ height blocks,
          startBlock ≤ height ≤ endBlock
          ∧ getBlocksAtHeight _ _ _ _ indexer height false σ' = Ok blocks
          ∧ length blocks ≠ 1%nat)).
Proof.
  unfold fillState. case_bool_decide as Horder.
  { intros [= <- <-]. split; [done |]. by left. }
  unfold mbind at 1, P_bind at 1, getIPLDBlocks_Between, query at 1.
  case_bool_decide as Hexisting.
  { intros [= <- <-]. split; [done |]. right. left. split; [| done].
    intros Hnone. rewrite Hnone in Hexisting. cbn in Hexisting. lia. }
  intros Hrun. apply for_each_exit in Hrun as (height & σ1 & Hin & Hrun).
  apply fillBlock_exit in Hrun as [-> (blocks & Hblocks & Hlen)].
  apply elem_of_seqZ in Hin.
  split; [done |]. right. right. exists height, blocks. split; [lia | done].
Qed.

(** X21.  When the range is in order and holds no state, and the first
    height of the range has no block, or more than one, [fillState] ends
    the process with code 1 and has written nothing. *)
Theorem fillState_missing_block_stops dataSources startBlock endBlock σ blocks :
  startBlock ≤ endBlock →
  filter (λ r, startBlock ≤ blockNumber r ≤ endBlock) (stateTable indexer σ) = [] →
  getBlocksAtHeight _ _ _ _ indexer startBlock false σ = Ok blocks →
  length blocks ≠ 1%nat →
  fillState indexer dataSources startBlock endBlock σ = (Exit 1, σ).
Proof.
  intros Hrange Hnone Hblocks Hlen. unfold fillState.
  rewrite bool_decide_eq_false_2 by lia.
  unfold mbind at 1, P_bind at 1, getIPLDBlocks_Between, query at 1. rewrite Hnone.
  rewrite bool_decide_eq_false_2 by (cbn; lia).
  rewrite seqZ_cons by lia. cbn [for_each].
  unfold mbind at 1, P_bind at 1, fillBlock.
  unfold mbind at 1, P_bind at 1, query at 1. rewrite Hblocks.
  by destruct blocks as [| block [| block' blocks]].
Qed.

End FillStateRestProperties.

Section ContractEntitiesMap.

Import FillState FillStateRest.

Lemma Map_set_keys key v m :
  (Map_set key v m).*1 = if bool_decide (key ∈ m.*1) then m.*1 else m.*1 ++ [key].
Proof.
  induction m as [| [k w] m IH]; [done |]. cbn.
  destruct (String.eqb_spec k key) as [-> | Hne]; cbn.
  - rewrite bool_decide_eq_true_2; [done | by left].
  - rewrite IH. case_bool_decide as Hin.
    + rewrite bool_decide_eq_true_2; [done | by right].
    + rewrite bool_decide_eq_false_2; [done |].
      intros [-> | ?]%elem_of_cons; done.
Qed.

Lemma Map_get_set key v m key' :
  Map_get key' (Map_set key v m) = if (key =? key')%string then Some v else Map_get key' m.
Proof.
  induction m as [| [k w] m IH]; cbn.
  - done.
  - destruct (String.eqb_spec k key) as [-> | Hne]; cbn.
    + by destruct (key =? key')%string.
    + rewrite IH. destruct (String.eqb_spec key key') as [Heq | Hne']; [| done].
      subst key'. by rewrite (proj2 (String.eqb_neq k key) Hne).
Qed.

(** X22.  The map from contracts to their entities has every contract
    address once, and for an address it holds the entities of the last
    data source with that address. *)
Theorem contractEntitiesMap_last_wins dataSources :
  NoDup (contractEntitiesMap dataSources).*1
  ∧ ∀ address,
      Map_get address (contractEntitiesMap dataSources)
      = mapping_entities <$> last (filter (λ d, source_address d = address) dataSources).
Proof.
  unfold contractEntitiesMap.
  induction dataSources as [| dataSource dataSources [IHnodup IHget]] using rev_ind.
  { split; [constructor | done]. }
  rewrite foldl_app. cbn [foldl]. split.
  - rewrite Map_set_keys. case_bool_decide as Hin; [done |].
    apply NoDup_app. repeat split; [done | | apply NoDup_singleton].
    by intros k Hk ->%list_elem_of_singleton.
  - intros address. rewrite Map_get_set, filter_app, IHget.
    rewrite filter_cons, filter_nil.
    destruct (String.eqb_spec (source_address dataSource) address) as [Heq | Hne].
    + rewrite decide_True by done. by rewrite last_snoc.
    + rewrite decide_False by done. by rewrite app_nil_r.
Qed.

End ContractEntitiesMap.

(** ** The query registries of the code generator, continued *)

Section AddQueryRest.

Import Codegen CodegenRest.

Variable VariableDeclaration : Type.
Variable getGqlForSol : string → option string.
Variable getTsForGql : string → option string.

Local Abbreviation mapped := (has_ts_type getGqlForSol getTsForGql).
Local Abbreviation mapParam' := (mapParam getGqlForSol getTsForGql).

Lemma existsb_names {A} (f : A → string) name_ (l : list A) :
  existsb (λ query, (f query =? name_)%string) l = true ↔ name_ ∈ f <$> l.
Proof.
  rewrite existsb_exists, list_elem_of_fmap. split.
  - intros (query & Hin%list_elem_of_In & Hname%String.eqb_eq). eauto.
  - intros (query & -> & Hin%list_elem_of_In). exists query. by rewrite String.eqb_refl.
Qed.

Lemma existsb_names_false {A} (f : A → string) name_ (l : list A) :
  name_ ∉ f <$> l → existsb (λ query, (f query =? name_)%string) l = false.
Proof. intros Hnew. apply not_true_iff_false. by rewrite existsb_names. Qed.

Lemma mapParam_cases param :
  (mapped param ∧ ∃ param', mapParam' param = Ok param')
  ∨ (¬ mapped param ∧ mapParam' param = Throw AssertionError).
Proof.
  unfold mapParam, has_ts_type.
  destruct (getGqlForSol (type param)) as [gql |] eqn:Hgql.
  - destruct (String.eqb_spec gql "") as [-> | Hgql_ne]; cbn.
    { right. split; [| done]. by intros (? & ? & [= <-] & ? & _). }
    destruct (getTsForGql gql) as [ts |] eqn:Hts.
    + destruct (String.eqb_spec ts "") as [-> | Hts_ne]; cbn.
      * right. split; [| done]. intros (? & ? & [= <-] & _ & Hts' & ?). congruence.
      * left. split; [| eauto]. exists gql, ts. done.
    + right. split; [| done]. intros (? & ? & [= <-] & _ & Hts' & ?). congruence.
  - right. split; [| done]. by intros (? & ? & ? & _).
Qed.

Lemma mapM_mapParam_cases params_ :
  (Forall mapped params_ ∧ ∃ params', mapM mapParam' params_ = Ok params')
  ∨ (¬ Forall mapped params_ ∧ mapM mapParam' params_ = Throw AssertionError).
Proof.
  induction params_ as [| param params_ IH]; cbn.
  { left. split; [constructor | eauto]. }
  destruct (mapParam_cases param) as [[Hmapped [param' ->]] | [Hnot ->]]; cbn.
  - destruct IH as [[Hall [params' ->]] | [Hnot ->]]; cbn.
    + left. split; [by constructor | eauto].
    + right. split; [| done]. by intros [_ Hall]%Forall_cons.
  - right. split; [| done]. by intros [Hmapped _]%Forall_cons.
Qed.

(** X23.  The names of the queries of a database stay unique: after a
    registration that succeeds, no name is stored twice if none was
    before. *)
Theorem Database_addQuery_names_unique name_ params_ returnParameters_
    (this this' : Database VariableDeclaration) :
  NoDup (name <$> _queries this) →
  Database_addQuery getGqlForSol getTsForGql name_ params_ returnParameters_ this
  = Ok this' →
  NoDup (name <$> _queries this').
Proof.
  intros Hnodup. unfold Database_addQuery.
  destruct (existsb _ (_queries this)) eqn:Hstored; [by intros [= <-] |].
  intros (params' & _ & [= <-])%bind_result_Ok. cbn. rewrite fmap_app.
  apply NoDup_app. repeat split; [done | | apply NoDup_singleton].
  intros x Hx ->%list_elem_of_singleton. apply existsb_names in Hx. cbn in Hx. congruence.
Qed.

(** X24.  The names of the queries of a client stay unique. *)
Theorem Client_addQuery_names_unique name_ params_ (this this' : Client) :
  NoDup (c_name <$> c_queries this) →
  Client_addQuery getGqlForSol getTsForGql name_ params_ this = Ok this' →
  NoDup (c_name <$> c_queries this').
Proof.
  intros Hnodup. unfold Client_addQuery.
  destruct (existsb _ (c_queries this)) eqn:Hstored; [by intros [= <-] |].
  intros (params' & _ & [= <-])%bind_result_Ok. cbn. rewrite fmap_app.
  apply NoDup_app. repeat split; [done | | apply NoDup_singleton].
  intros x Hx ->%list_elem_of_singleton. apply existsb_names in Hx. cbn in Hx. congruence.
Qed.

(** X25.  [addQuery] throws exactly when the name is new and the type of
    some parameter has no GraphQL type or no TypeScript type; what it
    throws is an assertion error.  This holds of the database and of the
    client. *)
Theorem addQuery_throws_iff name_ params_ :
  (∀ returnParameters_ (this : Database VariableDeclaration) e,
     Database_addQuery getGqlForSol getTsForGql name_ params_ returnParameters_ this
     = Throw e
     ↔ e = AssertionError ∧ (name_ ∉ name <$> _queries this)
       ∧ ¬ Forall mapped params_)
  ∧ (∀ (this : Client) e,
       Client_addQuery getGqlForSol getTsForGql name_ params_ this = Throw e
       ↔ e = AssertionError ∧ (name_ ∉ c_name <$> c_queries this)
         ∧ ¬ Forall mapped params_).
Proof.
  split.
  - intros returnParameters_ this e. unfold Database_addQuery.
    rewrite <- (existsb_names name).
    destruct (existsb _ (_queries this)) eqn:Hstored.
    { split; [done | by intros (_ & ? & _)]. }
    destruct (mapM_mapParam_cases params_) as [[Hall [params' ->]] | [Hnot ->]]; cbn.
    + split; [done | by intros (_ & _ & ?)].
    + split; [by intros [= <-] | by intros (-> & _)].
  - intros this e. unfold Client_addQuery.
    rewrite <- (existsb_names c_name).
    destruct (existsb _ (c_queries this)) eqn:Hstored.
    { split; [done | by intros (_ & ? & _)]. }
    destruct (mapM_mapParam_cases params_) as [[Hall [params' ->]] | [Hnot ->]]; cbn.
    + split; [done | by intros (_ & _ & ?)].
    + split; [by intros [= <-] | by intros (-> & _)].
Qed.

Lemma upper_ascii_underscore c : c ≠ "_"%char → upper_ascii c ≠ "_"%char.
Proof. destruct c as [[] [] [] [] [] [] [] []]; done. Qed.

Lemma upper_ascii_idempotent c : upper_ascii (upper_ascii c) = upper_ascii c.
Proof. destruct c as [[] [] [] [] [] [] [] []]; reflexivity. Qed.

Lemma charAt_0 c rest : charAt 0 (String c rest) = String c "".
Proof. unfold charAt. cbn. by destruct rest. Qed.

(** The derived names do not tell the case of the first letter. *)
Lemma prefixed_upper c rest prefix :
  c ≠ "_"%char →
  prefixed (String (upper_ascii c) rest) prefix = prefixed (String c rest) prefix.
Proof.
  intros Hc. pose proof (upper_ascii_underscore c Hc) as Hupper.
  unfold prefixed, capitalizedName. rewrite !charAt_0.
  assert (∀ a, a ≠ "_"%char → (String a "" =? "_")%string = false) as Hne.
  { intros a Ha. apply String.eqb_neq. by intros [= ->]. }
  rewrite !Hne by done. cbn [toUpperCase map_string].
  by rewrite upper_ascii_idempotent.
Qed.

(** X26.  The names derived from the name of a query do not tell the
    case of its first letter: two queries whose names differ in that
    only are both stored, under the same entity name and the same names
    of their get and save queries. *)
Theorem Database_addQuery_derived_names_collide c rest params1 params2
    returnParameters1 returnParameters2 (this this' : Database VariableDeclaration) :
  c ≠ "_"%char →
  upper_ascii c ≠ c →
  String c rest ∉ name <$> _queries this →
  String (upper_ascii c) rest ∉ name <$> _queries this →
  Database_addQuery getGqlForSol getTsForGql (String c rest) params1 returnParameters1 this
  ≫= Database_addQuery getGqlForSol getTsForGql (String (upper_ascii c) rest) params2
       returnParameters2
  = Ok this' →
  ∃ query1 query2,
    _queries this' = _queries this ++ [query1; query2]
    ∧ name query1 = String c rest
    ∧ name query2 = String (upper_ascii c) rest
    ∧ name query1 ≠ name query2
    ∧ entityName _ query1 = entityName _ query2
    ∧ getQueryName _ query1 = getQueryName _ query2
    ∧ saveQueryName _ query1 = saveQueryName _ query2.
Proof.
  intros Hc Hcase Hnew1 Hnew2 (this1 & Hfirst & Hsecond)%bind_result_Ok.
  unfold Database_addQuery in Hfirst.
  rewrite (existsb_names_false name _ _ Hnew1) in Hfirst.
  apply bind_result_Ok in Hfirst as (params1' & _ & [= <-]).
  unfold Database_addQuery in Hsecond. cbn [_queries] in Hsecond.
  rewrite (existsb_names_false name) in Hsecond.
  - apply bind_result_Ok in Hsecond as (params2' & _ & [= <-]). cbn.
    eexists _, _. split; [by rewrite <- app_assoc |]. cbn.
    split; [done |]. split; [done |].
    split; [by intros [= ?] |].
    by rewrite !prefixed_upper.
  - rewrite fmap_app, elem_of_app. cbn.
    rewrite list_elem_of_singleton. intros [? | [= ?]]; done.
Qed.

(** X27.  [addSubgraphEntities] appends the names of the object type
    definitions of the schema, in their order, to the entities of the
    database; the queries stay as they are. *)
Theorem addSubgraphEntities_object_types definitions
    (this : Database VariableDeclaration) :
  _subgraphEntities _ (addSubgraphEntities definitions this)
  = _subgraphEntities _ this
    ++ (def_name_value
          <$> filter (λ def, def_kind def = "ObjectTypeDefinition") definitions)
  ∧ _queries (addSubgraphEntities definitions this) = _queries this.
Proof.
  split; [| done]. cbn.
  generalize (_subgraphEntities _ this) as entities.
  induction definitions as [| def definitions IH]; intros entities; cbn.
  { by rewrite app_nil_r. }
  rewrite IH.
  destruct (String.eqb_spec (def_kind def) "ObjectTypeDefinition") as [Hkind | Hkind].
  - rewrite decide_True by done. cbn. by rewrite <- app_assoc.
  - by rewrite decide_False by done.
Qed.

(** X28.  The two registries of a database do not touch each other:
    registering a query and adding the entities of a subgraph schema give
    the same database in either order. *)
Theorem addSubgraphEntities_addQuery_commute definitions name_ params_ returnParameters_
    (this : Database VariableDeclaration) :
  Database_addQuery getGqlForSol getTsForGql name_ params_ returnParameters_
    (addSubgraphEntities definitions this)
  = addSubgraphEntities definitions
      <$> Database_addQuery getGqlForSol getTsForGql name_ params_ returnParameters_ this.
Proof.
  unfold Database_addQuery. cbn [_queries addSubgraphEntities].
  destruct (existsb _ (_queries this)); [done |].
  by destruct (mapM _ params_).
Qed.

End AddQueryRest.

(** ** Concrete cases *)

Section ChainCases.

Import EthClient EthClientRest Spec Examples ExamplesRest.

Lemma block_readers_reject_block_zero_witness :
  getBlocks (chain_provider (Ok raw_block_7) []) (Some 0) None fresh_client
  = (Throw AssertionError, fresh_client)
  ∧ getFullBlocks (chain_provider (Ok raw_block_7) []) encodeHeader_names
      escapeHexString_x (Some 0) None fresh_client
    = (Throw AssertionError, fresh_client)
  ∧ getBlockWithTransactions (λ _, Ok None) (Some 0) None = Throw AssertionError.
Proof.
  apply (block_readers_reject_block_zero (chain_provider (Ok raw_block_7) [])
           encodeHeader_names escapeHexString_x (λ _, Ok None) (Some 0) None fresh_client).
  - right. reflexivity.
  - left. reflexivity.
Defined.

Lemma block_readers_send_one_request_witness :
  (getBlocks (chain_provider (Ok raw_block_7) []) (Some 7) None fresh_client).2
  = {| _cache := _cache fresh_client;
       sent := sent fresh_client ++ [ReqSend (block_method None) "0x7"] |}
  ∧ (getFullBlocks (chain_provider (Ok raw_block_7) []) encodeHeader_names
       escapeHexString_x (Some 7) None fresh_client).2
    = {| _cache := _cache fresh_client;
         sent := sent fresh_client ++ [ReqSend (block_method None) "0x7"] |}.
Proof.
  apply (block_readers_send_one_request (chain_provider (Ok raw_block_7) [])
           encodeHeader_names escapeHexString_x (Some 7) None "0x7" fresh_client).
  reflexivity.
Defined.

Lemma getBlocks_hash_precedence_witness :
  sent (getBlocks (chain_provider (Ok raw_block_7) []) (Some 8) (Some "0xb7")
          fresh_client).2
  = sent fresh_client ++ [ReqSend "eth_getBlockByHash" "0xb7"]
  ∧ sent (getFullBlocks (chain_provider (Ok raw_block_7) []) encodeHeader_names
            escapeHexString_x (Some 8) (Some "0xb7") fresh_client).2
    = sent fresh_client ++ [ReqSend "eth_getBlockByHash" "0xb7"].
Proof.
  apply (getBlocks_hash_precedence (chain_provider (Ok raw_block_7) [])
           encodeHeader_names escapeHexString_x (Some 8) "0xb7" fresh_client).
  - discriminate.
  - right. exists 8. split; [reflexivity | lia].
Defined.

Lemma block_readers_absent_block_witness :
  (getBlocks (chain_provider (Ok VNull) []) (Some 7) None fresh_client).1 = Ok []
  ∧ (getFullBlocks (chain_provider (Ok VNull) []) encodeHeader_names escapeHexString_x
       (Some 7) None fresh_client).1
    = Throw TypeError.
Proof.
  apply (proj2 (block_readers_absent_block (chain_provider (Ok VNull) [])
                  encodeHeader_names escapeHexString_x (Some 7) None fresh_client)
               "0x7" VNull); reflexivity.
Defined.

Lemma getFullBlocks_needs_base_fee_witness :
  ∃ nodes st',
    getFullBlocks (chain_provider (Ok raw_block_7) []) encodeHeader_names
      escapeHexString_x (Some 7) None fresh_client = (Ok nodes, st')
    ∧ ∃ param props baseFeePerGas baseFee,
        block_param (Some 7) None = Ok param
        ∧ provider_send (chain_provider (Ok raw_block_7) []) (block_method None) param
          = Ok (VObj props)
        ∧ assoc "baseFeePerGas" props = Some baseFeePerGas
        ∧ BigInt baseFeePerGas = Ok baseFee.
Proof.
  destruct (getFullBlocks (chain_provider (Ok raw_block_7) []) encodeHeader_names
              escapeHexString_x (Some 7) None fresh_client) as [[nodes | e] st'] eqn:Hrun.
  - exists nodes, st'. split; [reflexivity |].
    exact (getFullBlocks_needs_base_fee _ _ _ _ _ _ _ _ Hrun).
  - vm_compute in Hrun. discriminate Hrun.
Defined.

Lemma getCachedOrFetch_without_cache_witness :
  _getCachedOrFetch "getStorageAt" (storage_vars padKey_64 "0xb7" "0xc0" "01")
    (CachedString <$> request (ReqGetStorageAt "0xc0" "0x01" "0xb7") (Ok "0x2a"))
    uncached_client
  = (CachedString <$> request (ReqGetStorageAt "0xc0" "0x01" "0xb7") (Ok "0x2a"))
      uncached_client.
Proof.
  apply (getCachedOrFetch_without_cache "getStorageAt"
           (storage_vars padKey_64 "0xb7" "0xc0" "01")
           (CachedString <$> request (ReqGetStorageAt "0xc0" "0x01" "0xb7") (Ok "0x2a"))
           uncached_client); reflexivity.
Defined.

Lemma getCachedOrFetch_failure_not_cached_witness :
  _getCachedOrFetch "getStorageAt" (storage_vars padKey_64 "0xb7" "0xc0" "01")
    (request (ReqGetStorageAt "0xc0" "0x01" "0xb7") (Throw TypeError)) fresh_client
  = (Throw TypeError,
     {| _cache := Some ∅; sent := [ReqGetStorageAt "0xc0" "0x01" "0xb7"] |}).
Proof.
  apply (getCachedOrFetch_failure_not_cached "getStorageAt"
           (storage_vars padKey_64 "0xb7" "0xc0" "01")
           (request (ReqGetStorageAt "0xc0" "0x01" "0xb7") (Throw TypeError))
           fresh_client ∅ TypeError
           {| _cache := Some ∅; sent := [ReqGetStorageAt "0xc0" "0x01" "0xb7"] |}).
  - reflexivity.
  - apply lookup_empty.
  - reflexivity.
Defined.

Lemma getStorageAt_repeat_from_cache_witness :
  getStorageAt (chain_provider (Ok raw_block_7) []) padKey_64 "0xb7" "0xc0" "01"
    {| _cache := Some {[ ("getStorageAt", storage_vars padKey_64 "0xb7" "0xc0" "01")
                         := CachedString "0x2a" ]};
       sent := [ReqGetStorageAt "0xc0" ("0x" +:+ padKey_64 "01") "0xb7"] |}
  = (Ok {| value_ := CachedString "0x2a"; proof_data := "null" |},
     {| _cache := Some {[ ("getStorageAt", storage_vars padKey_64 "0xb7" "0xc0" "01")
                          := CachedString "0x2a" ]};
        sent := [ReqGetStorageAt "0xc0" ("0x" +:+ padKey_64 "01") "0xb7"] |}).
Proof.
  apply (getStorageAt_repeat_from_cache (chain_provider (Ok raw_block_7) []) padKey_64
           "0xb7" "0xc0" "01" fresh_client).
  - exists ∅. reflexivity.
  - apply getStorageAt_miss.
Defined.

Lemma fetchLogs_filtered_when_found_witness :
  fetchLogs (chain_provider (Ok raw_block_7) [log_7]) "7" ["0xbb"] fresh_client
  = (Ok (CachedLogs (lowerCaseAddress <$> concat [[log_7]])),
     {| _cache := _cache fresh_client;
        sent := sent fresh_client
                ++ ((λ address, ReqGetLogs (block_filter (Some 7) (Some address)))
                      <$> ["0xbb"]) |}).
Proof.
  apply (fetchLogs_filtered_when_found (chain_provider (Ok raw_block_7) [log_7])
           "7" (Some 7) ["0xbb"] [[log_7]] fresh_client).
  - reflexivity.
  - constructor; [reflexivity | constructor].
  - discriminate.
Defined.

Lemma getLogs_addresses_lower_case_witness :
  ∃ entries st',
    getLogs (chain_provider (Ok raw_block_7) [log_7]) "0xb7" "7" (Some ["0xbb"])
      uncached_client = (Ok entries, st')
    ∧ Forall (λ entry, toLowerCase (account_address entry) = account_address entry)
             entries.
Proof.
  destruct (getLogs (chain_provider (Ok raw_block_7) [log_7]) "0xb7" "7" (Some ["0xbb"])
              uncached_client) as [[entries | e] st'] eqn:Hrun.
  - exists entries, st'. split; [reflexivity |].
    refine (getLogs_addresses_lower_case _ _ _ _ _ _ _ _ Hrun).
    intros cache Hcache. discriminate Hcache.
  - vm_compute in Hrun. discriminate Hrun.
Defined.

Lemma getLogs_entries_and_receipts_witness :
  ∃ entries st',
    getLogs (chain_provider (Ok raw_block_7) [log_7]) "0xb7" "7" (Some ["0xbb"])
      uncached_client = (Ok entries, st')
    ∧ ∃ logs st1 hashes,
        _getCachedOrFetch "getLogs" (logs_vars "0xb7" "7" (Some ["0xbb"]))
          (fetchLogs (chain_provider (Ok raw_block_7) [log_7]) "7"
             (default [] (Some ["0xbb"]))) uncached_client
        = (Ok (CachedLogs logs), st1)
        ∧ Forall2 (λ log entry,
                     account_address entry = address log
                     ∧ transaction_hash entry = transactionHash log
                     ∧ e_topics entry = topics log
                     ∧ e_data entry = data log
                     ∧ index entry = logIndex log)
                  logs entries
        ∧ st' = {| _cache := _cache st1;
                   sent := sent st1 ++ (ReqGetTransactionReceipt <$> hashes) |}
        ∧ NoDup hashes
        ∧ ∀ h, h ∈ hashes ↔ h ∈ transactionHash <$> logs.
Proof.
  destruct (getLogs (chain_provider (Ok raw_block_7) [log_7]) "0xb7" "7" (Some ["0xbb"])
              uncached_client) as [[entries | e] st'] eqn:Hrun.
  - exists entries, st'. split; [reflexivity |].
    exact (getLogs_entries_and_receipts _ _ _ _ _ _ _ Hrun).
  - vm_compute in Hrun. discriminate Hrun.
Defined.

Lemma getLogs_missing_receipt_witness :
  (getLogs (no_receipt_provider (Ok raw_block_7) [log_7]) "0xb7" "7" (Some ["0xbb"])
     uncached_client).1
  = Throw TypeError.
Proof.
  apply (getLogs_missing_receipt (no_receipt_provider (Ok raw_block_7) [log_7])
           "0xb7" "7" (Some ["0xbb"]) uncached_client [lowerCaseAddress log_7]
           {| _cache := None;
              sent := [ReqGetLogs (block_filter (Some 7) (Some "0xbb"))] |}
           "0x7a").
  - reflexivity.
  - intros h' _. exists None. reflexivity.
  - apply list_elem_of_here.
  - reflexivity.
Defined.

Lemma getLogs_status_of_receipt_witness :
  ∃ entries st',
    getLogs (chain_provider (Ok raw_block_7) [log_7]) "0xb7" "7" (Some ["0xbb"])
      uncached_client = (Ok entries, st')
    ∧ Forall (λ entry,
                ∃ r, provider_getTransactionReceipt
                       (chain_provider (Ok raw_block_7) [log_7]) (transaction_hash entry)
                     = Ok (Some r)
                     ∧ e_status entry = status r)
             entries.
Proof.
  destruct (getLogs (chain_provider (Ok raw_block_7) [log_7]) "0xb7" "7" (Some ["0xbb"])
              uncached_client) as [[entries | e] st'] eqn:Hrun.
  - exists entries, st'. split; [reflexivity |].
    refine (getLogs_status_of_receipt _ _ _ _ _ _ _ _ Hrun).
    intros h r Hr. injection Hr as <-. reflexivity.
  - vm_compute in Hrun. discriminate Hrun.
Defined.

End ChainCases.

Section CompareCases.

Import CompareUtils CompareUtilsRest Spec Examples ExamplesRest.

Lemma checkIPLDMetaData_recheck_skipped_witness :
  checkIPLDMetaData (Some (record_B "cidA" 7))
    (checkIPLDMetaData (Some (record_B "cidA" 7)) (tracking "cidA" "") false).2 true
  = (Ok Skipped, (checkIPLDMetaData (Some (record_B "cidA" 7)) (tracking "cidA" "") false).2).
Proof.
  apply (checkIPLDMetaData_recheck_skipped (Some (record_B "cidA" 7))
           (tracking "cidA" "") false true).
  intros ipld Hipld. injection Hipld as <-.
  exists {| diff := "cidA"; checkpoint := "" |}. apply lookup_singleton_eq.
Defined.

Lemma sortAndLimit_keeps_elements_witness :
  ∃ kept, VArr [entity_ref "a" 1; entity_ref "b" 0] = VArr kept
          ∧ kept ⊆+ [entity_ref "b" 0; entity_ref "a" 1; entity_ref "c" 2]
          ∧ ((length [entity_ref "b" 0; entity_ref "a" 1; entity_ref "c" 2] ≤ 2)%nat →
             kept ≡ₚ [entity_ref "b" 0; entity_ref "a" 1; entity_ref "c" 2]).
Proof.
  apply (sortAndLimit_keeps_elements 2 codeUnitCompare
           (VArr [entity_ref "b" 0; entity_ref "a" 1; entity_ref "c" 2])
           (VArr [entity_ref "a" 1; entity_ref "b" 0])).
  reflexivity.
Defined.

Lemma contractIPLDState_idempotent_witness :
  contractIPLDState 2 codeUnitCompare
    (author_payload "checkpoint" [entity_ref "a" 1; entity_ref "b" 0])
  = Ok (author_state [entity_ref "a" 1; entity_ref "b" 0]).
Proof.
  apply (contractIPLDState_idempotent 2 codeUnitCompare
           codeUnitCompare_total codeUnitCompare_trans
           {| block := {| b_cid := "blockcid7"; b_number := 7; b_hash := "0xb7" |};
              contractAddress := "0xc0";
              cid := "ciddiff";
              kind := "diff";
              data := VObj [ ("meta", VNull);
                             ("state", author_state [entity_ref "b" 0; entity_ref "a" 1;
                                                     entity_ref "c" 2]) ] |}).
  - reflexivity.
  - reflexivity.
Defined.

Lemma combineIPLDState_null_neutral_witness :
  combineIPLDState 2 codeUnitCompare
    ([author_payload "diff" [entity_ref "b" 0; entity_ref "a" 1]]
       ++ None :: [author_posts_payload "diff" [entity_ref "z" 0]])
  = combineIPLDState 2 codeUnitCompare
      ([author_payload "diff" [entity_ref "b" 0; entity_ref "a" 1]]
         ++ [author_posts_payload "diff" [entity_ref "z" 0]]).
Proof.
  apply (proj1 (combineIPLDState_null_neutral 2 codeUnitCompare)
           [author_payload "diff" [entity_ref "b" 0; entity_ref "a" 1]]
           [author_posts_payload "diff" [entity_ref "z" 0]]
           (author_payload "diff" [entity_ref "b" 0; entity_ref "a" 1])
           [author_posts_payload "diff" [entity_ref "z" 0]]).
  - reflexivity.
  - split; [| split].
    + cbn. repeat split; apply (bool_decide_unpack _); reflexivity.
    + cbn. repeat split; apply (bool_decide_unpack _); reflexivity.
    + eexists. reflexivity.
Defined.

Lemma getIPLDsByBlock_structure_witness :
  ∃ lists,
    getIPLDsByBlock getState_at_7 ["0xc0"] "0xb7" = Ok lists
    ∧ length <$> lists = [3%nat]
    ∧ Forall2 (λ contract stateIPLDs,
                 ∃ state,
                   getState_at_7 "0xb7" contract None = Ok state
                   ∧ ((∃ ipld, state = Some ipld ∧ kind ipld = "checkpoint"
                               ∧ b_hash (block ipld) = "0xb7") →
                      ∃ getInitState getDiffState,
                        getState_at_7 "0xb7" contract (Some "init") = Ok getInitState
                        ∧ getState_at_7 "0xb7" contract (Some "diff") = Ok getDiffState
                        ∧ stateIPLDs
                          = filter (λ x, at_block "0xb7" x = true)
                                   [getInitState; getDiffState]
                            ++ [state])
                   ∧ (¬ (∃ ipld, state = Some ipld ∧ kind ipld = "checkpoint"
                                 ∧ b_hash (block ipld) = "0xb7") →
                      stateIPLDs = [state]))
              ["0xc0"] lists.
Proof.
  eexists. split; [reflexivity |]. split; [reflexivity |].
  apply (getIPLDsByBlock_structure getState_at_7 ["0xc0"] "0xb7").
  reflexivity.
Defined.

End CompareCases.

Section FillStateCases.

Import FillState FillStateRest Examples.

Lemma fillState_exit_code_witness :
  ∃ code σ',
    fillState table_indexer eden_dataSources 200 205 [diff_at 203] = (Exit code, σ')
    ∧ code = 1
    ∧ ((200 > 205 ∧ σ' = [diff_at 203])
       ∨ (filter (λ r, 200 ≤ blockNumber r ≤ 205) (stateTable table_indexer [diff_at 203])
          ≠ []
          ∧ σ' = [diff_at 203])
       ∨ (∃ height blocks,
            200 ≤ height ≤ 205
            ∧ getBlocksAtHeight _ _ _ _ table_indexer height false σ' = Ok blocks
            ∧ length blocks ≠ 1%nat)).
Proof.
  destruct (fillState table_indexer eden_dataSources 200 205 [diff_at 203])
    as [[[] | code | e] σ'] eqn:Hrun.
  - vm_compute in Hrun. discriminate Hrun.
  - exists code, σ'. split; [reflexivity |].
    exact (fillState_exit_code _ _ _ _ _ _ _ Hrun).
  - vm_compute in Hrun. discriminate Hrun.
Defined.

Lemma fillState_missing_block_stops_witness :
  fillState empty_chain_indexer eden_dataSources 200 205 [] = (Exit 1, []).
Proof.
  apply (fillState_missing_block_stops empty_chain_indexer eden_dataSources 200 205 [] []).
  - lia.
  - reflexivity.
  - reflexivity.
  - discriminate.
Defined.

End FillStateCases.

Section CodegenCases.

Import Codegen CodegenRest Examples.

Lemma Database_addQuery_names_unique_witness :
  NoDup (name <$> _queries ExamplesRest.two_query_database).
Proof.
  apply (Database_addQuery_names_unique unit gqlForSol tsForGql "totalSupply"
           [] [] balanceOf_database ExamplesRest.two_query_database).
  - apply (bool_decide_unpack _). reflexivity.
  - reflexivity.
Defined.

Lemma Client_addQuery_names_unique_witness :
  NoDup (c_name <$> c_queries ExamplesRest.two_query_client).
Proof.
  apply (Client_addQuery_names_unique gqlForSol tsForGql "totalSupply" []
           ExamplesRest.balanceOf_client ExamplesRest.two_query_client).
  - apply (bool_decide_unpack _). reflexivity.
  - reflexivity.
Defined.

Lemma Database_addQuery_derived_names_collide_witness :
  ∃ query1 query2 : DatabaseQuery unit,
    [ {| name := "foo"; entityName := "Foo"; getQueryName := "getFoo";
         saveQueryName := "saveFoo"; params := []; returnParameters := [] |};
      {| name := "Foo"; entityName := "Foo"; getQueryName := "getFoo";
         saveQueryName := "saveFoo"; params := []; returnParameters := [] |} ]
    = [] ++ [query1; query2]
    ∧ name query1 = "foo"
    ∧ name query2 = "Foo"
    ∧ name query1 ≠ name query2
    ∧ entityName _ query1 = entityName _ query2
    ∧ getQueryName _ query1 = getQueryName _ query2
    ∧ saveQueryName _ query1 = saveQueryName _ query2.
Proof.
  apply (Database_addQuery_derived_names_collide unit gqlForSol tsForGql
           "f"%char "oo" [] [] [] [] empty_database
           {| _queries :=
                [ {| name := "foo"; entityName := "Foo"; getQueryName := "getFoo";
                     saveQueryName := "saveFoo"; params := []; returnParameters := [] |};
                  {| name := "Foo"; entityName := "Foo"; getQueryName := "getFoo";
                     saveQueryName := "saveFoo"; params := []; returnParameters := [] |} ];
              _subgraphEntities := []; _templateString := "" |}).
  - discriminate.
  - discriminate.
  - apply not_elem_of_nil.
  - apply not_elem_of_nil.
  - reflexivity.
Defined.

End CodegenCases.
